(** * Channel protocol of the window-message library

    A shallow embedding of [src/index.ts]: [createChannel], [handle] and
    [request], together with the three message listeners they install, run
    against an explicit model of the browser pieces they use (windows with an
    origin and a parent, [postMessage], [addEventListener] /
    [removeEventListener], promises).

    The state is passed explicitly.  One step of an execution is one task of
    the event loop: a call of the library with the continuations it runs
    before returning to the loop, the arrival of one message event at one
    window (its listeners in registration order, each with the continuation
    it resumes), or the settling of the promise a callback returned.  The
    closures of the source are data: a listener is named by the call that
    created it and carries what it closes over.

    The development comes in two parts.  The first runs the library on
    plain data (what [JSON.stringify] prints), with callbacks whose
    rejection reasons are objects, between windows whose origin is the
    origin of their URL: there the log lines of the source only write text,
    and they are left out.  The second, module [Full], embeds the same
    functions with the exceptions those log lines, the [.catch] branch and
    [postMessage] can throw, and with windows of opaque origin. *)

From stdpp Require Import base option list strings.

Open Scope string_scope.
Open Scope list_scope.

#[local] Set Warnings "-register-all".

(** ** Data crossing the transport *)

(** Structured-cloneable payloads ([Req] and [Res] of the source are erased
    at run time, so one type of plain data stands for both). *)
Inductive value : Type :=
| VUndefined
| VNull
| VBool (b : bool)
| VNum (n : Z)
| VStr (s : string)
| VArr (items : list value)
| VObj (fields : list (string * value)).

(** A window-like context, named by a number. *)
Definition Window := nat.

(** [error?: { msg; stack }].  The responder fills [msg] with [err.message],
    which is [undefined] when the rejection reason has no such property. *)
Record ErrorDetail := {
  msg : option string;
  stack : string
}.

(** [ChannelMsg<T>], the envelope. *)
Record ChannelMsg := {
  success : bool;
  channel : string;
  isSetup : option bool;
  data : value;
  error : option ErrorDetail
}.

(** What a [MessageEvent] carries for the listeners: [event.origin],
    [event.source] (can be [null]) and [event.data]. *)
Record MessageEvent := {
  event_origin : string;
  event_source : option Window;
  event_data : ChannelMsg
}.

(** The second argument of [postMessage]: ["*"], the default (["/"], the
    sender's own origin) or an explicit origin. *)
Inductive TargetOrigin :=
| AnyOrigin
| SenderOrigin
| ExactOrigin (o : string).

(** A message handed to the transport and not delivered yet. *)
Record Post := {
  post_target : Window;
  post_sender : Window;
  post_msg : ChannelMsg;
  post_targetOrigin : TargetOrigin
}.

(** ** Promises *)

(** Reason of a rejected callback promise, read by [handle] through
    [err.message] and [err.stack]: either may be absent. *)
Record JsError := {
  message : option string;
  err_stack : option string
}.

(** How the promise returned by the responder's callback settles. *)
Inductive Settled :=
| Fulfilled (res : value)
| Rejected (err : JsError).

Definition Callback := value -> Settled.

(** The promise returned by a [request] call. *)
Inductive PromiseState :=
| Pending
| Resolved (v : value)
| RejectedWith (reason : string).

(** ** Closures *)

(** The variables of one [createChannel] call: the window it ran in, the
    channel name and the [isSetup] flag. *)
Record Channel := {
  chan_window : Window;
  chan_name : string;
  chan_isSetup : bool
}.

(** The parameters of one [request] call, kept while it awaits setup.
    [call_promise] indexes the promise the call returned. *)
Record RequestCall := {
  call_promise : nat;
  call_message : value;
  call_windowObj : Window;
  call_responseChannel : string;
  call_requestChannel : string
}.

(** The three listener closures of the source.
    - [LSetup h waiter]: [onMessage] of [processSetupMsg] in channel [h];
      [waiter] is the [request] call suspended on the promise
      [processSetupMsg] returned (none for the call made by [createChannel]
      itself, whose promise is dropped).
    - [LHandle k callback requestChannel responseChannel]: [messageHandler]
      of the [k]-th [handle] call.
    - [LRequest r responseChannel]: [messageHandler] of the [request] call
      whose promise is [r]. *)
Inductive Listener :=
| LSetup (h : nat) (waiter : option RequestCall)
| LHandle (k : nat) (callback : Callback) (requestChannel responseChannel : string)
| LRequest (r : nat) (responseChannel : string).

(** Function identity, as [removeEventListener] compares it: every closure
    is created once, by the call its number names. *)
Definition same_listener (a b : Listener) : bool :=
  match a, b with
  | LSetup h None, LSetup h' None => bool_decide (h = h')
  | LSetup _ (Some c), LSetup _ (Some c') =>
      bool_decide (call_promise c = call_promise c')
  | LHandle k _ _ _, LHandle k' _ _ _ => bool_decide (k = k')
  | LRequest r _, LRequest r' _ => bool_decide (r = r')
  | _, _ => false
  end.

(** The callback's promise with the [.then(...).catch(...)] chained on it in
    [handle]'s [messageHandler]: the window it runs in, the event and the
    response topic it closes over, and how the promise settles. *)
Record Job := {
  job_window : Window;
  job_event : MessageEvent;
  job_responseChannel : string;
  job_result : Settled
}.

(** ** State *)

Record State := mkState {
  channels : list Channel;
  listeners : list (Window * Listener);
  promises : list PromiseState;
  handlers : nat;
  calls : list (nat * value);
  jobs : list Job;
  inflight : list Post
}.

Definition init : State := mkState [] [] [] 0 [] [] [].

Definition set_channels (x : list Channel) (s : State) : State :=
  mkState x (listeners s) (promises s) (handlers s) (calls s) (jobs s) (inflight s).
Definition set_listeners (x : list (Window * Listener)) (s : State) : State :=
  mkState (channels s) x (promises s) (handlers s) (calls s) (jobs s) (inflight s).
Definition set_promises (x : list PromiseState) (s : State) : State :=
  mkState (channels s) (listeners s) x (handlers s) (calls s) (jobs s) (inflight s).
Definition set_handlers (x : nat) (s : State) : State :=
  mkState (channels s) (listeners s) (promises s) x (calls s) (jobs s) (inflight s).
Definition set_calls (x : list (nat * value)) (s : State) : State :=
  mkState (channels s) (listeners s) (promises s) (handlers s) x (jobs s) (inflight s).
Definition set_jobs (x : list Job) (s : State) : State :=
  mkState (channels s) (listeners s) (promises s) (handlers s) (calls s) x (inflight s).
Definition set_inflight (x : list Post) (s : State) : State :=
  mkState (channels s) (listeners s) (promises s) (handlers s) (calls s) (jobs s) x.

(** ** Browser primitives *)

(** [window.addEventListener("message", l)] in window [w]. *)
Definition addEventListener (w : Window) (l : Listener) (s : State) : State :=
  set_listeners (listeners s ++ [(w, l)]) s.

(** [window.removeEventListener("message", l)] in window [w]. *)
Definition removeEventListener (w : Window) (l : Listener) (s : State) : State :=
  set_listeners
    (filter (fun e => ¬ (e.1 = w ∧ same_listener l e.2 = true)) (listeners s)) s.

(** [target.postMessage(m, targetOrigin)] called from window [w]. *)
Definition postMessage (target w : Window) (m : ChannelMsg) (o : TargetOrigin)
    (s : State) : State :=
  set_inflight (inflight s ++ [Build_Post target w m o]) s.

(** [resolve(v)] and [reject(reason)] of promise [r]: a settled promise stays
    as it is. *)
Definition settle_promise (r : nat) (x : PromiseState) (s : State) : State :=
  match promises s !! r with
  | Some Pending => set_promises (<[r := x]> (promises s)) s
  | _ => s
  end.

Definition resolve (r : nat) (v : value) : State -> State :=
  settle_promise r (Resolved v).
Definition reject (r : nat) (reason : string) : State -> State :=
  settle_promise r (RejectedWith reason).

(** JavaScript truthiness of the optional [isSetup]. *)
Definition truthy (b : option bool) : bool := default false b.

(** ** The library *)

Definition requestChannel (channel : string) : string := "request:/" +:+ channel.
Definition responseChannel (channel : string) : string := "response:/" +:+ channel.

Definition set_isSetup (h : nat) (s : State) : State :=
  match channels s !! h with
  | Some c =>
      set_channels
        (<[h := Build_Channel (chan_window c) (chan_name c) true]> (channels s)) s
  | None => s
  end.

Definition isSetup_of (h : nat) (s : State) : bool :=
  match channels s !! h with
  | Some c => chan_isSetup c
  | None => false
  end.

Section Protocol.

(** The origin and the parent of every window ([window.parent] of a
    top-level window is the window itself). *)
Context (location_origin : Window -> string) (parent : Window -> Window).

(** [request], from the [new Promise] on: what runs once
    [waitChildWindowSetup] has returned. *)
Definition request_send (w : Window) (c : RequestCall) (s : State) : State :=
  let s := addEventListener w
             (LRequest (call_promise c) (call_responseChannel c)) s in
  let msg := {| channel := call_requestChannel c; success := true;
                isSetup := None; data := call_message c; error := None |} in
  postMessage (call_windowObj c) w msg AnyOrigin s.

(** Resuming what awaits the promise of [processSetupMsg]. *)
Definition resume (w : Window) (waiter : option RequestCall) (s : State) : State :=
  match waiter with
  | Some c => request_send w c s
  | None => s
  end.

(** [onMessage] of [processSetupMsg], running in window [w]. *)
Definition onMessage (w : Window) (h : nat) (waiter : option RequestCall)
    (event : MessageEvent) (s : State) : State :=
  match channels s !! h with
  | None => s
  | Some c =>
      if negb (bool_decide (event_origin event = location_origin w)) then s
      else
        let channelMsg := event_data event in
        if negb (bool_decide (channel channelMsg = requestChannel (chan_name c)))
        then s
        else if truthy (isSetup channelMsg) then
          let s := set_isSetup h s in
          let s := removeEventListener w (LSetup h waiter) s in
          resume w waiter s
        else s
  end.

(** [processSetupMsg] called in window [w]. *)
Definition processSetupMsg (w : Window) (h : nat) (waiter : option RequestCall)
    (s : State) : State :=
  addEventListener w (LSetup h waiter) s.

(** [createChannel(channel)] called in window [w]; the new channel is
    number [length (channels s)]. *)
Definition createChannel (w : Window) (name : string) (s : State) : State :=
  let h := length (channels s) in
  let s := set_channels (channels s ++ [Build_Channel w name false]) s in
  processSetupMsg w h None s.

(** [waitChildWindowSetup] followed by the rest of the [request] call. *)
Definition waitChildWindowSetup (w : Window) (h : nat) (c : RequestCall)
    (s : State) : State :=
  if isSetup_of h s then request_send w c s
  else processSetupMsg w h (Some c) s.

(** [channel.request(message, windowObj)] on channel [h]; [windowObj]
    omitted is [None]. The promise returned is number
    [length (promises s)]. *)
Definition request (h : nat) (message : value) (windowObj : option Window)
    (s : State) : State :=
  match channels s !! h with
  | None => s
  | Some c =>
      let w := chan_window c in
      let r := length (promises s) in
      let s := set_promises (promises s ++ [Pending]) s in
      let call := {| call_promise := r; call_message := message;
                     call_windowObj := default w windowObj;
                     call_responseChannel := responseChannel (chan_name c);
                     call_requestChannel := requestChannel (chan_name c) |} in
      waitChildWindowSetup w h call s
  end.

(** [event.source?.postMessage(m, { targetOrigin: event.origin })]. *)
Definition source_postMessage (w : Window) (event : MessageEvent)
    (m : ChannelMsg) (s : State) : State :=
  match event_source event with
  | Some src => postMessage src w m (ExactOrigin (event_origin event)) s
  | None => s
  end.

(** The [.then] branch of [handle]'s [messageHandler]. *)
Definition handle_then (w : Window) (event : MessageEvent)
    (responseChannel : string) (res : value) (s : State) : State :=
  let msg := {| channel := responseChannel; success := true; isSetup := None;
                data := res; error := None |} in
  source_postMessage w event msg s.

(** The [.catch] branch of [handle]'s [messageHandler]. *)
Definition handle_catch (w : Window) (event : MessageEvent)
    (responseChannel : string) (err : JsError) (s : State) : State :=
  let errMsg := {| channel := responseChannel; success := false;
                   isSetup := None; data := VUndefined;
                   error := Some {| msg := message err;
                                    stack := default "" (err_stack err) |} |} in
  source_postMessage w event errMsg s.

(** [messageHandler] of [handle], running in window [w]. *)
Definition handle_messageHandler (w : Window) (k : nat) (callback : Callback)
    (requestChannel responseChannel : string) (event : MessageEvent)
    (s : State) : State :=
  if negb (bool_decide (event_origin event = location_origin w)) then s
  else
    let channelMsg := event_data event in
    if negb (bool_decide (channel channelMsg = requestChannel)) then s
    else if truthy (isSetup channelMsg) then s
    else
      let s := set_calls (calls s ++ [(k, data channelMsg)]) s in
      set_jobs (jobs s ++ [Build_Job w event responseChannel
                             (callback (data channelMsg))]) s.

(** [channel.handle(callback)] on channel [h]. *)
Definition handle (h : nat) (callback : Callback) (s : State) : State :=
  match channels s !! h with
  | None => s
  | Some c =>
      let w := chan_window c in
      let setupMsg := {| channel := requestChannel (chan_name c);
                         success := true; isSetup := Some true;
                         data := VUndefined; error := None |} in
      let s := postMessage (parent w) w setupMsg SenderOrigin s in
      let k := handlers s in
      let s := set_handlers (S k) s in
      addEventListener w
        (LHandle k callback (requestChannel (chan_name c))
           (responseChannel (chan_name c))) s
  end.

(** [channelMsg.error?.msg || "Unknown error"]. *)
Definition reject_reason (channelMsg : ChannelMsg) : string :=
  match error channelMsg with
  | Some e =>
      match msg e with
      | Some m => if bool_decide (m = "") then "Unknown error" else m
      | None => "Unknown error"
      end
  | None => "Unknown error"
  end.

(** [messageHandler] of [request], running in window [w]. *)
Definition request_messageHandler (w : Window) (r : nat)
    (responseChannel : string) (event : MessageEvent) (s : State) : State :=
  if negb (bool_decide (event_origin event = location_origin w)) then s
  else
    let channelMsg := event_data event in
    if negb (bool_decide (channel channelMsg = responseChannel)) then s
    else
      let s := if success channelMsg then resolve r (data channelMsg) s
               else reject r (reject_reason channelMsg) s in
      removeEventListener w (LRequest r responseChannel) s.

(** ** Event dispatch and the transport *)

Definition run_listener (w : Window) (event : MessageEvent) (l : Listener)
    (s : State) : State :=
  match l with
  | LSetup h waiter => onMessage w h waiter event s
  | LHandle k callback req res =>
      handle_messageHandler w k callback req res event s
  | LRequest r res => request_messageHandler w r res event s
  end.

Definition registered (w : Window) (l : Listener) (s : State) : bool :=
  existsb (fun e => bool_decide (e.1 = w) && same_listener l e.2) (listeners s).

Definition listeners_of (w : Window) (s : State) : list Listener :=
  (filter (fun e => e.1 = w) (listeners s)).*2.

(** One listener's turn during a dispatch: it is skipped when it has been
    removed since the dispatch began. *)
Definition invoke (w : Window) (event : MessageEvent) (s : State)
    (l : Listener) : State :=
  if registered w l s then run_listener w event l s else s.

(** A message event arrives at window [w]: the listeners registered when
    the dispatch begins are called in registration order. *)
Definition dispatchEvent (w : Window) (event : MessageEvent) (s : State) : State :=
  fold_left (invoke w event) (listeners_of w s) s.

Definition origin_allows (o : TargetOrigin) (sender target : Window) : bool :=
  match o with
  | AnyOrigin => true
  | SenderOrigin => bool_decide (location_origin sender = location_origin target)
  | ExactOrigin x => bool_decide (x = location_origin target)
  end.

(** The event a post becomes at its target. *)
Definition event_of (p : Post) : MessageEvent :=
  {| event_origin := location_origin (post_sender p);
     event_source := Some (post_sender p);
     event_data := post_msg p |}.

(** The transport delivers the [i]-th post in flight (or drops it when the
    target's origin is not the one asked for). *)
Definition deliver (i : nat) (s : State) : State :=
  match inflight s !! i with
  | None => s
  | Some p =>
      let s := set_inflight (delete i (inflight s)) s in
      if origin_allows (post_targetOrigin p) (post_sender p) (post_target p)
      then dispatchEvent (post_target p) (event_of p) s
      else s
  end.

(** What runs when the callback's promise of a job settles. *)
Definition run_job (j : Job) (s : State) : State :=
  match job_result j with
  | Fulfilled res =>
      handle_then (job_window j) (job_event j) (job_responseChannel j) res s
  | Rejected err =>
      handle_catch (job_window j) (job_event j) (job_responseChannel j) err s
  end.

(** The [j]-th pending callback promise settles. *)
Definition settle (j : nat) (s : State) : State :=
  match jobs s !! j with
  | None => s
  | Some jb => run_job jb (set_jobs (delete j (jobs s)) s)
  end.

(** ** Executions *)

Inductive Action :=
| ACreateChannel (w : Window) (name : string)
| AHandle (h : nat) (callback : Callback)
| ARequest (h : nat) (message : value) (windowObj : option Window)
| ADeliver (i : nat)
| ASettle (j : nat)
| ADispatch (w : Window) (event : MessageEvent).

Definition step (s : State) (a : Action) : State :=
  match a with
  | ACreateChannel w name => createChannel w name s
  | AHandle h callback => handle h callback s
  | ARequest h message windowObj => request h message windowObj s
  | ADeliver i => deliver i s
  | ASettle j => settle j s
  | ADispatch w event => dispatchEvent w event s
  end.

Definition run (acts : list Action) (s : State) : State :=
  fold_left step acts s.

(** * Properties *)

(** ** General facts *)

Lemma fold_left_invariant {A B : Type} (P : A → Prop) (f : A → B → A)
    (l : list B) (a : A) :
  P a → (∀ x b, P x → P (f x b)) → P (fold_left f l a).
Proof.
  intros Ha Hstep. revert a Ha.
  induction l as [|b l IH]; intros a Ha; simpl; [done|].
  apply IH, Hstep, Ha.
Qed.

(** The request topic and the response topic never coincide, whatever the
    channel names, and different names give different topics. *)
Lemma request_response_distinct (n m : string) :
  requestChannel n ≠ responseChannel m.
Proof.
  unfold requestChannel, responseChannel. simpl. intros H. discriminate H.
Qed.

(** *** Origin guard *)

Lemma run_listener_foreign (w : Window) (event : MessageEvent) (l : Listener)
    (s : State) :
  event_origin event ≠ location_origin w → run_listener w event l s = s.
Proof.
  intros Ho. destruct l as [h waiter|k cb req res|r res]; simpl.
  - unfold onMessage. destruct (channels s !! h); [|done].
    by rewrite bool_decide_eq_false_2.
  - unfold handle_messageHandler. by rewrite bool_decide_eq_false_2.
  - unfold request_messageHandler. by rewrite bool_decide_eq_false_2.
Qed.

Lemma dispatchEvent_foreign (w : Window) (event : MessageEvent) (s : State) :
  event_origin event ≠ location_origin w → dispatchEvent w event s = s.
Proof.
  intros Ho. unfold dispatchEvent. generalize (listeners_of w s) as ls.
  induction ls as [|l ls IH]; simpl; [done|].
  unfold invoke at 2. rewrite run_listener_foreign by done.
  by destruct (registered w l s).
Qed.

(** C3: an envelope whose declared sender origin differs from the origin of
    the window it arrives at changes nothing: no listener of either role
    reacts, so no callback is invoked, no promise is resolved or rejected and
    the whole protocol state is the one before. *)
Theorem foreign_origin_discarded (w : Window) (event : MessageEvent) (s : State) :
  event_origin event ≠ location_origin w →
  dispatchEvent w event s = s ∧ ∀ l, run_listener w event l s = s.
Proof.
  intros Ho. split; [by apply dispatchEvent_foreign|].
  intros l. by apply run_listener_foreign.
Qed.

(** *** The setup flag *)

(** A same-origin setup announcement for channel name [name], as seen from
    window [w]. *)
Definition setup_announcement (w : Window) (name : string) (event : MessageEvent) : Prop :=
  event_origin event = location_origin w ∧
  channel (event_data event) = requestChannel name ∧
  isSetup (event_data event) = Some true.

Lemma truthy_true (b : option bool) : truthy b = true ↔ b = Some true.
Proof. destruct b as [[]|]; simpl; naive_solver. Qed.

Lemma onMessage_announced (w : Window) (h : nat) (waiter : option RequestCall)
    (event : MessageEvent) (s : State) (c : Channel) :
  channels s !! h = Some c →
  setup_announcement w (chan_name c) event →
  onMessage w h waiter event s =
    resume w waiter (removeEventListener w (LSetup h waiter) (set_isSetup h s)).
Proof.
  intros Hc (Ho & Hch & Hs). unfold onMessage. rewrite Hc.
  rewrite !bool_decide_eq_true_2 by done. simpl.
  by rewrite Hs.
Qed.

Definition chan_le (c c' : Channel) : Prop :=
  chan_window c' = chan_window c ∧ chan_name c' = chan_name c ∧
  (chan_isSetup c = true → chan_isSetup c' = true).

(** Channels are never dropped, moved or renamed, and a flag that is set
    stays set. *)
Definition channels_grow (s s' : State) : Prop :=
  ∀ h c, channels s !! h = Some c →
    ∃ c', channels s' !! h = Some c' ∧ chan_le c c'.

Lemma chan_le_refl (c : Channel) : chan_le c c.
Proof. by repeat split. Qed.

Lemma channels_grow_same (s s' : State) :
  channels s' = channels s → channels_grow s s'.
Proof. intros E h c Hc. exists c. rewrite E. split; [done|apply chan_le_refl]. Qed.

Lemma channels_grow_refl (s : State) : channels_grow s s.
Proof. by apply channels_grow_same. Qed.

Lemma channels_grow_trans (s1 s2 s3 : State) :
  channels_grow s1 s2 → channels_grow s2 s3 → channels_grow s1 s3.
Proof.
  intros H12 H23 h c Hc.
  destruct (H12 h c Hc) as (c2 & Hc2 & (?&?&?)).
  destruct (H23 h c2 Hc2) as (c3 & Hc3 & (?&?&?)).
  exists c3. split; [done|]. repeat split; [congruence..|auto].
Qed.

Lemma channels_grow_set_isSetup (h : nat) (s : State) :
  channels_grow s (set_isSetup h s).
Proof.
  unfold set_isSetup. destruct (channels s !! h) as [c|] eqn:Hc;
    [|apply channels_grow_refl].
  intros h' c' Hc'. simpl. destruct (decide (h' = h)) as [->|Hne].
  - rewrite list_lookup_insert_eq by (by eapply lookup_lt_Some).
    eexists. split; [done|]. rewrite Hc in Hc'. by simplify_eq.
  - rewrite list_lookup_insert_ne by done. exists c'.
    split; [done|apply chan_le_refl].
Qed.

Lemma channels_resume (w : Window) (waiter : option RequestCall) (s : State) :
  channels (resume w waiter s) = channels s.
Proof. by destruct waiter. Qed.

Lemma channels_settle_promise (r : nat) (x : PromiseState) (s : State) :
  channels (settle_promise r x s) = channels s.
Proof. unfold settle_promise. by destruct (promises s !! r) as [[]|]. Qed.

Lemma channels_handle_messageHandler (w : Window) (k : nat) (cb : Callback)
    (req res : string) (event : MessageEvent) (s : State) :
  channels (handle_messageHandler w k cb req res event s) = channels s.
Proof. unfold handle_messageHandler. by repeat case_match. Qed.

Lemma channels_request_messageHandler (w : Window) (r : nat) (res : string)
    (event : MessageEvent) (s : State) :
  channels (request_messageHandler w r res event s) = channels s.
Proof.
  unfold request_messageHandler.
  repeat case_match; try done; simpl; unfold resolve, reject;
    by rewrite channels_settle_promise.
Qed.

Lemma channels_handle (h : nat) (cb : Callback) (s : State) :
  channels (handle h cb s) = channels s.
Proof. unfold handle. by case_match. Qed.

Lemma channels_request (h : nat) (m : value) (t : option Window) (s : State) :
  channels (request h m t s) = channels s.
Proof. unfold request, waitChildWindowSetup. by repeat case_match. Qed.

Lemma channels_grow_run_listener (w : Window) (event : MessageEvent)
    (l : Listener) (s : State) :
  channels_grow s (run_listener w event l s).
Proof.
  destruct l as [h waiter|k cb req res|r res]; simpl.
  - unfold onMessage. destruct (channels s !! h); [|apply channels_grow_refl].
    repeat (case_match; try apply channels_grow_refl).
    eapply channels_grow_trans; [apply channels_grow_set_isSetup|].
    apply channels_grow_same. by rewrite channels_resume.
  - apply channels_grow_same, channels_handle_messageHandler.
  - apply channels_grow_same, channels_request_messageHandler.
Qed.

Lemma channels_grow_invoke (w : Window) (event : MessageEvent)
    (s : State) (l : Listener) :
  channels_grow s (invoke w event s l).
Proof.
  unfold invoke. destruct (registered w l s);
    [apply channels_grow_run_listener|apply channels_grow_refl].
Qed.

Lemma channels_run_job (j : Job) (s : State) :
  channels (run_job j s) = channels s.
Proof.
  unfold run_job, handle_then, handle_catch, source_postMessage.
  by repeat case_match.
Qed.

Lemma isSetup_of_lookup (h : nat) (s : State) (c : Channel) :
  channels s !! h = Some c → isSetup_of h s = chan_isSetup c.
Proof. unfold isSetup_of. by intros ->. Qed.

Lemma isSetup_of_true (h : nat) (s : State) :
  isSetup_of h s = true ↔ ∃ c, channels s !! h = Some c ∧ chan_isSetup c = true.
Proof.
  unfold isSetup_of. destruct (channels s !! h) as [c|].
  - split; [by exists c|]. by intros (c' & [= <-] & Hf).
  - split; [done|]. by intros (c' & [=] & _).
Qed.

Lemma isSetup_of_grow (h : nat) (s s' : State) :
  channels_grow s s' → isSetup_of h s = true → isSetup_of h s' = true.
Proof.
  intros Hg (c & Hc & Hf)%isSetup_of_true.
  destruct (Hg h c Hc) as (c' & Hc' & _ & _ & Hflag).
  apply isSetup_of_true. exists c'. auto.
Qed.

(** The message event an action brings to a window, if any. *)
Definition arrival (a : Action) (s : State) : option (Window * MessageEvent) :=
  match a with
  | ADispatch w event => Some (w, event)
  | ADeliver i =>
      match inflight s !! i with
      | Some p =>
          if origin_allows (post_targetOrigin p) (post_sender p) (post_target p)
          then Some (post_target p, event_of p)
          else None
      | None => None
      end
  | _ => None
  end.

(** *** Listeners: who stays registered *)

Lemma same_listener_refl (l : Listener) : same_listener l l = true.
Proof. destruct l as [h [c|]| |]; simpl; by apply bool_decide_eq_true_2. Qed.



Lemma registered_true (w : Window) (l : Listener) (s : State) :
  registered w l s = true ↔
  ∃ l', (w, l') ∈ listeners s ∧ same_listener l l' = true.
Proof.
  unfold registered. rewrite existsb_exists. split.
  - intros ([w' l'] & Hin & (Hw%bool_decide_eq_true_1 & Hs)%andb_true_iff).
    simpl in *. subst w'. exists l'. by rewrite list_elem_of_In.
  - intros (l' & Hin & Hs). exists (w, l'). rewrite <- list_elem_of_In.
    split; [done|]. simpl. by rewrite bool_decide_eq_true_2.
Qed.

Lemma registered_elem_of (w : Window) (l : Listener) (s : State) :
  (w, l) ∈ listeners s → registered w l s = true.
Proof.
  intros Hin. apply registered_true. exists l. split; [done|].
  apply same_listener_refl.
Qed.

Lemma elem_of_listeners_of (w : Window) (l : Listener) (s : State) :
  l ∈ listeners_of w s ↔ (w, l) ∈ listeners s.
Proof.
  unfold listeners_of. rewrite list_elem_of_fmap. split.
  - intros ([w' l'] & -> & [Hin Hw]%list_elem_of_filter). simpl in *. by subst.
  - intros Hin. exists (w, l). split; [done|]. by apply list_elem_of_filter.
Qed.

Lemma elem_of_removeEventListener (e : Window * Listener) (w : Window)
    (l : Listener) (s : State) :
  e ∈ listeners s → ¬ (e.1 = w ∧ same_listener l e.2 = true) →
  e ∈ listeners (removeEventListener w l s).
Proof. intros Hin Hn. simpl. by apply list_elem_of_filter. Qed.

Lemma listeners_settle_promise (r : nat) (x : PromiseState) (s : State) :
  listeners (settle_promise r x s) = listeners s.
Proof. unfold settle_promise. by destruct (promises s !! r) as [[]|]. Qed.

Lemma elem_of_resume (e : Window * Listener) (w : Window)
    (waiter : option RequestCall) (s : State) :
  e ∈ listeners s → e ∈ listeners (resume w waiter s).
Proof.
  intros Hin. destruct waiter as [c|]; simpl; [|done].
  apply elem_of_app. by left.
Qed.

Lemma listeners_set_isSetup (h : nat) (s : State) :
  listeners (set_isSetup h s) = listeners s.
Proof. unfold set_isSetup. by destruct (channels s !! h). Qed.

(** The outcome a response envelope gives the promise of a [request] call. *)
Definition completion (m : ChannelMsg) : PromiseState :=
  if success m then Resolved (data m) else RejectedWith (reject_reason m).


Lemma request_messageHandler_skip (w : Window) (r : nat) (res : string)
    (event : MessageEvent) (s : State) :
  channel (event_data event) ≠ res →
  request_messageHandler w r res event s = s.
Proof.
  intros Hc. unfold request_messageHandler.
  rewrite (bool_decide_eq_false_2 (channel _ = _)) by done.
  by destruct (bool_decide _).
Qed.

(** A listener that runs removes no listener but itself. *)
Lemma run_listener_keeps (e : Window * Listener) (w : Window)
    (event : MessageEvent) (l : Listener) (s : State) :
  e ∈ listeners s → ¬ (e.1 = w ∧ same_listener l e.2 = true) →
  e ∈ listeners (run_listener w event l s).
Proof.
  intros Hin Hn. destruct l as [h waiter|k cb req res|r res]; simpl.
  - unfold onMessage. repeat case_match; try done.
    apply elem_of_resume. apply elem_of_removeEventListener; [|done].
    by rewrite listeners_set_isSetup.
  - unfold handle_messageHandler. by repeat case_match.
  - unfold request_messageHandler. repeat case_match; try done;
      (apply elem_of_removeEventListener; [|done]);
      unfold resolve, reject; by rewrite listeners_settle_promise.
Qed.


(** *** Promises *)

Lemma promises_resume (w : Window) (waiter : option RequestCall) (s : State) :
  promises (resume w waiter s) = promises s.
Proof. by destruct waiter. Qed.

Lemma promises_set_isSetup (h : nat) (s : State) :
  promises (set_isSetup h s) = promises s.
Proof. unfold set_isSetup. by destruct (channels s !! h). Qed.

Lemma promises_onMessage (w : Window) (h : nat) (waiter : option RequestCall)
    (event : MessageEvent) (s : State) :
  promises (onMessage w h waiter event s) = promises s.
Proof.
  unfold onMessage. repeat case_match; try done.
  rewrite promises_resume. simpl. apply promises_set_isSetup.
Qed.

Lemma promises_handle_messageHandler (w : Window) (k : nat) (cb : Callback)
    (req res : string) (event : MessageEvent) (s : State) :
  promises (handle_messageHandler w k cb req res event s) = promises s.
Proof. unfold handle_messageHandler. by repeat case_match. Qed.


Lemma settle_promise_ne (r r' : nat) (x : PromiseState) (s : State) :
  r ≠ r' → promises (settle_promise r' x s) !! r = promises s !! r.
Proof.
  intros Hne. unfold settle_promise.
  destruct (promises s !! r') as [[]|]; try done.
  simpl. by apply list_lookup_insert_ne.
Qed.

(** A settled promise stays as it is. *)
Lemma settle_promise_settled (r r' : nat) (x y : PromiseState) (s : State) :
  promises s !! r = Some y → y ≠ Pending →
  promises (settle_promise r' x s) !! r = Some y.
Proof.
  intros Hp Hy. destruct (decide (r = r')) as [<-|Hne].
  - unfold settle_promise. rewrite Hp. by destruct y.
  - by rewrite settle_promise_ne.
Qed.

Lemma run_listener_settled (w : Window) (event : MessageEvent) (l : Listener)
    (s : State) (r : nat) (y : PromiseState) :
  promises s !! r = Some y → y ≠ Pending →
  promises (run_listener w event l s) !! r = Some y.
Proof.
  intros Hp Hy. destruct l as [h waiter|k cb req res|r' res]; simpl.
  - by rewrite promises_onMessage.
  - by rewrite promises_handle_messageHandler.
  - unfold request_messageHandler. repeat case_match; try done; simpl;
      by apply settle_promise_settled.
Qed.






(** *** The responder *)

(** A same-origin request envelope on topic [req], as seen from window [w]:
    not a setup announcement. *)
Definition valid_request (w : Window) (req : string) (event : MessageEvent) : Prop :=
  event_origin event = location_origin w ∧
  channel (event_data event) = req ∧
  isSetup (event_data event) ≠ Some true.

(** The envelope [handle] answers with, by how the callback's promise
    settles. *)
Definition response_envelope (res : string) (o : Settled) : ChannelMsg :=
  match o with
  | Fulfilled v =>
      {| channel := res; success := true; isSetup := None; data := v;
         error := None |}
  | Rejected err =>
      {| channel := res; success := false; isSetup := None; data := VUndefined;
         error := Some {| msg := message err;
                          stack := default "" (err_stack err) |} |}
  end.

(** The promise a request leaves pending at the responder. *)
Definition job_for (w : Window) (cb : Callback) (res : string)
    (event : MessageEvent) : Job :=
  Build_Job w event res (cb (data (event_data event))).



(** The log of callback invocations and the pending callback promises only
    grow while listeners run. *)
Lemma calls_settle_promise (r : nat) (x : PromiseState) (s : State) :
  calls (settle_promise r x s) = calls s.
Proof. unfold settle_promise. by destruct (promises s !! r) as [[]|]. Qed.

Lemma jobs_settle_promise (r : nat) (x : PromiseState) (s : State) :
  jobs (settle_promise r x s) = jobs s.
Proof. unfold settle_promise. by destruct (promises s !! r) as [[]|]. Qed.

Lemma calls_set_isSetup (h : nat) (s : State) : calls (set_isSetup h s) = calls s.
Proof. unfold set_isSetup. by destruct (channels s !! h). Qed.

Lemma jobs_set_isSetup (h : nat) (s : State) : jobs (set_isSetup h s) = jobs s.
Proof. unfold set_isSetup. by destruct (channels s !! h). Qed.




Lemma listeners_run_job (j : Job) (s : State) :
  listeners (run_job j s) = listeners s.
Proof.
  unfold run_job, handle_then, handle_catch, source_postMessage.
  by repeat case_match.
Qed.





(** *** Requests waiting for setup *)

(** The promise a listener was created for, if any. *)
Definition listener_promise (l : Listener) : option nat :=
  match l with
  | LSetup _ (Some c) => Some (call_promise c)
  | LRequest r _ => Some r
  | _ => None
  end.

(** Every listener created for a [request] call names a promise that
    exists. *)
Definition promises_bound (s : State) : Prop :=
  ∀ w l r, (w, l) ∈ listeners s → listener_promise l = Some r →
    r < length (promises s).

Lemma fold_left_invariant_in {A B : Type} (P : A → Prop) (f : A → B → A)
    (l : list B) (a : A) :
  P a → (∀ x b, b ∈ l → P x → P (f x b)) → P (fold_left f l a).
Proof.
  revert a. induction l as [|b l IH]; intros a Ha Hstep; simpl; [done|].
  apply IH.
  - apply Hstep; [apply elem_of_cons; by left|done].
  - intros x b' Hb'. apply Hstep, elem_of_cons. by right.
Qed.



(** The only listener a running listener subscribes is the response
    listener of the [request] call it resumes. *)
Lemma run_listener_listeners (e : Window * Listener) (w : Window)
    (event : MessageEvent) (l : Listener) (s : State) :
  e ∈ listeners (run_listener w event l s) →
  e ∈ listeners s ∨
  ∃ h c, l = LSetup h (Some c) ∧
         e = (w, LRequest (call_promise c) (call_responseChannel c)).
Proof.
  destruct l as [h waiter|k cb req res|r res]; simpl.
  - unfold onMessage. repeat case_match; try (by left).
    intros Hin.
    assert (e ∈ listeners (removeEventListener w (LSetup h waiter) (set_isSetup h s))
            ∨ ∃ h0 c0, LSetup h waiter = LSetup h0 (Some c0) ∧
                e = (w, LRequest (call_promise c0) (call_responseChannel c0)))
      as [Hin'|Hin']; [| |by right].
    { destruct waiter as [c0|]; simpl in Hin |- *; [|by left].
      apply elem_of_app in Hin as [Hin|Hin]; [by left|].
      apply list_elem_of_singleton in Hin. right. by exists h, c0. }
    left. simpl in Hin'. apply list_elem_of_filter in Hin' as [_ Hin'].
    by rewrite listeners_set_isSetup in Hin'.
  - unfold handle_messageHandler. repeat case_match; by left.
  - unfold request_messageHandler. repeat case_match; try (by left); simpl;
      intros [_ Hin]%list_elem_of_filter; unfold resolve, reject in Hin;
      rewrite listeners_settle_promise in Hin; by left.
Qed.







(** The parameters of the [request] call on a channel with variables [c]
    that returned promise [r]. *)
Definition request_call (c : Channel) (r : nat) (m : value)
    (t : option Window) : RequestCall :=
  {| call_promise := r; call_message := m;
     call_windowObj := default (chan_window c) t;
     call_responseChannel := responseChannel (chan_name c);
     call_requestChannel := requestChannel (chan_name c) |}.

(** The request envelope of a call, as handed to the transport from
    window [w]. *)
Definition request_post (w : Window) (call : RequestCall) : Post :=
  {| post_target := call_windowObj call; post_sender := w;
     post_msg := {| channel := call_requestChannel call; success := true;
                    isSetup := None; data := call_message call;
                    error := None |};
     post_targetOrigin := AnyOrigin |}.

Lemma inflight_settle_promise (r : nat) (x : PromiseState) (s : State) :
  inflight (settle_promise r x s) = inflight s.
Proof. unfold settle_promise. by destruct (promises s !! r) as [[]|]. Qed.

Lemma inflight_set_isSetup (h : nat) (s : State) :
  inflight (set_isSetup h s) = inflight s.
Proof. unfold set_isSetup. by destruct (channels s !! h). Qed.

(** *** The round trip *)










(** *** Topics *)

(** The topics a listener closes over are the request topic and the response
    topic of one channel name. *)
Definition topic_ok (l : Listener) : Prop :=
  match l with
  | LSetup _ None => True
  | LSetup _ (Some c) =>
      ∃ n, call_requestChannel c = requestChannel n ∧
           call_responseChannel c = responseChannel n
  | LHandle _ _ req res => ∃ n, req = requestChannel n ∧ res = responseChannel n
  | LRequest _ res => ∃ n, res = responseChannel n
  end.

Definition topics_ok (s : State) : Prop :=
  ∀ w l, (w, l) ∈ listeners s → topic_ok l.

Lemma topics_ok_add (w : Window) (l : Listener) (s : State) :
  topics_ok s → topic_ok l → topics_ok (addEventListener w l s).
Proof.
  intros Hs Hl w0 l0. simpl. intros [Hin|Hin]%elem_of_app.
  - by eapply Hs.
  - apply list_elem_of_singleton in Hin. by simplify_eq.
Qed.

Lemma topics_ok_run_listener (w : Window) (event : MessageEvent)
    (l : Listener) (s : State) :
  topics_ok s → topic_ok l → topics_ok (run_listener w event l s).
Proof.
  intros Hs Hl w0 l0 Hin.
  apply run_listener_listeners in Hin as [Hin|(h & c & -> & [= -> ->])].
  - by eapply Hs.
  - destruct Hl as (n & _ & Hn). by exists n.
Qed.

Lemma topics_ok_dispatchEvent (w : Window) (event : MessageEvent) (s : State) :
  topics_ok s → topics_ok (dispatchEvent w event s).
Proof.
  intros Hs. unfold dispatchEvent.
  apply (fold_left_invariant_in topics_ok); [done|].
  intros x l Hl%elem_of_listeners_of Hx. unfold invoke.
  destruct (registered w l x); [|done].
  apply topics_ok_run_listener; [done|]. by eapply Hs.
Qed.

Lemma topics_ok_step (s : State) (a : Action) :
  topics_ok s → topics_ok (step s a).
Proof.
  intros Hs. destruct a as [w name|h cb|h m t|i|j|w ev]; simpl.
  - by apply (topics_ok_add w (LSetup _ None) (set_channels _ s)).
  - unfold handle. case_match; [|done].
    apply (topics_ok_add _ (LHandle _ _ _ _)
             (set_handlers _ (postMessage _ _ _ _ s))); [done|].
    by eexists.
  - unfold request, waitChildWindowSetup. case_match; [|done]. case_match.
    + apply (topics_ok_add _ (LRequest _ _) (set_promises _ s)); [done|].
      by eexists.
    + apply (topics_ok_add _ (LSetup _ (Some _)) (set_promises _ s)); [done|].
      by eexists.
  - unfold deliver. repeat case_match; try done.
    by apply topics_ok_dispatchEvent.
  - unfold settle. case_match; [|done]. intros w0 l0.
    rewrite listeners_run_job. apply Hs.
  - by apply topics_ok_dispatchEvent.
Qed.

(** ** Further properties of the protocol *)

(** *** Topic guard *)

(** The topic a listener waits on: the request topic of its channel for a
    setup listener, the request topic for a [handle] listener, the response
    topic for a [request] listener. *)
Definition listener_topic (s : State) (l : Listener) : option string :=
  match l with
  | LSetup h _ => (λ c, requestChannel (chan_name c)) <$> channels s !! h
  | LHandle _ _ req _ => Some req
  | LRequest _ res => Some res
  end.

Lemma run_listener_other_topic (w : Window) (event : MessageEvent)
    (l : Listener) (s : State) :
  listener_topic s l ≠ Some (channel (event_data event)) →
  run_listener w event l s = s.
Proof.
  intros Ht. destruct l as [h waiter|k cb req res|r res]; simpl in *.
  - unfold onMessage. destruct (channels s !! h) as [c|]; [|done].
    simpl in Ht.
    rewrite (bool_decide_eq_false_2 (channel _ = _)) by congruence.
    by destruct (bool_decide _).
  - unfold handle_messageHandler.
    rewrite (bool_decide_eq_false_2 (channel _ = _)) by congruence.
    by destruct (bool_decide _).
  - apply request_messageHandler_skip. congruence.
Qed.

(** X1: an envelope on a topic that no listener of the window waits on is
    dropped by every listener: the state is the one before. *)
Theorem other_topic_discarded (w : Window) (event : MessageEvent) (s : State) :
  (∀ l, (w, l) ∈ listeners s →
        listener_topic s l ≠ Some (channel (event_data event))) →
  dispatchEvent w event s = s.
Proof.
  intros Ht. unfold dispatchEvent.
  apply (fold_left_invariant_in (λ x, x = s)); [done|].
  intros x l Hl%elem_of_listeners_of ->. unfold invoke.
  destruct (registered w l s); [|done].
  apply run_listener_other_topic. by apply Ht.
Qed.

(** *** Settling a request *)

Lemma step_settled (s : State) (a : Action) (r : nat) (x : PromiseState) :
  promises s !! r = Some x → x ≠ Pending → promises (step s a) !! r = Some x.
Proof.
  intros Hp Hx.
  assert (∀ w ev s', promises s' !! r = Some x →
            promises (dispatchEvent w ev s') !! r = Some x) as Hd.
  { intros w ev s' Hp'. unfold dispatchEvent.
    apply (fold_left_invariant (λ y, promises y !! r = Some x)); [done|].
    intros y l Hy. unfold invoke. destruct (registered w l y); [|done].
    by apply run_listener_settled. }
  destruct a as [w name|h cb|h m t|i|j|w ev]; simpl.
  - done.
  - unfold handle. by case_match.
  - unfold request, waitChildWindowSetup. case_match; [|done].
    case_match; simpl; by apply lookup_app_l_Some.
  - unfold deliver. repeat case_match; try done. by apply Hd.
  - unfold settle. case_match; [|done].
    unfold run_job, handle_then, handle_catch, source_postMessage.
    by repeat case_match.
  - by apply Hd.
Qed.

(** X2: the first response wins: once the promise of a [request] call is
    resolved or rejected, nothing that happens afterwards changes it. *)
Theorem settled_stays_settled (acts : list Action) (s : State) (r : nat)
    (x : PromiseState) :
  promises s !! r = Some x → x ≠ Pending → promises (run acts s) !! r = Some x.
Proof.
  intros Hp Hx. unfold run.
  apply (fold_left_invariant (λ y, promises y !! r = Some x)); [done|].
  intros y a Hy. by apply step_settled.
Qed.

(** *** When the callback runs *)

(** An invocation of the callback of a [handle] listener caused by the
    event that reaches window [w]. *)
Definition caused_call (s : State) (w : Window) (event : MessageEvent)
    (x : nat * value) : Prop :=
  ∃ cb req res,
    (w, LHandle x.1 cb req res) ∈ listeners s ∧
    valid_request w req event ∧
    x.2 = data (event_data event).

Lemma run_listener_calls_new (w : Window) (event : MessageEvent) (l : Listener)
    (s : State) :
  calls (run_listener w event l s) = calls s ∨
  ∃ k cb req res,
    l = LHandle k cb req res ∧ valid_request w req event ∧
    calls (run_listener w event l s) = calls s ++ [(k, data (event_data event))].
Proof.
  destruct l as [h waiter|k cb req res|r res]; simpl.
  - left. unfold onMessage. repeat case_match; try done.
    destruct waiter; simpl; by rewrite calls_set_isSetup.
  - unfold handle_messageHandler.
    destruct (bool_decide (event_origin event = location_origin w)) eqn:Ho;
      simpl; [|by left].
    destruct (bool_decide (channel (event_data event) = req)) eqn:Hc;
      simpl; [|by left].
    destruct (truthy (isSetup (event_data event))) eqn:Ht; [by left|].
    right. exists k, cb, req, res. split; [done|]. split; [|done].
    apply bool_decide_eq_true_1 in Ho, Hc. split; [done|]. split; [done|].
    intros E. by rewrite E in Ht.
  - left. unfold request_messageHandler. repeat case_match; try done; simpl;
      unfold resolve, reject; by rewrite calls_settle_promise.
Qed.

Lemma dispatchEvent_calls_new (w : Window) (event : MessageEvent) (s0 s : State) :
  listeners s = listeners s0 → calls s = calls s0 →
  ∃ new, calls (dispatchEvent w event s) = calls s0 ++ new ∧
         Forall (caused_call s0 w event) new.
Proof.
  intros Hl Hc. unfold dispatchEvent.
  apply (fold_left_invariant_in
           (λ x, ∃ new, calls x = calls s0 ++ new ∧
                        Forall (caused_call s0 w event) new)).
  { exists []. by rewrite app_nil_r. }
  intros x l Hin%elem_of_listeners_of (new & Hx & Hnew). unfold invoke.
  destruct (registered w l x); [|by exists new].
  destruct (run_listener_calls_new w event l x)
    as [E|(k & cb & req & res & -> & Hv & E)]; rewrite E, Hx.
  - by exists new.
  - exists (new ++ [(k, data (event_data event))]).
    split; [by rewrite app_assoc|].
    apply Forall_app. split; [done|]. apply Forall_singleton.
    exists cb, req, res. by rewrite <- Hl.
Qed.

(** X4: the callback runs for nothing but valid same-origin request envelopes:
    every invocation a step adds to the log is that of a [handle] listener
    subscribed in the window the event reaches, on the payload of an envelope
    that is on its request topic, of its window's origin, and not a setup
    announcement; calls of the library, settling promises and any other
    envelope invoke no callback. *)
Theorem callback_only_on_valid_request (s : State) (a : Action) :
  ∃ new,
    calls (step s a) = calls s ++ new ∧
    ∀ x, x ∈ new →
      ∃ w event, arrival a s = Some (w, event) ∧ caused_call s w event x.
Proof.
  assert (∀ s' (Q : nat * value → Prop), calls s' = calls s →
            ∃ new, calls s' = calls s ++ new ∧ ∀ x, x ∈ new → Q x) as Hsame.
  { intros s' Q E. exists []. rewrite app_nil_r. split; [done|].
    intros x Hx. by apply elem_of_nil in Hx. }
  destruct a as [w name|h cb|h m t|i|j|w ev]; simpl.
  - by apply Hsame.
  - apply Hsame. unfold handle. by case_match.
  - apply Hsame. unfold request, waitChildWindowSetup. by repeat case_match.
  - unfold deliver. destruct (inflight s !! i) as [p|] eqn:Hp; [|by apply Hsame].
    destruct (origin_allows _ _ _) eqn:Ho; [|by apply Hsame].
    destruct (dispatchEvent_calls_new (post_target p) (event_of p) s
                (set_inflight (delete i (inflight s)) s) eq_refl eq_refl)
      as (new & E & Hnew).
    exists new. split; [done|]. intros x Hx.
    exists (post_target p), (event_of p). split; [done|].
    by eapply Forall_forall in Hnew.
  - apply Hsame. unfold settle. case_match; [|done].
    unfold run_job, handle_then, handle_catch, source_postMessage.
    by repeat case_match.
  - destruct (dispatchEvent_calls_new w ev s s eq_refl eq_refl)
      as (new & E & Hnew).
    exists new. split; [done|]. intros x Hx. exists w, ev. split; [done|].
    by eapply Forall_forall in Hnew.
Qed.

(** *** Listeners that unsubscribe *)

Lemma not_elem_of_removeEventListener (w : Window) (l : Listener) (s : State) :
  (w, l) ∉ listeners (removeEventListener w l s).
Proof.
  unfold removeEventListener. cbn [listeners set_listeners].
  intros [Hn _]%list_elem_of_filter. apply Hn. split; [done|].
  exact (same_listener_refl l).
Qed.

Lemma run_listener_no_new_setup (e : Window * Listener) (w : Window)
    (event : MessageEvent) (l : Listener) (s : State) (h : nat)
    (wt : option RequestCall) :
  e = (w, LSetup h wt) →
  e ∈ listeners (run_listener w event l s) → e ∈ listeners s.
Proof.
  intros -> Hin.
  by apply run_listener_listeners in Hin as [Hin|(h0 & c0 & _ & [=])].
Qed.

(** X7: a setup announcement unsubscribes every setup listener of the channel:
    once a same-origin announcement on the request topic of channel [h] has
    reached window [w], no [onMessage] listener of [h] is left there, neither
    the one [createChannel] subscribed nor those of waiting [request]
    calls. *)
Theorem announcement_removes_setup_listeners (w : Window) (h : nat)
    (c : Channel) (event : MessageEvent) (s : State)
    (waiter : option RequestCall) :
  channels s !! h = Some c →
  setup_announcement w (chan_name c) event →
  (w, LSetup h waiter) ∉ listeners (dispatchEvent w event s).
Proof.
  intros Hc Ha Hin.
  assert (∀ ls x,
            (∃ c', channels x !! h = Some c' ∧ chan_name c' = chan_name c) →
            ((w, LSetup h waiter) ∈ listeners x → LSetup h waiter ∈ ls) →
            (w, LSetup h waiter) ∈ listeners (fold_left (invoke w event) ls x) →
            False) as Hfold.
  { induction ls as [|l ls IH]; intros x Hcx Hx Hfin; simpl in Hfin.
    { by apply Hx, elem_of_nil in Hfin. }
    apply (IH (invoke w event x l)); [| |done].
    - destruct Hcx as (c' & Hc' & Hn).
      destruct (channels_grow_invoke w event x l h c' Hc')
        as (c2 & Hc2 & _ & Hn2 & _).
      exists c2. split; [done|congruence].
    - intros Hin'. unfold invoke in Hin'.
      destruct (registered w l x) eqn:Hreg.
      + assert ((w, LSetup h waiter) ∈ listeners x) as Hold
          by (by eapply run_listener_no_new_setup).
        apply Hx, elem_of_cons in Hold as [<-|Hold]; [|done].
        exfalso. destruct Hcx as (c' & Hc' & Hn). simpl in Hin'.
        rewrite (onMessage_announced w h waiter event x c' Hc') in Hin'
          by (by rewrite Hn).
        assert ((w, LSetup h waiter) ∈
                  listeners (removeEventListener w (LSetup h waiter)
                               (set_isSetup h x))) as Hrem.
        { destruct waiter as [c0|]; simpl in Hin' |- *; [|done].
          apply elem_of_app in Hin' as [Hin'|Hin']; [done|].
          by apply list_elem_of_singleton in Hin'. }
        by apply not_elem_of_removeEventListener in Hrem.
      + pose proof (registered_elem_of _ _ _ Hin') as Hreg'.
        apply Hx, elem_of_cons in Hin' as [<-|Hin']; [|done].
        congruence. }
  apply (Hfold (listeners_of w s) s); [by exists c| |done].
  intros Hs. by apply elem_of_listeners_of.
Qed.

(** *** The handshake *)

(** The listener [createChannel] subscribes stays until the flag is set. *)
Definition standing (s : State) : Prop :=
  ∀ h c, channels s !! h = Some c → chan_isSetup c = false →
    (chan_window c, LSetup h None) ∈ listeners s.

Lemma length_channels_run_listener (w : Window) (event : MessageEvent)
    (l : Listener) (s : State) :
  length (channels (run_listener w event l s)) = length (channels s).
Proof.
  destruct l as [h waiter|k cb req res|r res]; simpl.
  - unfold onMessage. repeat case_match; try done.
    rewrite channels_resume. simpl. unfold set_isSetup.
    destruct (channels s !! h); [|done]. simpl. by rewrite length_insert.
  - by rewrite channels_handle_messageHandler.
  - by rewrite channels_request_messageHandler.
Qed.

Lemma channels_back (w : Window) (event : MessageEvent) (l : Listener)
    (s : State) (h : nat) (c : Channel) :
  channels (run_listener w event l s) !! h = Some c →
  ∃ c0, channels s !! h = Some c0 ∧ chan_le c0 c.
Proof.
  intros Hc.
  destruct (channels s !! h) as [c0|] eqn:Hc0.
  - destruct (channels_grow_run_listener w event l s h c0 Hc0)
      as (c' & Hc' & Hle).
    exists c0. split; [done|]. congruence.
  - apply lookup_lt_Some in Hc. apply lookup_ge_None in Hc0.
    rewrite length_channels_run_listener in Hc. lia.
Qed.

Lemma same_listener_standing (l : Listener) (h : nat) :
  same_listener l (LSetup h None) = true → l = LSetup h None.
Proof.
  destruct l as [h' [c'|]| |]; simpl; try done.
  by intros ->%bool_decide_eq_true_1.
Qed.

Lemma isSetup_of_set_isSetup (h : nat) (s : State) (c : Channel) :
  channels s !! h = Some c → isSetup_of h (set_isSetup h s) = true.
Proof.
  intros Hc. unfold set_isSetup, isSetup_of. rewrite Hc. simpl.
  by rewrite list_lookup_insert_eq by (by eapply lookup_lt_Some).
Qed.

Lemma standing_run_listener (w : Window) (event : MessageEvent) (l : Listener)
    (s : State) :
  standing s → standing (run_listener w event l s).
Proof.
  intros Hs h c Hc Hf.
  destruct (channels_back w event l s h c Hc) as (c0 & Hc0 & Hw & _ & Hflag).
  assert (chan_isSetup c0 = false) as Hf0.
  { destruct (chan_isSetup c0); [|done]. rewrite Hflag in Hf; done. }
  pose proof (Hs h c0 Hc0 Hf0) as Hin. rewrite <- Hw in Hin.
  destruct (same_listener l (LSetup h None)) eqn:Hsame.
  2:{ apply run_listener_keeps; [done|]. simpl. intros [_ E]. congruence. }
  apply same_listener_standing in Hsame as ->. simpl in *.
  unfold onMessage in Hc |- *. rewrite Hc0 in Hc |- *.
  destruct (negb (bool_decide (event_origin event = location_origin w)));
    [done|].
  destruct (negb (bool_decide (channel (event_data event) = _))); [done|].
  destruct (truthy _); [|done]. exfalso. simpl in Hc.
  pose proof (isSetup_of_set_isSetup h s c0 Hc0) as Ht.
  unfold isSetup_of in Ht. rewrite Hc in Ht. congruence.
Qed.

Lemma standing_dispatchEvent (w : Window) (event : MessageEvent) (s : State) :
  standing s → standing (dispatchEvent w event s).
Proof.
  intros Hs. unfold dispatchEvent.
  apply (fold_left_invariant standing); [done|].
  intros x l Hx. unfold invoke. destruct (registered w l x); [|done].
  by apply standing_run_listener.
Qed.

Lemma standing_frame (s s' : State) :
  standing s → channels s' = channels s →
  (∀ e, e ∈ listeners s → e ∈ listeners s') → standing s'.
Proof.
  intros Hs Hc Hl h c Hh Hf. rewrite Hc in Hh. by apply Hl, Hs.
Qed.

Lemma standing_step (s : State) (a : Action) : standing s → standing (step s a).
Proof.
  intros Hs. destruct a as [w name|h cb|h m t|i|j|w ev]; simpl.
  - intros h c. simpl. intros Hc Hf.
    apply lookup_app_Some in Hc as [Hc|[Hlen Hc]].
    + apply elem_of_app. left. by apply Hs.
    + apply elem_of_app. right. apply list_elem_of_singleton.
      destruct (h - length (channels s)) as [|d] eqn:Hd; [|by destruct d].
      simpl in Hc. simplify_eq. simpl. f_equal. f_equal. lia.
  - apply (standing_frame s); [done|apply channels_handle|].
    intros e He. unfold handle. case_match; [|done].
    simpl. apply elem_of_app. by left.
  - apply (standing_frame s); [done|apply channels_request|].
    intros e He. unfold request, waitChildWindowSetup.
    repeat case_match; try done; simpl; apply elem_of_app; by left.
  - unfold deliver. repeat case_match; try done.
    apply standing_dispatchEvent. by apply (standing_frame s).
  - unfold settle. case_match; [|done].
    apply (standing_frame s); [done|by rewrite channels_run_job|].
    intros e He. by rewrite listeners_run_job.
  - by apply standing_dispatchEvent.
Qed.

Lemma standing_run (acts : list Action) : standing (run acts init).
Proof.
  unfold run. apply (fold_left_invariant standing).
  - intros h c Hc. simpl in Hc. by rewrite lookup_nil in Hc.
  - intros x a Hx. by apply standing_step.
Qed.

Lemma standing_sets_flag (w : Window) (h : nat) (c : Channel)
    (event : MessageEvent) (s : State) :
  standing s → channels s !! h = Some c → chan_window c = w →
  setup_announcement w (chan_name c) event →
  isSetup_of h (dispatchEvent w event s) = true.
Proof.
  intros Hs Hc Hw Ha.
  assert (∀ ls x,
            (∃ c', channels x !! h = Some c' ∧ chan_name c' = chan_name c) →
            isSetup_of h x = true ∨
              ((w, LSetup h None) ∈ listeners x ∧ LSetup h None ∈ ls) →
            isSetup_of h (fold_left (invoke w event) ls x) = true) as Hfold.
  { induction ls as [|l ls IH]; intros x Hcx Hx; simpl.
    { destruct Hx as [Hx|[_ Hx]]; [done|]. by apply elem_of_nil in Hx. }
    destruct Hcx as (c' & Hc' & Hn).
    apply IH.
    { destruct (channels_grow_invoke w event x l h c' Hc')
        as (c2 & Hc2 & _ & Hn2 & _).
      exists c2. split; [done|congruence]. }
    destruct Hx as [Hx|[Hin Hl]].
    { left. eapply isSetup_of_grow; [apply channels_grow_invoke|done]. }
    unfold invoke.
    destruct (same_listener l (LSetup h None)) eqn:Hsame.
    - apply same_listener_standing in Hsame as ->. left.
      rewrite registered_elem_of by done. simpl.
      rewrite (onMessage_announced w h None event x c' Hc')
        by (by rewrite Hn).
      simpl. unfold isSetup_of. simpl.
      by apply (isSetup_of_set_isSetup h x c').
    - right. split.
      + destruct (registered w l x); [|done].
        apply run_listener_keeps; [done|]. simpl. intros [_ E]. congruence.
      + apply elem_of_cons in Hl as [<-|Hl]; [|done].
        by rewrite same_listener_refl in Hsame. }
  apply Hfold; [by exists c|].
  destruct (chan_isSetup c) eqn:Hf.
  - left. by rewrite (isSetup_of_lookup h s c).
  - right. pose proof (Hs h c Hc Hf) as Hin. rewrite Hw in Hin.
    split; [done|]. by apply elem_of_listeners_of.
Qed.

(** X5: along every execution, a same-origin setup announcement on the request
    topic of a channel, reaching the window the channel was created in, sets
    the channel's flag: the listener subscribed by [createChannel] is still
    there whenever the flag is false. *)
Theorem announcement_sets_flag (acts : list Action) (h : nat) (c : Channel)
    (event : MessageEvent) :
  let s := run acts init in
  channels s !! h = Some c →
  setup_announcement (chan_window c) (chan_name c) event →
  isSetup_of h (dispatchEvent (chan_window c) event s) = true.
Proof.
  intros s Hc Ha.
  by apply (standing_sets_flag _ h c event s (standing_run acts)).
Qed.


(** *** What is handed to the transport *)

(** The three shapes of envelope the library posts. *)
Definition is_setup_envelope (m : ChannelMsg) : Prop :=
  ∃ n, channel m = requestChannel n ∧ success m = true ∧
       isSetup m = Some true ∧ data m = VUndefined ∧ error m = None.

Definition is_request_envelope (m : ChannelMsg) : Prop :=
  ∃ n, channel m = requestChannel n ∧ success m = true ∧
       isSetup m = None ∧ error m = None.

Definition is_response_envelope (m : ChannelMsg) : Prop :=
  ∃ n, channel m = responseChannel n ∧ isSetup m = None ∧
       ((success m = true ∧ error m = None) ∨
        (success m = false ∧ data m = VUndefined ∧ error m ≠ None)).

(** How each shape is addressed: a request to any origin, a setup
    announcement to the parent and to the sender's origin only, a response
    to the responder's own origin only. *)
Definition post_ok (p : Post) : Prop :=
  match post_targetOrigin p with
  | AnyOrigin => is_request_envelope (post_msg p)
  | SenderOrigin =>
      is_setup_envelope (post_msg p) ∧ post_target p = parent (post_sender p)
  | ExactOrigin o =>
      is_response_envelope (post_msg p) ∧ o = location_origin (post_sender p)
  end.

(** A pending callback promise was left by a same-origin event and answers
    on a response topic. *)
Definition job_ok (j : Job) : Prop :=
  event_origin (job_event j) = location_origin (job_window j) ∧
  ∃ n, job_responseChannel j = responseChannel n.

Definition transport_ok (s : State) : Prop :=
  Forall post_ok (inflight s) ∧ Forall job_ok (jobs s).

Lemma transport_ok_same (s s' : State) :
  transport_ok s → inflight s' = inflight s → jobs s' = jobs s →
  transport_ok s'.
Proof. unfold transport_ok. by intros Hs -> ->. Qed.

Lemma transport_ok_run_listener (w : Window) (event : MessageEvent)
    (l : Listener) (s : State) :
  topic_ok l → transport_ok s → transport_ok (run_listener w event l s).
Proof.
  intros Hl [Hp Hj]. destruct l as [h waiter|k cb req res|r res]; simpl.
  - unfold onMessage. repeat case_match; try done.
    destruct waiter as [c0|]; simpl.
    + split; simpl; rewrite ?inflight_set_isSetup, ?jobs_set_isSetup; [|done].
      apply Forall_app. split; [done|]. apply Forall_singleton.
      destruct Hl as (n & Hreq & _). by exists n.
    + split; simpl; by rewrite ?inflight_set_isSetup, ?jobs_set_isSetup.
  - unfold handle_messageHandler.
    destruct (bool_decide (event_origin event = location_origin w)) eqn:Ho;
      simpl; [|done].
    repeat case_match; try done. split; simpl; [done|].
    apply Forall_app. split; [done|]. apply Forall_singleton.
    apply bool_decide_eq_true_1 in Ho. split; [done|].
    destruct Hl as (n & _ & ->). by exists n.
  - apply (transport_ok_same s); [done| |].
    + unfold request_messageHandler. repeat case_match; try done; simpl;
        unfold resolve, reject; by rewrite inflight_settle_promise.
    + unfold request_messageHandler. repeat case_match; try done; simpl;
        unfold resolve, reject; by rewrite jobs_settle_promise.
Qed.

Lemma transport_ok_dispatchEvent (w : Window) (event : MessageEvent) (s : State) :
  topics_ok s → transport_ok s → transport_ok (dispatchEvent w event s).
Proof.
  intros Ht Hs. unfold dispatchEvent.
  apply (fold_left_invariant_in transport_ok); [done|].
  intros x l Hl%elem_of_listeners_of Hx. unfold invoke.
  destruct (registered w l x); [|done].
  apply transport_ok_run_listener; [|done]. by eapply Ht.
Qed.

Lemma response_envelope_shape (n : string) (o : Settled) :
  is_response_envelope (response_envelope (responseChannel n) o).
Proof.
  exists n. destruct o as [v|err]; simpl; split; try done; split; try done.
  - by left.
  - right. by repeat split.
Qed.

Lemma transport_ok_step (s : State) (a : Action) :
  topics_ok s → transport_ok s → transport_ok (step s a).
Proof.
  intros Ht [Hp Hj]. destruct a as [w name|h cb|h m t|i|j|w ev]; simpl.
  - done.
  - unfold handle. case_match; [|done]. split; simpl; [|done].
    apply Forall_app. split; [done|]. apply Forall_singleton.
    split; [|done]. by eexists.
  - unfold request, waitChildWindowSetup. case_match; [|done].
    case_match; [|done]. split; simpl; [|done].
    apply Forall_app. split; [done|]. apply Forall_singleton. by eexists.
  - unfold deliver. destruct (inflight s !! i) as [p|]; [|done].
    assert (transport_ok (set_inflight (delete i (inflight s)) s)) as Hs'.
    { split; simpl; [|done]. by apply Forall_delete. }
    destruct (origin_allows _ _ _); [|done].
    by apply transport_ok_dispatchEvent.
  - unfold settle. destruct (jobs s !! j) as [jb|] eqn:Hjb; [|done].
    destruct (Forall_lookup_1 _ _ _ _ Hj Hjb) as (Ho & n & Hn).
    assert (Forall job_ok (delete j (jobs s))) as Hj' by (by apply Forall_delete).
    unfold run_job, handle_then, handle_catch, source_postMessage.
    destruct (job_result jb) as [v|err];
      (destruct (event_source (job_event jb)) as [src|]; [|done]);
      (split; simpl; [|done]);
      (apply Forall_app; split; [done|]); apply Forall_singleton;
      (split; [|done]); rewrite Hn.
    + apply (response_envelope_shape n (Fulfilled v)).
    + apply (response_envelope_shape n (Rejected err)).
  - by apply transport_ok_dispatchEvent.
Qed.

Lemma transport_ok_run (acts : list Action) : transport_ok (run acts init).
Proof.
  assert (topics_ok (run acts init) ∧ transport_ok (run acts init)) as [_ H];
    [|done].
  unfold run. apply (fold_left_invariant (λ x, topics_ok x ∧ transport_ok x)).
  - split; [|by split]. intros w l Hin. by apply elem_of_nil in Hin.
  - intros x a [Ht Hx]. split; [by apply topics_ok_step|].
    by apply transport_ok_step.
Qed.

(** X9: along every execution, whatever envelopes arrive, every envelope the
    library has handed to the transport is a request posted to any origin, a
    setup announcement posted to the sender's parent and restricted to the
    sender's own origin, or a success or error response restricted to the
    responder's own origin. *)
Theorem posts_keep_shape (acts : list Action) (p : Post) :
  p ∈ inflight (run acts init) → post_ok p.
Proof.
  intros Hin. destruct (transport_ok_run acts) as [Hp _].
  by eapply Forall_forall in Hp.
Qed.

(** *** Subscriptions of request calls *)

Lemma NoDup_omap_filter {A B : Type} (f : A → option B) (P : A → Prop)
    `{!∀ x, Decision (P x)} (l : list A) :
  NoDup (omap f l) → NoDup (omap f (filter P l)).
Proof.
  induction l as [|a l IH]; [done|]. rewrite filter_cons. simpl.
  destruct (f a) as [b|] eqn:E.
  - intros [Hb Hl]%NoDup_cons. destruct (decide (P a)); [|by apply IH].
    simpl. rewrite E. apply NoDup_cons. split; [|by apply IH].
    rewrite list_elem_of_omap. intros (x & [_ Hx]%list_elem_of_filter & Hfx).
    apply Hb, list_elem_of_omap. by exists x.
  - intros Hl. destruct (decide (P a)); [|by apply IH].
    simpl. rewrite E. by apply IH.
Qed.

Lemma omap_unique {A B : Type} (f : A → option B) (l : list A) (x y : A)
    (b : B) :
  NoDup (omap f l) → x ∈ l → y ∈ l → f x = Some b → f y = Some b → x = y.
Proof.
  induction l as [|a l IH]; intros Hnd Hx Hy Hfx Hfy.
  { by apply elem_of_nil in Hx. }
  simpl in Hnd. apply elem_of_cons in Hx, Hy.
  destruct (f a) as [b'|] eqn:E.
  - apply NoDup_cons in Hnd as [Hb Hl].
    destruct Hx as [->|Hx], Hy as [->|Hy]; [done| | |by apply IH].
    + exfalso. apply Hb, list_elem_of_omap. exists y. split; [done|congruence].
    + exfalso. apply Hb, list_elem_of_omap. exists x. split; [done|congruence].
  - destruct Hx as [->|Hx]; [congruence|].
    destruct Hy as [->|Hy]; [congruence|]. by apply IH.
Qed.

(** *** Which callbacks an event invokes *)

(** The invocations an event with payload [v] on topic [topic] causes among
    the listeners [ls]: one for each [handle] listener on that topic, in
    order. *)
Definition handle_calls (topic : string) (v : value) (ls : list Listener)
    : list (nat * value) :=
  omap (λ l, match l with
             | LHandle k _ req _ =>
                 if bool_decide (req = topic) then Some (k, v) else None
             | _ => None
             end) ls.

(** None at all for an event of another origin or a setup announcement. *)
Definition invoked (w : Window) (event : MessageEvent) (ls : list Listener)
    : list (nat * value) :=
  if bool_decide (event_origin event = location_origin w)
     && negb (truthy (isSetup (event_data event)))
  then handle_calls (channel (event_data event)) (data (event_data event)) ls
  else [].







End Protocol.

(** * The library with its exceptions and with opaque origins

    The development above runs the library on plain data, on rejection
    reasons that are objects and between windows whose origin is the origin
    of their URL: there [JSON.stringify], which the log lines of the source
    evaluate on every envelope, returns, [err.message] can be read, and the
    origin stamped on an event is the sender's [window.location.origin].
    This module embeds the same functions of [src/index.ts] without those
    restrictions.  Payloads include the structured-cloneable values
    [JSON.stringify] throws on (a [BigInt], an object that contains itself),
    the callback's promise may reject with [null] or [undefined], a window
    may have an opaque origin, and every function that can end in an
    exception says so in its result:
    - [request]: [JSON.stringify(msg)] is evaluated inside the promise
      executor, after [addEventListener] and before [postMessage]; when it
      throws, the promise is rejected with the exception and nothing is
      posted;
    - [messageHandler] of [handle]: [JSON.stringify(channelMsg)] is evaluated
      before the callback is called;
    - its [.then] branch: [JSON.stringify(msg)] is evaluated after the post,
      and an exception there is what the chained [.catch] receives;
    - its [.catch] branch: [err.message] is read first, and throws on [null]
      and [undefined];
    - both branches: [postMessage] throws on the target origin ["null"];
    - [messageHandler] of [request]: [JSON.stringify(channelMsg)] is
      evaluated before the promise is settled and the listener removed.

    An exception that leaves a listener or a promise reaction is reported by
    the browser and changes nothing else.  The payloads are
    structured-cloneable, so [postMessage] does not throw on them. *)

Module Full.

(** ** Data crossing the transport *)

(** Structured-cloneable payloads.  [VCircular id] stands for an object that
    contains itself, [id] telling such objects apart. *)
Inductive value : Type :=
| VUndefined
| VNull
| VBool (b : bool)
| VNum (n : Z)
| VStr (s : string)
| VBigInt (n : Z)
| VCircular (id : nat)
| VArr (items : list value)
| VObj (fields : list (string * value)).

(** Whether [JSON.stringify(v)] returns: it throws a [TypeError] on a
    [BigInt] and on a circular structure, wherever they occur in [v]. *)
Fixpoint stringifiable (v : value) : bool :=
  match v with
  | VBigInt _ | VCircular _ => false
  | VArr items => forallb stringifiable items
  | VObj fields => forallb (fun f => let '(_, x) := f in stringifiable x) fields
  | _ => true
  end.

(** [ChannelMsg<T>], the envelope. *)
Record ChannelMsg := {
  success : bool;
  channel : string;
  isSetup : option bool;
  data : value;
  error : option ErrorDetail
}.

(** [JSON.stringify] of an envelope: the other fields are booleans and
    strings. *)
Definition stringifiable_msg (m : ChannelMsg) : bool := stringifiable (data m).

Record MessageEvent := {
  event_origin : string;
  event_source : option Window;
  event_data : ChannelMsg
}.

Record Post := {
  post_target : Window;
  post_sender : Window;
  post_msg : ChannelMsg;
  post_targetOrigin : TargetOrigin
}.

(** ** Exceptions *)

(** The exceptions of the library's own code: the [TypeError] of
    [JSON.stringify] on a value it cannot serialize, the [TypeError] of
    reading a property of [null] or [undefined], and the [SyntaxError] of
    [postMessage] on a target origin that is no URL. *)
Inductive Exn :=
| NotStringifiable (v : value)
| NoProperties
| BadTargetOrigin (o : string).

(** ** Promises *)

(** How the promise returned by the responder's callback settles.  The
    reason of a rejection is any value: an object, read through [err.message]
    and [err.stack], or [null] / [undefined] ([RejectedNullish]). *)
Inductive Settled :=
| Fulfilled (res : value)
| Rejected (err : JsError)
| RejectedNullish.

Definition Callback := value -> Settled.

(** The promise returned by a [request] call.  [reject] is called with a
    string; an exception thrown inside the executor rejects the promise with
    the exception itself ([RejectedBy]). *)
Inductive PromiseState :=
| Pending
| Resolved (v : value)
| RejectedWith (reason : string)
| RejectedBy (e : Exn).

(** ** Closures *)

Record RequestCall := {
  call_promise : nat;
  call_message : value;
  call_windowObj : Window;
  call_responseChannel : string;
  call_requestChannel : string
}.

Inductive Listener :=
| LSetup (h : nat) (waiter : option RequestCall)
| LHandle (k : nat) (callback : Callback) (requestChannel responseChannel : string)
| LRequest (r : nat) (responseChannel : string).

Definition same_listener (a b : Listener) : bool :=
  match a, b with
  | LSetup h None, LSetup h' None => bool_decide (h = h')
  | LSetup _ (Some c), LSetup _ (Some c') =>
      bool_decide (call_promise c = call_promise c')
  | LHandle k _ _ _, LHandle k' _ _ _ => bool_decide (k = k')
  | LRequest r _, LRequest r' _ => bool_decide (r = r')
  | _, _ => false
  end.

Record Job := {
  job_window : Window;
  job_event : MessageEvent;
  job_responseChannel : string;
  job_result : Settled
}.

(** ** State *)

Record State := mkState {
  channels : list Channel;
  listeners : list (Window * Listener);
  promises : list PromiseState;
  handlers : nat;
  calls : list (nat * value);
  jobs : list Job;
  inflight : list Post
}.

Definition init : State := mkState [] [] [] 0 [] [] [].

Definition set_channels (x : list Channel) (s : State) : State :=
  mkState x (listeners s) (promises s) (handlers s) (calls s) (jobs s) (inflight s).
Definition set_listeners (x : list (Window * Listener)) (s : State) : State :=
  mkState (channels s) x (promises s) (handlers s) (calls s) (jobs s) (inflight s).
Definition set_promises (x : list PromiseState) (s : State) : State :=
  mkState (channels s) (listeners s) x (handlers s) (calls s) (jobs s) (inflight s).
Definition set_handlers (x : nat) (s : State) : State :=
  mkState (channels s) (listeners s) (promises s) x (calls s) (jobs s) (inflight s).
Definition set_calls (x : list (nat * value)) (s : State) : State :=
  mkState (channels s) (listeners s) (promises s) (handlers s) x (jobs s) (inflight s).
Definition set_jobs (x : list Job) (s : State) : State :=
  mkState (channels s) (listeners s) (promises s) (handlers s) (calls s) x (inflight s).
Definition set_inflight (x : list Post) (s : State) : State :=
  mkState (channels s) (listeners s) (promises s) (handlers s) (calls s) (jobs s) x.

(** How a listener or a promise reaction ends: it returns, or it throws. *)
Inductive Completion :=
| Returns (s : State)
| Throws (e : Exn) (s : State).

(** The state it leaves either way. *)
Definition state_of (c : Completion) : State :=
  match c with
  | Returns s => s
  | Throws _ s => s
  end.

Coercion state_of : Completion >-> State.

(** ** Browser primitives *)

Definition addEventListener (w : Window) (l : Listener) (s : State) : State :=
  set_listeners (listeners s ++ [(w, l)]) s.

Definition removeEventListener (w : Window) (l : Listener) (s : State) : State :=
  set_listeners
    (filter (fun e => ¬ (e.1 = w ∧ same_listener l e.2 = true)) (listeners s)) s.

Definition postMessage (target w : Window) (m : ChannelMsg) (o : TargetOrigin)
    (s : State) : State :=
  set_inflight (inflight s ++ [Build_Post target w m o]) s.

Definition settle_promise (r : nat) (x : PromiseState) (s : State) : State :=
  match promises s !! r with
  | Some Pending => set_promises (<[r := x]> (promises s)) s
  | _ => s
  end.

Definition resolve (r : nat) (v : value) : State -> State :=
  settle_promise r (Resolved v).
Definition reject (r : nat) (reason : string) : State -> State :=
  settle_promise r (RejectedWith reason).

(** ** The library *)

Definition set_isSetup (h : nat) (s : State) : State :=
  match channels s !! h with
  | Some c =>
      set_channels
        (<[h := Build_Channel (chan_window c) (chan_name c) true]> (channels s)) s
  | None => s
  end.

Definition isSetup_of (h : nat) (s : State) : bool :=
  match channels s !! h with
  | Some c => chan_isSetup c
  | None => false
  end.

Section Protocol.

(** What the browser gives:
    - [location_origin w] is [window.location.origin] in [w], the origin of
      the window's URL;
    - [opaque_origin w] says that the origin of the window itself is opaque,
      as it is in a sandboxed frame whatever its URL: what such a window
      sends is stamped with the origin ["null"], and no target origin other
      than ["*"] matches it;
    - [parent w] is [window.parent] (a top-level window is its own parent);
    - [type_error e] is the error object the engine makes of an exception
      (its message and stack are the engine's own text). *)
Context (location_origin : Window -> string) (opaque_origin : Window -> bool)
        (parent : Window -> Window) (type_error : Exn -> JsError).

(** [request], from the [new Promise] on: the body of the executor.  An
    exception inside it rejects the promise. *)
Definition request_send (w : Window) (c : RequestCall) (s : State) : State :=
  let s := addEventListener w
             (LRequest (call_promise c) (call_responseChannel c)) s in
  let msg := {| channel := call_requestChannel c; success := true;
                isSetup := None; data := call_message c; error := None |} in
  if stringifiable_msg msg
  then postMessage (call_windowObj c) w msg AnyOrigin s
  else settle_promise (call_promise c)
         (RejectedBy (NotStringifiable (data msg))) s.

Definition resume (w : Window) (waiter : option RequestCall) (s : State) : State :=
  match waiter with
  | Some c => request_send w c s
  | None => s
  end.

(** [onMessage] of [processSetupMsg], running in window [w].  Its log line
    prints a constant. *)
Definition onMessage (w : Window) (h : nat) (waiter : option RequestCall)
    (event : MessageEvent) (s : State) : State :=
  match channels s !! h with
  | None => s
  | Some c =>
      if negb (bool_decide (event_origin event = location_origin w)) then s
      else
        let channelMsg := event_data event in
        if negb (bool_decide (channel channelMsg = requestChannel (chan_name c)))
        then s
        else if truthy (isSetup channelMsg) then
          let s := set_isSetup h s in
          let s := removeEventListener w (LSetup h waiter) s in
          resume w waiter s
        else s
  end.

Definition processSetupMsg (w : Window) (h : nat) (waiter : option RequestCall)
    (s : State) : State :=
  addEventListener w (LSetup h waiter) s.

Definition createChannel (w : Window) (name : string) (s : State) : State :=
  let h := length (channels s) in
  let s := set_channels (channels s ++ [Build_Channel w name false]) s in
  processSetupMsg w h None s.

Definition waitChildWindowSetup (w : Window) (h : nat) (c : RequestCall)
    (s : State) : State :=
  if isSetup_of h s then request_send w c s
  else processSetupMsg w h (Some c) s.

Definition request (h : nat) (message : value) (windowObj : option Window)
    (s : State) : State :=
  match channels s !! h with
  | None => s
  | Some c =>
      let w := chan_window c in
      let r := length (promises s) in
      let s := set_promises (promises s ++ [Pending]) s in
      let call := {| call_promise := r; call_message := message;
                     call_windowObj := default w windowObj;
                     call_responseChannel := responseChannel (chan_name c);
                     call_requestChannel := requestChannel (chan_name c) |} in
      waitChildWindowSetup w h call s
  end.

(** [event.source?.postMessage(m, { targetOrigin: event.origin })]: nothing
    is called when the event has no source; [postMessage] throws when the
    target origin is ["null"], the one origin an event can carry that is no
    URL. *)
Definition source_postMessage (w : Window) (event : MessageEvent)
    (m : ChannelMsg) (s : State) : Completion :=
  match event_source event with
  | Some src =>
      if bool_decide (event_origin event = "null")
      then Throws (BadTargetOrigin (event_origin event)) s
      else Returns (postMessage src w m (ExactOrigin (event_origin event)) s)
  | None => Returns s
  end.

(** The [.catch] branch of [handle]'s [messageHandler]; [err] is [None] for
    [null] and [undefined].  Its log line prints [errMsg], whose [data] is
    [undefined]. *)
Definition handle_catch (w : Window) (event : MessageEvent)
    (responseChannel : string) (err : option JsError) (s : State) : Completion :=
  match err with
  | None => Throws NoProperties s
  | Some err =>
      let errMsg := {| channel := responseChannel; success := false;
                       isSetup := None; data := VUndefined;
                       error := Some {| msg := message err;
                                        stack := default "" (err_stack err) |} |} in
      source_postMessage w event errMsg s
  end.

(** The [.then] branch of [handle]'s [messageHandler]: the response is
    posted, then printed. *)
Definition handle_then (w : Window) (event : MessageEvent)
    (responseChannel : string) (res : value) (s : State) : Completion :=
  let msg := {| channel := responseChannel; success := true; isSetup := None;
                data := res; error := None |} in
  match source_postMessage w event msg s with
  | Throws e s => Throws e s
  | Returns s =>
      if stringifiable_msg msg then Returns s
      else Throws (NotStringifiable (data msg)) s
  end.

(** [messageHandler] of [handle], running in window [w]. *)
Definition handle_messageHandler (w : Window) (k : nat) (callback : Callback)
    (requestChannel responseChannel : string) (event : MessageEvent)
    (s : State) : Completion :=
  if negb (bool_decide (event_origin event = location_origin w)) then Returns s
  else
    let channelMsg := event_data event in
    if negb (bool_decide (channel channelMsg = requestChannel)) then Returns s
    else if truthy (isSetup channelMsg) then Returns s
    else if negb (stringifiable_msg channelMsg)
    then Throws (NotStringifiable (data channelMsg)) s
    else
      let s := set_calls (calls s ++ [(k, data channelMsg)]) s in
      Returns (set_jobs (jobs s ++ [Build_Job w event responseChannel
                                      (callback (data channelMsg))]) s).

(** [channel.handle(callback)] on channel [h].  Its log line prints
    [setupMsg], whose [data] is [undefined]. *)
Definition handle (h : nat) (callback : Callback) (s : State) : State :=
  match channels s !! h with
  | None => s
  | Some c =>
      let w := chan_window c in
      let setupMsg := {| channel := requestChannel (chan_name c);
                         success := true; isSetup := Some true;
                         data := VUndefined; error := None |} in
      let s := postMessage (parent w) w setupMsg SenderOrigin s in
      let k := handlers s in
      let s := set_handlers (S k) s in
      addEventListener w
        (LHandle k callback (requestChannel (chan_name c))
           (responseChannel (chan_name c))) s
  end.

(** [channelMsg.error?.msg || "Unknown error"]. *)
Definition reject_reason (channelMsg : ChannelMsg) : string :=
  match error channelMsg with
  | Some e =>
      match msg e with
      | Some m => if bool_decide (m = "") then "Unknown error" else m
      | None => "Unknown error"
      end
  | None => "Unknown error"
  end.

(** [messageHandler] of [request], running in window [w]. *)
Definition request_messageHandler (w : Window) (r : nat)
    (responseChannel : string) (event : MessageEvent) (s : State) : Completion :=
  if negb (bool_decide (event_origin event = location_origin w)) then Returns s
  else
    let channelMsg := event_data event in
    if negb (bool_decide (channel channelMsg = responseChannel)) then Returns s
    else if negb (stringifiable_msg channelMsg)
    then Throws (NotStringifiable (data channelMsg)) s
    else
      let s := if success channelMsg then resolve r (data channelMsg) s
               else reject r (reject_reason channelMsg) s in
      Returns (removeEventListener w (LRequest r responseChannel) s).

(** ** Event dispatch and the transport *)

Definition call_listener (w : Window) (event : MessageEvent) (l : Listener)
    (s : State) : Completion :=
  match l with
  | LSetup h waiter => Returns (onMessage w h waiter event s)
  | LHandle k callback req res =>
      handle_messageHandler w k callback req res event s
  | LRequest r res => request_messageHandler w r res event s
  end.

(** The state a listener leaves, however it ends. *)
Definition run_listener (w : Window) (event : MessageEvent) (l : Listener)
    (s : State) : State :=
  state_of (call_listener w event l s).

Definition registered (w : Window) (l : Listener) (s : State) : bool :=
  existsb (fun e => bool_decide (e.1 = w) && same_listener l e.2) (listeners s).

Definition listeners_of (w : Window) (s : State) : list Listener :=
  (filter (fun e => e.1 = w) (listeners s)).*2.

Definition invoke (w : Window) (event : MessageEvent) (s : State)
    (l : Listener) : State :=
  if registered w l s then run_listener w event l s else s.

Definition dispatchEvent (w : Window) (event : MessageEvent) (s : State) : State :=
  fold_left (invoke w event) (listeners_of w s) s.

(** The origin the browser stamps on what window [w] sends: the origin of
    the window, serialized. *)
Definition stamped_origin (w : Window) : string :=
  if opaque_origin w then "null" else location_origin w.

(** Two windows have the same origin: an opaque origin is the origin of one
    window only. *)
Definition same_origin (a b : Window) : bool :=
  if opaque_origin a || opaque_origin b then bool_decide (a = b)
  else bool_decide (location_origin a = location_origin b).

(** Whether the transport hands a message to its target: always for ["*"];
    for the default, when the target has the sender's origin; for an
    explicit origin, when it is the target's. *)
Definition origin_allows (o : TargetOrigin) (sender target : Window) : bool :=
  match o with
  | AnyOrigin => true
  | SenderOrigin => same_origin sender target
  | ExactOrigin x =>
      negb (opaque_origin target) && bool_decide (x = location_origin target)
  end.

(** The event a post becomes at its target. *)
Definition event_of (p : Post) : MessageEvent :=
  {| event_origin := stamped_origin (post_sender p);
     event_source := Some (post_sender p);
     event_data := post_msg p |}.

Definition deliver (i : nat) (s : State) : State :=
  match inflight s !! i with
  | None => s
  | Some p =>
      let s := set_inflight (delete i (inflight s)) s in
      if origin_allows (post_targetOrigin p) (post_sender p) (post_target p)
      then dispatchEvent (post_target p) (event_of p) s
      else s
  end.

(** [callback(channelMsg.data).then(...).catch(...)] once the callback's
    promise has settled: the [.catch] also receives what the [.then] branch
    throws. *)
Definition run_job (j : Job) (s : State) : Completion :=
  let w := job_window j in
  let event := job_event j in
  let res := job_responseChannel j in
  match job_result j with
  | Fulfilled v =>
      match handle_then w event res v s with
      | Returns s => Returns s
      | Throws e s => handle_catch w event res (Some (type_error e)) s
      end
  | Rejected err => handle_catch w event res (Some err) s
  | RejectedNullish => handle_catch w event res None s
  end.

(** The [j]-th pending callback promise settles. *)
Definition settle (j : nat) (s : State) : State :=
  match jobs s !! j with
  | None => s
  | Some jb => state_of (run_job jb (set_jobs (delete j (jobs s)) s))
  end.

(** ** Executions *)

Inductive Action :=
| ACreateChannel (w : Window) (name : string)
| AHandle (h : nat) (callback : Callback)
| ARequest (h : nat) (message : value) (windowObj : option Window)
| ADeliver (i : nat)
| ASettle (j : nat)
| ADispatch (w : Window) (event : MessageEvent).

Definition step (s : State) (a : Action) : State :=
  match a with
  | ACreateChannel w name => createChannel w name s
  | AHandle h callback => handle h callback s
  | ARequest h message windowObj => request h message windowObj s
  | ADeliver i => deliver i s
  | ASettle j => settle j s
  | ADispatch w event => dispatchEvent w event s
  end.

Definition run (acts : list Action) (s : State) : State :=
  fold_left step acts s.

(** * Properties *)

(** ** General facts *)


(** *** The setup flag *)

(** A same-origin setup announcement for channel name [name], as seen from
    window [w]. *)
Definition setup_announcement (w : Window) (name : string) (event : MessageEvent) : Prop :=
  event_origin event = location_origin w ∧
  channel (event_data event) = requestChannel name ∧
  isSetup (event_data event) = Some true.

Lemma onMessage_announced' (w : Window) (h : nat) (waiter : option RequestCall)
    (event : MessageEvent) (s : State) (c : Channel) :
  channels s !! h = Some c →
  setup_announcement w (chan_name c) event →
  onMessage w h waiter event s =
    resume w waiter (removeEventListener w (LSetup h waiter) (set_isSetup h s)).
Proof.
  intros Hc (Ho & Hch & Hs). unfold onMessage. rewrite Hc.
  rewrite !bool_decide_eq_true_2 by done. simpl.
  by rewrite Hs.
Qed.


Definition chan_le (c c' : Channel) : Prop :=
  chan_window c' = chan_window c ∧ chan_name c' = chan_name c ∧
  (chan_isSetup c = true → chan_isSetup c' = true).

(** Channels are never dropped, moved or renamed, and a flag that is set
    stays set. *)
Definition channels_grow (s s' : State) : Prop :=
  ∀ h c, channels s !! h = Some c →
    ∃ c', channels s' !! h = Some c' ∧ chan_le c c'.

Lemma chan_le_refl' (c : Channel) : chan_le c c.
Proof. by repeat split. Qed.

Lemma channels_grow_same' (s s' : State) :
  channels s' = channels s → channels_grow s s'.
Proof. intros E h c Hc. exists c. rewrite E. split; [done|apply chan_le_refl']. Qed.

Lemma channels_grow_refl' (s : State) : channels_grow s s.
Proof. by apply channels_grow_same'. Qed.

Lemma channels_grow_trans' (s1 s2 s3 : State) :
  channels_grow s1 s2 → channels_grow s2 s3 → channels_grow s1 s3.
Proof.
  intros H12 H23 h c Hc.
  destruct (H12 h c Hc) as (c2 & Hc2 & (?&?&?)).
  destruct (H23 h c2 Hc2) as (c3 & Hc3 & (?&?&?)).
  exists c3. split; [done|]. repeat split; [congruence..|auto].
Qed.

Lemma channels_grow_set_isSetup' (h : nat) (s : State) :
  channels_grow s (set_isSetup h s).
Proof.
  unfold set_isSetup. destruct (channels s !! h) as [c|] eqn:Hc;
    [|apply channels_grow_refl'].
  intros h' c' Hc'. simpl. destruct (decide (h' = h)) as [->|Hne].
  - rewrite list_lookup_insert_eq by (by eapply lookup_lt_Some).
    eexists. split; [done|]. rewrite Hc in Hc'. by simplify_eq.
  - rewrite list_lookup_insert_ne by done. exists c'.
    split; [done|apply chan_le_refl'].
Qed.

Lemma channels_settle_promise' (r : nat) (x : PromiseState) (s : State) :
  channels (settle_promise r x s) = channels s.
Proof. unfold settle_promise. by destruct (promises s !! r) as [[]|]. Qed.

Lemma channels_request_send' (w : Window) (c : RequestCall) (s : State) :
  channels (request_send w c s) = channels s.
Proof.
  unfold request_send. case_match; [done|].
  by rewrite channels_settle_promise'.
Qed.

Lemma channels_resume' (w : Window) (waiter : option RequestCall) (s : State) :
  channels (resume w waiter s) = channels s.
Proof. destruct waiter; [apply channels_request_send'|done]. Qed.

Lemma channels_handle_messageHandler' (w : Window) (k : nat) (cb : Callback)
    (req res : string) (event : MessageEvent) (s : State) :
  channels (handle_messageHandler w k cb req res event s) = channels s.
Proof. unfold handle_messageHandler. by repeat case_match. Qed.

Lemma channels_request_messageHandler' (w : Window) (r : nat) (res : string)
    (event : MessageEvent) (s : State) :
  channels (request_messageHandler w r res event s) = channels s.
Proof.
  unfold request_messageHandler.
  repeat case_match; try done; simpl; unfold resolve, reject;
    by rewrite channels_settle_promise'.
Qed.

Lemma channels_handle' (h : nat) (cb : Callback) (s : State) :
  channels (handle h cb s) = channels s.
Proof. unfold handle. by case_match. Qed.

Lemma channels_request' (h : nat) (m : value) (t : option Window) (s : State) :
  channels (request h m t s) = channels s.
Proof.
  unfold request, waitChildWindowSetup.
  repeat case_match; by rewrite ?channels_request_send'.
Qed.

Lemma channels_grow_run_listener' (w : Window) (event : MessageEvent)
    (l : Listener) (s : State) :
  channels_grow s (run_listener w event l s).
Proof.
  destruct l as [h waiter|k cb req res|r res]; unfold run_listener; simpl.
  - unfold onMessage. destruct (channels s !! h); [|apply channels_grow_refl'].
    repeat (case_match; try apply channels_grow_refl').
    eapply channels_grow_trans'; [apply channels_grow_set_isSetup'|].
    apply channels_grow_same'. by rewrite channels_resume'.
  - apply channels_grow_same', channels_handle_messageHandler'.
  - apply channels_grow_same', channels_request_messageHandler'.
Qed.

Lemma channels_grow_invoke' (w : Window) (event : MessageEvent)
    (s : State) (l : Listener) :
  channels_grow s (invoke w event s l).
Proof.
  unfold invoke. destruct (registered w l s);
    [apply channels_grow_run_listener'|apply channels_grow_refl'].
Qed.

Lemma channels_grow_fold' (w : Window) (event : MessageEvent)
    (ls : list Listener) (s : State) :
  channels_grow s (fold_left (invoke w event) ls s).
Proof.
  apply (fold_left_invariant (channels_grow s));
    [apply channels_grow_refl'|].
  intros x l Hx. eapply channels_grow_trans'; [done|apply channels_grow_invoke'].
Qed.

Lemma channels_grow_dispatchEvent' (w : Window) (event : MessageEvent) (s : State) :
  channels_grow s (dispatchEvent w event s).
Proof. apply channels_grow_fold'. Qed.

Lemma channels_run_job' (j : Job) (s : State) :
  channels (run_job j s) = channels s.
Proof.
  unfold run_job, handle_then, handle_catch, source_postMessage.
  cbv zeta. repeat case_match; by simplify_eq.
Qed.

Lemma channels_grow_step' (s : State) (a : Action) : channels_grow s (step s a).
Proof.
  destruct a as [w name|h cb|h m t|i|j|w ev]; simpl.
  - intros h c Hc. exists c. split; [|apply chan_le_refl'].
    simpl. by apply lookup_app_l_Some.
  - apply channels_grow_same', channels_handle'.
  - apply channels_grow_same', channels_request'.
  - unfold deliver. repeat (case_match; try apply channels_grow_refl').
    + eapply channels_grow_trans'; [|apply channels_grow_dispatchEvent'].
      by apply channels_grow_same'.
    + by apply channels_grow_same'.
  - unfold settle. case_match; [|apply channels_grow_refl'].
    apply channels_grow_same'. by rewrite channels_run_job'.
  - apply channels_grow_dispatchEvent'.
Qed.

Lemma isSetup_of_channels' (h : nat) (s s' : State) :
  channels s' = channels s → isSetup_of h s' = isSetup_of h s.
Proof. unfold isSetup_of. by intros ->. Qed.

Lemma isSetup_of_lookup' (h : nat) (s : State) (c : Channel) :
  channels s !! h = Some c → isSetup_of h s = chan_isSetup c.
Proof. unfold isSetup_of. by intros ->. Qed.

Lemma isSetup_of_true' (h : nat) (s : State) :
  isSetup_of h s = true ↔ ∃ c, channels s !! h = Some c ∧ chan_isSetup c = true.
Proof.
  unfold isSetup_of. destruct (channels s !! h) as [c|].
  - split; [by exists c|]. by intros (c' & [= <-] & Hf).
  - split; [done|]. by intros (c' & [=] & _).
Qed.

Lemma isSetup_of_grow' (h : nat) (s s' : State) :
  channels_grow s s' → isSetup_of h s = true → isSetup_of h s' = true.
Proof.
  intros Hg (c & Hc & Hf)%isSetup_of_true'.
  destruct (Hg h c Hc) as (c' & Hc' & _ & _ & Hflag).
  apply isSetup_of_true'. exists c'. auto.
Qed.

Lemma isSetup_of_set_isSetup_ne' (h h' : nat) (s : State) :
  h ≠ h' → isSetup_of h (set_isSetup h' s) = isSetup_of h s.
Proof.
  intros Hne. unfold set_isSetup. destruct (channels s !! h'); [|done].
  unfold isSetup_of. simpl. by rewrite list_lookup_insert_ne.
Qed.

(** A listener sets the flag of a channel only on a same-origin setup
    announcement on that channel's request topic, and only a setup listener
    of that channel does. *)
Lemma run_listener_sets_flag' (w : Window) (event : MessageEvent) (l : Listener)
    (s : State) (h : nat) (c : Channel) :
  channels s !! h = Some c → chan_isSetup c = false →
  isSetup_of h (run_listener w event l s) = true →
  setup_announcement w (chan_name c) event ∧ ∃ waiter, l = LSetup h waiter.
Proof.
  intros Hc Hf Hset.
  assert (Hs : isSetup_of h s = false) by (by rewrite (isSetup_of_lookup' h s c)).
  destruct l as [h' waiter|k cb req res|r res]; unfold run_listener in *; simpl in Hset.
  - unfold onMessage in Hset.
    destruct (channels s !! h') as [c'|] eqn:Hc'; [|congruence].
    destruct (bool_decide (event_origin event = location_origin w)) eqn:Ho;
      simpl in Hset; [|congruence].
    destruct (bool_decide (channel (event_data event) = _)) eqn:Hch;
      simpl in Hset; [|congruence].
    apply bool_decide_eq_true_1 in Ho, Hch.
    destruct (truthy _) eqn:Ht; [|congruence].
    rewrite (isSetup_of_channels' h (set_isSetup h' s)) in Hset
      by (by rewrite channels_resume').
    destruct (decide (h = h')) as [->|Hne].
    + rewrite Hc in Hc'. simplify_eq. apply truthy_true in Ht.
      split; [done|by exists waiter].
    + rewrite isSetup_of_set_isSetup_ne' in Hset by done. congruence.
  - rewrite (isSetup_of_channels' h s) in Hset
      by apply channels_handle_messageHandler'.
    congruence.
  - rewrite (isSetup_of_channels' h s) in Hset
      by apply channels_request_messageHandler'.
    congruence.
Qed.

Lemma fold_sets_flag' (w : Window) (event : MessageEvent) (ls : list Listener)
    (s : State) (h : nat) (c : Channel) :
  channels s !! h = Some c → chan_isSetup c = false →
  isSetup_of h (fold_left (invoke w event) ls s) = true →
  setup_announcement w (chan_name c) event ∧ ∃ waiter, LSetup h waiter ∈ ls.
Proof.
  revert s c. induction ls as [|l ls IH]; intros s c Hc Hf Hset; simpl in Hset.
  - rewrite (isSetup_of_lookup' h s c) in Hset by done. congruence.
  - destruct (isSetup_of h (invoke w event s l)) eqn:Hi.
    + unfold invoke in Hi. destruct (registered w l s).
      * destruct (run_listener_sets_flag' w event l s h c Hc Hf Hi)
          as [Ha [waiter ->]].
        split; [done|]. exists waiter. apply elem_of_cons. by left.
      * rewrite (isSetup_of_lookup' h s c) in Hi by done. congruence.
    + destruct (channels_grow_invoke' w event s l h c Hc) as (c1 & Hc1 & _ & Hn & _).
      rewrite <- Hn.
      destruct (IH (invoke w event s l) c1) as [Ha [waiter Hin]]; [done| |done|].
      { by rewrite (isSetup_of_lookup' h _ c1) in Hi. }
      split; [done|]. exists waiter. apply elem_of_cons. by right.
Qed.

Lemma dispatch_sets_flag' (w : Window) (event : MessageEvent)
    (s : State) (h : nat) (c : Channel) :
  channels s !! h = Some c → chan_isSetup c = false →
  isSetup_of h (dispatchEvent w event s) = true →
  setup_announcement w (chan_name c) event ∧
  ∃ waiter, (w, LSetup h waiter) ∈ listeners s.
Proof.
  intros Hc Hf Hset.
  destruct (fold_sets_flag' w event _ s h c Hc Hf Hset) as [Ha [waiter Hin]].
  split; [done|]. exists waiter. unfold listeners_of in Hin.
  apply list_elem_of_fmap in Hin as ([w' l'] & E & [Hw Hin]%list_elem_of_filter).
  simpl in *. by subst.
Qed.

(** The message event an action brings to a window, if any. *)
Definition arrival (a : Action) (s : State) : option (Window * MessageEvent) :=
  match a with
  | ADispatch w event => Some (w, event)
  | ADeliver i =>
      match inflight s !! i with
      | Some p =>
          if origin_allows (post_targetOrigin p) (post_sender p) (post_target p)
          then Some (post_target p, event_of p)
          else None
      | None => None
      end
  | _ => None
  end.

Lemma step_sets_flag' (s : State) (a : Action) (h : nat) (c : Channel) :
  channels s !! h = Some c → chan_isSetup c = false →
  isSetup_of h (step s a) = true →
  ∃ w event, arrival a s = Some (w, event) ∧
             setup_announcement w (chan_name c) event ∧
             ∃ waiter, (w, LSetup h waiter) ∈ listeners s.
Proof.
  intros Hc Hf Hset.
  assert (Hs : isSetup_of h s = false) by (by rewrite (isSetup_of_lookup' h s c)).
  destruct a as [w name|h' cb|h' m t|i|j|w ev]; simpl in *.
  - unfold isSetup_of in Hset. simpl in Hset.
    rewrite (lookup_app_l_Some _ _ _ _ Hc) in Hset. congruence.
  - rewrite (isSetup_of_channels' h s) in Hset by apply channels_handle'.
    congruence.
  - rewrite (isSetup_of_channels' h s) in Hset by apply channels_request'.
    congruence.
  - unfold deliver in Hset. destruct (inflight s !! i) as [p|]; [|congruence].
    destruct (origin_allows _ _ _).
    + eexists _, _. split; [done|].
      by apply (dispatch_sets_flag' _ _ _ h c) in Hset.
    + rewrite (isSetup_of_channels' h s) in Hset by done. congruence.
  - unfold settle in Hset. destruct (jobs s !! j); [|congruence].
    rewrite (isSetup_of_channels' h s) in Hset by (by rewrite channels_run_job').
    congruence.
  - eexists _, _. split; [done|]. by eapply dispatch_sets_flag'.
Qed.

Lemma run_keeps_flag' (acts : list Action) (s : State) (h : nat) :
  isSetup_of h s = true → isSetup_of h (run acts s) = true.
Proof.
  intros Hs. unfold run.
  apply (fold_left_invariant (λ x, isSetup_of h x = true)); [done|].
  intros x a Hx. eapply isSetup_of_grow'; [apply channels_grow_step'|done].
Qed.

(** *** Listeners: who stays registered *)

Lemma same_listener_refl' (l : Listener) : same_listener l l = true.
Proof. destruct l as [h [c|]| |]; simpl; by apply bool_decide_eq_true_2. Qed.

Lemma same_listener_sym' (a b : Listener) :
  same_listener a b = true → same_listener b a = true.
Proof.
  destruct a as [h [c|]| |], b as [h' [c'|]| |]; simpl; try done;
    intros ?%bool_decide_eq_true_1; by apply bool_decide_eq_true_2.
Qed.

Lemma same_listener_trans' (a b c : Listener) :
  same_listener a b = true → same_listener b c = true → same_listener a c = true.
Proof.
  destruct a as [? [?|]| |], b as [? [?|]| |], c as [? [?|]| |]; simpl; try done;
    intros ?%bool_decide_eq_true_1 ?%bool_decide_eq_true_1;
    apply bool_decide_eq_true_2; congruence.
Qed.

Lemma registered_true' (w : Window) (l : Listener) (s : State) :
  registered w l s = true ↔
  ∃ l', (w, l') ∈ listeners s ∧ same_listener l l' = true.
Proof.
  unfold registered. rewrite existsb_exists. split.
  - intros ([w' l'] & Hin & (Hw%bool_decide_eq_true_1 & Hs)%andb_true_iff).
    simpl in *. subst w'. exists l'. by rewrite list_elem_of_In.
  - intros (l' & Hin & Hs). exists (w, l'). rewrite <- list_elem_of_In.
    split; [done|]. simpl. by rewrite bool_decide_eq_true_2.
Qed.

Lemma registered_elem_of' (w : Window) (l : Listener) (s : State) :
  (w, l) ∈ listeners s → registered w l s = true.
Proof.
  intros Hin. apply registered_true'. exists l. split; [done|].
  apply same_listener_refl'.
Qed.

Lemma elem_of_listeners_of' (w : Window) (l : Listener) (s : State) :
  l ∈ listeners_of w s ↔ (w, l) ∈ listeners s.
Proof.
  unfold listeners_of. rewrite list_elem_of_fmap. split.
  - intros ([w' l'] & -> & [Hin Hw]%list_elem_of_filter). simpl in *. by subst.
  - intros Hin. exists (w, l). split; [done|]. by apply list_elem_of_filter.
Qed.


Lemma elem_of_removeEventListener' (e : Window * Listener) (w : Window)
    (l : Listener) (s : State) :
  e ∈ listeners s → ¬ (e.1 = w ∧ same_listener l e.2 = true) →
  e ∈ listeners (removeEventListener w l s).
Proof. intros Hin Hn. simpl. by apply list_elem_of_filter. Qed.

Lemma listeners_settle_promise' (r : nat) (x : PromiseState) (s : State) :
  listeners (settle_promise r x s) = listeners s.
Proof. unfold settle_promise. by destruct (promises s !! r) as [[]|]. Qed.

Lemma elem_of_resume' (e : Window * Listener) (w : Window)
    (waiter : option RequestCall) (s : State) :
  e ∈ listeners s → e ∈ listeners (resume w waiter s).
Proof.
  intros Hin. destruct waiter as [c|]; simpl; [|done].
  unfold request_send. case_match; [|rewrite listeners_settle_promise'];
    simpl; apply elem_of_app; by left.
Qed.

Lemma listeners_set_isSetup' (h : nat) (s : State) :
  listeners (set_isSetup h s) = listeners s.
Proof. unfold set_isSetup. by destruct (channels s !! h). Qed.

(** The outcome a response envelope gives the promise of a [request] call. *)
Definition completion (m : ChannelMsg) : PromiseState :=
  if success m then Resolved (data m) else RejectedWith (reject_reason m).

Lemma request_messageHandler_match' (w : Window) (r : nat) (res : string)
    (event : MessageEvent) (s : State) :
  event_origin event = location_origin w →
  channel (event_data event) = res →
  stringifiable_msg (event_data event) = true →
  request_messageHandler w r res event s =
    Returns (removeEventListener w (LRequest r res)
               (settle_promise r (completion (event_data event)) s)).
Proof.
  intros Ho Hc Hj. unfold request_messageHandler, completion, resolve, reject.
  rewrite !bool_decide_eq_true_2, Hj by done. simpl.
  by destruct (success (event_data event)).
Qed.


Lemma request_messageHandler_skip' (w : Window) (r : nat) (res : string)
    (event : MessageEvent) (s : State) :
  channel (event_data event) ≠ res →
  request_messageHandler w r res event s = Returns s.
Proof.
  intros Hc. unfold request_messageHandler.
  rewrite (bool_decide_eq_false_2 (channel _ = _)) by done.
  by destruct (bool_decide _).
Qed.

(** A listener that runs removes no listener but itself. *)
Lemma run_listener_keeps' (e : Window * Listener) (w : Window)
    (event : MessageEvent) (l : Listener) (s : State) :
  e ∈ listeners s → ¬ (e.1 = w ∧ same_listener l e.2 = true) →
  e ∈ listeners (run_listener w event l s).
Proof.
  intros Hin Hn. destruct l as [h waiter|k cb req res|r res]; unfold run_listener in *; simpl.
  - unfold onMessage. repeat case_match; try done.
    apply elem_of_resume'. apply elem_of_removeEventListener'; [|done].
    by rewrite listeners_set_isSetup'.
  - unfold handle_messageHandler. by repeat case_match.
  - unfold request_messageHandler. repeat case_match; try done;
      (apply elem_of_removeEventListener'; [|done]);
      unfold resolve, reject; by rewrite listeners_settle_promise'.
Qed.

Lemma run_listener_registered' (w : Window) (event : MessageEvent)
    (l x : Listener) (s : State) :
  registered w x s = true → same_listener l x = false →
  registered w x (run_listener w event l s) = true.
Proof.
  intros (l' & Hin & Hs)%registered_true' Hd. apply registered_true'.
  exists l'. split; [|done]. apply run_listener_keeps'; [done|].
  simpl. intros [_ Hl]. apply same_listener_sym' in Hs.
  by rewrite (same_listener_trans' _ _ _ Hl Hs) in Hd.
Qed.

(** *** Promises *)

Lemma promises_set_isSetup' (h : nat) (s : State) :
  promises (set_isSetup h s) = promises s.
Proof. unfold set_isSetup. by destruct (channels s !! h). Qed.

Lemma promises_handle_messageHandler' (w : Window) (k : nat) (cb : Callback)
    (req res : string) (event : MessageEvent) (s : State) :
  promises (handle_messageHandler w k cb req res event s) = promises s.
Proof. unfold handle_messageHandler. by repeat case_match. Qed.

Lemma settle_promise_pending' (r : nat) (x : PromiseState) (s : State) :
  promises s !! r = Some Pending →
  promises (settle_promise r x s) !! r = Some x.
Proof.
  intros Hp. unfold settle_promise. rewrite Hp. simpl.
  apply list_lookup_insert_eq. by eapply lookup_lt_Some.
Qed.

Lemma settle_promise_ne' (r r' : nat) (x : PromiseState) (s : State) :
  r ≠ r' → promises (settle_promise r' x s) !! r = promises s !! r.
Proof.
  intros Hne. unfold settle_promise.
  destruct (promises s !! r') as [[]|]; try done.
  simpl. by apply list_lookup_insert_ne.
Qed.

(** A settled promise stays as it is. *)
Lemma settle_promise_settled' (r r' : nat) (x y : PromiseState) (s : State) :
  promises s !! r = Some y → y ≠ Pending →
  promises (settle_promise r' x s) !! r = Some y.
Proof.
  intros Hp Hy. destruct (decide (r = r')) as [<-|Hne].
  - unfold settle_promise. rewrite Hp. by destruct y.
  - by rewrite settle_promise_ne'.
Qed.

Lemma length_promises_settle_promise' (r : nat) (x : PromiseState) (s : State) :
  length (promises (settle_promise r x s)) = length (promises s).
Proof.
  unfold settle_promise. destruct (promises s !! r) as [[]|]; try done.
  simpl. apply length_insert.
Qed.

(** The executor of a [request] call touches no promise but its own, and
    its own only when its payload cannot be printed. *)
Lemma request_send_stringifiable (w : Window) (c : RequestCall) (s : State) :
  stringifiable (call_message c) = true →
  request_send w c s =
    postMessage (call_windowObj c) w
      {| channel := call_requestChannel c; success := true; isSetup := None;
         data := call_message c; error := None |} AnyOrigin
      (addEventListener w (LRequest (call_promise c) (call_responseChannel c)) s).
Proof. intros Hj. unfold request_send, stringifiable_msg. simpl. by rewrite Hj. Qed.

Lemma request_send_throws (w : Window) (c : RequestCall) (s : State) :
  stringifiable (call_message c) = false →
  request_send w c s =
    settle_promise (call_promise c)
      (RejectedBy (NotStringifiable (call_message c)))
      (addEventListener w (LRequest (call_promise c) (call_responseChannel c)) s).
Proof. intros Hj. unfold request_send, stringifiable_msg. simpl. by rewrite Hj. Qed.

Lemma promises_request_send_ne (w : Window) (c : RequestCall) (s : State)
    (r : nat) :
  r ≠ call_promise c → promises (request_send w c s) !! r = promises s !! r.
Proof.
  intros Hne. unfold request_send. case_match; [done|].
  by rewrite settle_promise_ne'.
Qed.

Lemma request_send_settled (w : Window) (c : RequestCall) (s : State)
    (r : nat) (y : PromiseState) :
  promises s !! r = Some y → y ≠ Pending →
  promises (request_send w c s) !! r = Some y.
Proof.
  intros Hp Hy. unfold request_send. case_match; [done|].
  by apply settle_promise_settled'.
Qed.

Lemma length_promises_request_send (w : Window) (c : RequestCall) (s : State) :
  length (promises (request_send w c s)) = length (promises s).
Proof.
  unfold request_send. case_match; [done|].
  by rewrite length_promises_settle_promise'.
Qed.

(** An event that is no setup announcement leaves [onMessage] idle. *)
Lemma onMessage_not_setup (w : Window) (h : nat) (waiter : option RequestCall)
    (event : MessageEvent) (s : State) :
  truthy (isSetup (event_data event)) = false →
  onMessage w h waiter event s = s.
Proof. intros Ht. unfold onMessage. rewrite Ht. by repeat case_match. Qed.

Lemma onMessage_settled (w : Window) (h : nat) (waiter : option RequestCall)
    (event : MessageEvent) (s : State) (r : nat) (y : PromiseState) :
  promises s !! r = Some y → y ≠ Pending →
  promises (onMessage w h waiter event s) !! r = Some y.
Proof.
  intros Hp Hy. unfold onMessage. repeat case_match; try done.
  destruct waiter as [call|]; simpl.
  - apply request_send_settled; [|done]. simpl. by rewrite promises_set_isSetup'.
  - by rewrite promises_set_isSetup'.
Qed.

Lemma length_promises_onMessage (w : Window) (h : nat)
    (waiter : option RequestCall) (event : MessageEvent) (s : State) :
  length (promises (onMessage w h waiter event s)) = length (promises s).
Proof.
  unfold onMessage. repeat case_match; try done.
  destruct waiter as [call|]; simpl.
  - rewrite length_promises_request_send. simpl. by rewrite promises_set_isSetup'.
  - by rewrite promises_set_isSetup'.
Qed.

(** [onMessage] touches no promise but the one of the call it resumes. *)
Lemma promises_onMessage_ne (w : Window) (h : nat)
    (waiter : option RequestCall) (event : MessageEvent) (s : State) (r : nat) :
  (∀ c, waiter = Some c → r ≠ call_promise c) →
  promises (onMessage w h waiter event s) !! r = promises s !! r.
Proof.
  intros Hne. unfold onMessage. repeat case_match; try done.
  destruct waiter as [call|]; simpl.
  - rewrite promises_request_send_ne by (by apply Hne). simpl.
    by rewrite promises_set_isSetup'.
  - by rewrite promises_set_isSetup'.
Qed.

Lemma run_listener_settled' (w : Window) (event : MessageEvent) (l : Listener)
    (s : State) (r : nat) (y : PromiseState) :
  promises s !! r = Some y → y ≠ Pending →
  promises (run_listener w event l s) !! r = Some y.
Proof.
  intros Hp Hy. destruct l as [h waiter|k cb req res|r' res]; unfold run_listener in *; simpl.
  - by apply onMessage_settled.
  - by rewrite promises_handle_messageHandler'.
  - unfold request_messageHandler. repeat case_match; try done; simpl;
      by apply settle_promise_settled'.
Qed.

Lemma completion_settled' (m : ChannelMsg) : completion m ≠ Pending.
Proof. unfold completion. by destruct (success m). Qed.

Lemma fold_response_settles' (w : Window) (event : MessageEvent) (r : nat)
    (res : string) (ls : list Listener) (s : State) :
  event_origin event = location_origin w →
  channel (event_data event) = res →
  truthy (isSetup (event_data event)) = false →
  stringifiable_msg (event_data event) = true →
  promises s !! r = Some (completion (event_data event)) ∨
    (promises s !! r = Some Pending ∧
     registered w (LRequest r res) s = true ∧ LRequest r res ∈ ls) →
  promises (fold_left (invoke w event) ls s) !! r =
    Some (completion (event_data event)).
Proof.
  intros Ho Hc Hns Hj. revert s.
  induction ls as [|l ls IH]; intros s Hs; simpl.
  - destruct Hs as [Hs|(_ & _ & Hin)]; [done|]. by apply elem_of_nil in Hin.
  - apply IH. unfold invoke.
    destruct Hs as [Hs|(Hp & Hreg & Hin)].
    { left. destruct (registered w l s); [|done].
      apply run_listener_settled'; [done|apply completion_settled']. }
    destruct (registered w l s) eqn:Hl.
    2:{ right. split; [done|]. split; [done|].
        apply elem_of_cons in Hin as [<-|Hin]; [congruence|done]. }
    destruct l as [h waiter|k cb req res'|r' res'].
    + right. unfold run_listener; simpl. rewrite onMessage_not_setup by done.
      split; [done|]. split; [done|].
      by apply elem_of_cons in Hin as [[=]|Hin].
    + right. split; [|split].
      * unfold run_listener; simpl. by rewrite promises_handle_messageHandler'.
      * by apply run_listener_registered'.
      * by apply elem_of_cons in Hin as [[=]|Hin].
    + destruct (decide (channel (event_data event) = res')) as [Hc'|Hc'].
      * pose proof (request_messageHandler_match' w r' res' event s Ho Hc' Hj)
          as Hm.
        destruct (decide (r = r')) as [<-|Hne].
        -- left. unfold run_listener; simpl. rewrite Hm. simpl.
           by apply settle_promise_pending'.
        -- right. split; [|split].
           ++ unfold run_listener; simpl. rewrite Hm. simpl.
              by rewrite settle_promise_ne'.
           ++ apply (run_listener_registered' w event (LRequest r' res')); [done|].
              simpl. by apply bool_decide_eq_false_2.
           ++ apply elem_of_cons in Hin as [[=]|Hin]; [congruence|done].
      * unfold run_listener; simpl. rewrite request_messageHandler_skip' by done.
        right. split; [done|]. split; [done|].
        apply elem_of_cons in Hin as [[=]|Hin]; [congruence|done].
Qed.

(** A same-origin envelope on the response topic of a listening [request]
    call, one its log line can print, settles the call's promise by what the
    envelope says, whoever the response was meant for. *)
Lemma response_settles' (w : Window) (event : MessageEvent) (r : nat)
    (res : string) (s : State) :
  (w, LRequest r res) ∈ listeners s →
  promises s !! r = Some Pending →
  event_origin event = location_origin w →
  channel (event_data event) = res →
  truthy (isSetup (event_data event)) = false →
  stringifiable_msg (event_data event) = true →
  promises (dispatchEvent w event s) !! r =
    Some (completion (event_data event)).
Proof.
  intros Hin Hp Ho Hc Hns Hj. unfold dispatchEvent.
  apply (fold_response_settles' w event r res); [done..|].
  right. split; [done|]. split; [by apply registered_elem_of'|].
  by apply elem_of_listeners_of'.
Qed.

(** *** The responder *)

(** A same-origin request envelope on topic [req], as seen from window [w]:
    not a setup announcement. *)
Definition valid_request (w : Window) (req : string) (event : MessageEvent) : Prop :=
  event_origin event = location_origin w ∧
  channel (event_data event) = req ∧
  isSetup (event_data event) ≠ Some true.

(** The two envelopes [handle] answers with. *)
Definition success_envelope (res : string) (v : value) : ChannelMsg :=
  {| channel := res; success := true; isSetup := None; data := v;
     error := None |}.

Definition error_envelope (res : string) (err : JsError) : ChannelMsg :=
  {| channel := res; success := false; isSetup := None; data := VUndefined;
     error := Some {| msg := message err;
                      stack := default "" (err_stack err) |} |}.

(** What [handle] answers, by how the callback's promise settles: the
    success envelope, followed by the error envelope of the exception when
    the result cannot be printed; the error envelope of the reason; nothing
    when the reason is [null] or [undefined]. *)
Definition response_envelopes (res : string) (o : Settled) : list ChannelMsg :=
  match o with
  | Fulfilled v =>
      if stringifiable v then [success_envelope res v]
      else [success_envelope res v;
            error_envelope res (type_error (NotStringifiable v))]
  | Rejected err => [error_envelope res err]
  | RejectedNullish => []
  end.

(** The promise a request leaves pending at the responder. *)
Definition job_for (w : Window) (cb : Callback) (res : string)
    (event : MessageEvent) : Job :=
  Build_Job w event res (cb (data (event_data event))).

Lemma handle_messageHandler_request' (w : Window) (k : nat) (cb : Callback)
    (req res : string) (event : MessageEvent) (s : State) :
  valid_request w req event →
  stringifiable_msg (event_data event) = true →
  handle_messageHandler w k cb req res event s =
    Returns (set_jobs (jobs s ++ [job_for w cb res event])
               (set_calls (calls s ++ [(k, data (event_data event))]) s)).
Proof.
  intros (Ho & Hc & Hs) Hj. unfold handle_messageHandler.
  rewrite !bool_decide_eq_true_2, Hj by done. simpl.
  destruct (truthy _) eqn:Ht; [|done]. by apply truthy_true in Ht.
Qed.

(** A valid request the log line cannot print: the listener throws before
    it calls the callback. *)
Lemma handle_messageHandler_throws (w : Window) (k : nat) (cb : Callback)
    (req res : string) (event : MessageEvent) (s : State) :
  valid_request w req event →
  stringifiable_msg (event_data event) = false →
  handle_messageHandler w k cb req res event s =
    Throws (NotStringifiable (data (event_data event))) s.
Proof.
  intros (Ho & Hc & Hs) Hj. unfold handle_messageHandler.
  rewrite !bool_decide_eq_true_2, Hj by done. simpl.
  destruct (truthy _) eqn:Ht; [|done]. by apply truthy_true in Ht.
Qed.

(** The posts of a settled callback promise, when the event names its
    sender: none when its origin is ["null"], on which [postMessage]
    throws. *)
Definition response_posts (w : Window) (res : string) (event : MessageEvent)
    (src : Window) (o : Settled) : list Post :=
  if bool_decide (event_origin event = "null") then []
  else
    (λ m, {| post_target := src; post_sender := w; post_msg := m;
             post_targetOrigin := ExactOrigin (event_origin event) |}) <$>
      response_envelopes res o.

Lemma set_inflight_same (s : State) : set_inflight (inflight s ++ []) s = s.
Proof. rewrite app_nil_r. by destruct s. Qed.

Lemma run_job_with_source' (j : Job) (src : Window) (s : State) :
  event_source (job_event j) = Some src →
  state_of (run_job j s) =
    set_inflight
      (inflight s ++
         response_posts (job_window j) (job_responseChannel j) (job_event j)
           src (job_result j)) s.
Proof.
  intros Hs. unfold run_job, handle_then, handle_catch, source_postMessage,
    response_posts, response_envelopes, stringifiable_msg, postMessage.
  rewrite Hs. cbv zeta.
  destruct (bool_decide (event_origin (job_event j) = "null")).
  { rewrite set_inflight_same. by destruct (job_result j). }
  destruct (job_result j) as [v|err|]; simpl.
  - destruct (stringifiable v); simpl; [done|].
    unfold set_inflight. simpl. by rewrite <- app_assoc.
  - done.
  - by rewrite set_inflight_same.
Qed.

Lemma run_job_without_source' (j : Job) (s : State) :
  event_source (job_event j) = None → state_of (run_job j s) = s.
Proof.
  intros Hs. unfold run_job, handle_then, handle_catch, source_postMessage,
    stringifiable_msg.
  rewrite Hs. cbv zeta. destruct (job_result j) as [v|err|]; simpl; [|done..].
  by destruct (stringifiable v).
Qed.

(** Without a sender handle, the reactions chained on the callback's promise
    end in an exception exactly when the promise is rejected with [null] or
    [undefined]: what the [.then] branch throws on its log line is caught by
    the [.catch], what the [.catch] throws is not. *)
Lemma run_job_completion (j : Job) (s : State) :
  event_source (job_event j) = None →
  run_job j s =
    match job_result j with
    | RejectedNullish => Throws NoProperties s
    | _ => Returns s
    end.
Proof.
  intros Hs. unfold run_job, handle_then, handle_catch, source_postMessage,
    stringifiable_msg.
  rewrite Hs. cbv zeta. destruct (job_result j) as [v|err|]; simpl; [|done..].
  by destruct (stringifiable v).
Qed.

(** The log of callback invocations and the pending callback promises only
    grow while listeners run. *)
Lemma calls_settle_promise' (r : nat) (x : PromiseState) (s : State) :
  calls (settle_promise r x s) = calls s.
Proof. unfold settle_promise. by destruct (promises s !! r) as [[]|]. Qed.

Lemma jobs_settle_promise' (r : nat) (x : PromiseState) (s : State) :
  jobs (settle_promise r x s) = jobs s.
Proof. unfold settle_promise. by destruct (promises s !! r) as [[]|]. Qed.

Lemma calls_set_isSetup' (h : nat) (s : State) : calls (set_isSetup h s) = calls s.
Proof. unfold set_isSetup. by destruct (channels s !! h). Qed.

Lemma jobs_set_isSetup' (h : nat) (s : State) : jobs (set_isSetup h s) = jobs s.
Proof. unfold set_isSetup. by destruct (channels s !! h). Qed.

Lemma calls_request_send (w : Window) (c : RequestCall) (s : State) :
  calls (request_send w c s) = calls s.
Proof.
  unfold request_send. case_match; [done|]. by rewrite calls_settle_promise'.
Qed.

Lemma jobs_request_send (w : Window) (c : RequestCall) (s : State) :
  jobs (request_send w c s) = jobs s.
Proof.
  unfold request_send. case_match; [done|]. by rewrite jobs_settle_promise'.
Qed.

Lemma calls_onMessage (w : Window) (h : nat) (waiter : option RequestCall)
    (event : MessageEvent) (s : State) :
  calls (onMessage w h waiter event s) = calls s.
Proof.
  unfold onMessage. repeat case_match; try done.
  destruct waiter as [call|]; simpl; rewrite ?calls_request_send; simpl;
    by rewrite calls_set_isSetup'.
Qed.

Lemma jobs_onMessage (w : Window) (h : nat) (waiter : option RequestCall)
    (event : MessageEvent) (s : State) :
  jobs (onMessage w h waiter event s) = jobs s.
Proof.
  unfold onMessage. repeat case_match; try done.
  destruct waiter as [call|]; simpl; rewrite ?jobs_request_send; simpl;
    by rewrite jobs_set_isSetup'.
Qed.

Lemma run_listener_calls' (w : Window) (event : MessageEvent) (l : Listener)
    (s : State) (x : nat * value) :
  x ∈ calls s → x ∈ calls (run_listener w event l s).
Proof.
  intros Hx. destruct l as [h waiter|k cb req res|r res]; unfold run_listener in *; simpl.
  - rewrite calls_onMessage. done.
  - unfold handle_messageHandler. repeat case_match; try done.
    simpl. apply elem_of_app. by left.
  - unfold request_messageHandler. repeat case_match; try done; simpl;
      unfold resolve, reject; by rewrite calls_settle_promise'.
Qed.

Lemma run_listener_jobs' (w : Window) (event : MessageEvent) (l : Listener)
    (s : State) (x : Job) :
  x ∈ jobs s → x ∈ jobs (run_listener w event l s).
Proof.
  intros Hx. destruct l as [h waiter|k cb req res|r res]; unfold run_listener in *; simpl.
  - rewrite jobs_onMessage. done.
  - unfold handle_messageHandler. repeat case_match; try done.
    simpl. apply elem_of_app. by left.
  - unfold request_messageHandler. repeat case_match; try done; simpl;
      unfold resolve, reject; by rewrite jobs_settle_promise'.
Qed.

(** No listener that runs removes the listener of a [handle] call. *)
Lemma run_listener_keeps_handle' (w0 w : Window) (k : nat) (cb : Callback)
    (req res : string) (event : MessageEvent) (l : Listener) (s : State) :
  (w0, LHandle k cb req res) ∈ listeners s →
  (w0, LHandle k cb req res) ∈ listeners (run_listener w event l s).
Proof.
  intros Hin. destruct l as [h waiter|k' cb' req' res'|r' res'].
  - apply run_listener_keeps'; [done|]. simpl. intros [_ Hs]. by destruct waiter.
  - unfold run_listener. simpl. unfold handle_messageHandler. by repeat case_match.
  - apply run_listener_keeps'; [done|]. simpl. by intros [_ Hs].
Qed.


Lemma listeners_run_job' (j : Job) (s : State) :
  listeners (run_job j s) = listeners s.
Proof.
  unfold run_job, handle_then, handle_catch, source_postMessage.
  cbv zeta. repeat case_match; by simplify_eq.
Qed.



Lemma fold_handle_serves' (w : Window) (k : nat) (cb : Callback)
    (req res : string) (event : MessageEvent) (ls : list Listener) (s : State) :
  valid_request w req event →
  stringifiable_msg (event_data event) = true →
  ((k, data (event_data event)) ∈ calls s ∧ job_for w cb res event ∈ jobs s) ∨
    ((w, LHandle k cb req res) ∈ listeners s ∧ LHandle k cb req res ∈ ls) →
  let s' := fold_left (invoke w event) ls s in
  (k, data (event_data event)) ∈ calls s' ∧ job_for w cb res event ∈ jobs s'.
Proof.
  intros Hv Hp. revert s. induction ls as [|l ls IH]; intros s Hs; simpl.
  - destruct Hs as [Hs|[_ Hin]]; [done|]. by apply elem_of_nil in Hin.
  - apply IH. unfold invoke. destruct Hs as [[Hc Hj]|[Hreg Hin]].
    { left. destruct (registered w l s); [|done].
      split; [by apply run_listener_calls'|by apply run_listener_jobs']. }
    apply elem_of_cons in Hin as [<-|Hin].
    + left. rewrite registered_elem_of' by done. unfold run_listener. simpl.
      rewrite handle_messageHandler_request' by done. simpl.
      split; apply elem_of_app; right; apply list_elem_of_singleton; done.
    + right. split; [|done]. destruct (registered w l s); [|done].
      by apply run_listener_keeps_handle'.
Qed.

(** A valid request envelope reaching a window where a [handle] listener is
    registered invokes its callback on the payload and leaves the callback's
    promise pending with the response chained on it. *)
Lemma handle_serves' (w : Window) (k : nat) (cb : Callback) (req res : string)
    (event : MessageEvent) (s : State) :
  (w, LHandle k cb req res) ∈ listeners s →
  valid_request w req event →
  stringifiable_msg (event_data event) = true →
  (k, data (event_data event)) ∈ calls (dispatchEvent w event s) ∧
  job_for w cb res event ∈ jobs (dispatchEvent w event s).
Proof.
  intros Hin Hv Hp. unfold dispatchEvent.
  apply (fold_handle_serves' w k cb req res); [done..|].
  right. split; [done|]. by apply elem_of_listeners_of'.
Qed.

Lemma settle_lookup' (j : nat) (jb : Job) (s : State) :
  jobs s !! j = Some jb →
  settle j s = state_of (run_job jb (set_jobs (delete j (jobs s)) s)).
Proof. intros Hj. unfold settle. by rewrite Hj. Qed.


(** *** Requests waiting for setup *)

(** The promise a listener was created for, if any. *)
Definition listener_promise (l : Listener) : option nat :=
  match l with
  | LSetup _ (Some c) => Some (call_promise c)
  | LRequest r _ => Some r
  | _ => None
  end.

(** Every listener created for a [request] call names a promise that
    exists. *)
Definition promises_bound (s : State) : Prop :=
  ∀ w l r, (w, l) ∈ listeners s → listener_promise l = Some r →
    r < length (promises s).

Lemma length_promises_run_listener' (w : Window) (event : MessageEvent)
    (l : Listener) (s : State) :
  length (promises (run_listener w event l s)) = length (promises s).
Proof.
  destruct l as [h waiter|k cb req res|r res]; unfold run_listener in *; simpl.
  - apply length_promises_onMessage.
  - by rewrite promises_handle_messageHandler'.
  - unfold request_messageHandler. repeat case_match; try done; simpl;
      unfold resolve, reject; by rewrite length_promises_settle_promise'.
Qed.

Lemma listeners_request_send (w : Window) (c : RequestCall) (s : State) :
  listeners (request_send w c s) =
    listeners s ++ [(w, LRequest (call_promise c) (call_responseChannel c))].
Proof.
  unfold request_send. case_match; [done|].
  by rewrite listeners_settle_promise'.
Qed.

(** The executor posts the request envelope when it can print it, and
    nothing otherwise. *)
Lemma inflight_request_send (w : Window) (c : RequestCall) (s : State) :
  inflight (request_send w c s) =
    inflight s ++
      (if stringifiable (call_message c)
       then [{| post_target := call_windowObj c; post_sender := w;
                post_msg := {| channel := call_requestChannel c;
                               success := true; isSetup := None;
                               data := call_message c; error := None |};
                post_targetOrigin := AnyOrigin |}]
       else []).
Proof.
  unfold request_send, stringifiable_msg. simpl.
  destruct (stringifiable (call_message c)); simpl; [done|].
  unfold settle_promise. simpl. rewrite app_nil_r.
  by destruct (promises s !! call_promise c) as [[]|].
Qed.

(** The only listener a running listener subscribes is the response
    listener of the [request] call it resumes. *)
Lemma run_listener_listeners' (e : Window * Listener) (w : Window)
    (event : MessageEvent) (l : Listener) (s : State) :
  e ∈ listeners (run_listener w event l s) →
  e ∈ listeners s ∨
  ∃ h c, l = LSetup h (Some c) ∧
         e = (w, LRequest (call_promise c) (call_responseChannel c)).
Proof.
  destruct l as [h waiter|k cb req res|r res]; unfold run_listener in *; simpl.
  - unfold onMessage. repeat case_match; try (by left).
    intros Hin.
    assert (e ∈ listeners (removeEventListener w (LSetup h waiter) (set_isSetup h s))
            ∨ ∃ h0 c0, LSetup h waiter = LSetup h0 (Some c0) ∧
                e = (w, LRequest (call_promise c0) (call_responseChannel c0)))
      as [Hin'|Hin']; [| |by right].
    { destruct waiter as [c0|]; simpl in Hin |- *; [|by left].
      rewrite listeners_request_send in Hin.
      apply elem_of_app in Hin as [Hin|Hin]; [by left|].
      apply list_elem_of_singleton in Hin. right. by exists h, c0. }
    left. simpl in Hin'. apply list_elem_of_filter in Hin' as [_ Hin'].
    by rewrite listeners_set_isSetup' in Hin'.
  - unfold handle_messageHandler. repeat case_match; by left.
  - unfold request_messageHandler. repeat case_match; try (by left); simpl;
      intros [_ Hin]%list_elem_of_filter; unfold resolve, reject in Hin;
      rewrite listeners_settle_promise' in Hin; by left.
Qed.

Lemma promises_bound_run_listener' (w : Window) (event : MessageEvent)
    (l : Listener) (s : State) :
  promises_bound s →
  (∀ r, listener_promise l = Some r → r < length (promises s)) →
  promises_bound (run_listener w event l s).
Proof.
  intros Hb Hl w0 l0 r Hin Hr. rewrite length_promises_run_listener'.
  apply run_listener_listeners' in Hin as [Hin|(h & c & -> & [= -> ->])].
  - by eapply Hb.
  - simpl in Hr. simplify_eq. by apply Hl.
Qed.

Lemma promises_bound_dispatchEvent' (w : Window) (event : MessageEvent) (s : State) :
  promises_bound s → promises_bound (dispatchEvent w event s).
Proof.
  intros Hb. unfold dispatchEvent.
  apply (fold_left_invariant_in
           (λ x, promises_bound x ∧ length (promises x) = length (promises s)));
    [done|].
  intros x l Hl%elem_of_listeners_of' [Hx Hlen]. unfold invoke.
  destruct (registered w l x); [|done]. split.
  - apply promises_bound_run_listener'; [done|].
    intros r Hr. rewrite Hlen. by eapply Hb.
  - by rewrite length_promises_run_listener'.
Qed.

Lemma promises_bound_add' (w : Window) (l : Listener) (s : State) :
  promises_bound s →
  (∀ r, listener_promise l = Some r → r < length (promises s)) →
  promises_bound (addEventListener w l s).
Proof.
  intros Hb Hl w0 l0 r. simpl. intros [Hin|Hin]%elem_of_app Hr.
  - by eapply Hb.
  - apply list_elem_of_singleton in Hin. simplify_eq. by apply Hl.
Qed.

Lemma promises_run_job (j : Job) (s : State) :
  promises (run_job j s) = promises s.
Proof.
  unfold run_job, handle_then, handle_catch, source_postMessage.
  cbv zeta. repeat case_match; by simplify_eq.
Qed.

Lemma promises_bound_step' (s : State) (a : Action) :
  promises_bound s → promises_bound (step s a).
Proof.
  intros Hb. destruct a as [w name|h cb|h m t|i|j|w ev]; simpl.
  - by apply (promises_bound_add' w (LSetup _ None) (set_channels _ s)).
  - unfold handle. case_match; [|done].
    by apply (promises_bound_add' _ (LHandle _ _ _ _)
                (set_handlers _ (postMessage _ _ _ _ s))).
  - unfold request, waitChildWindowSetup. case_match; [|done].
    assert (promises_bound (set_promises (promises s ++ [Pending]) s)) as Hb'.
    { intros w0 l0 r Hin Hr. simpl. rewrite length_app. simpl.
      specialize (Hb _ _ _ Hin Hr). lia. }
    case_match.
    + intros w0 l0 r. rewrite length_promises_request_send.
      rewrite listeners_request_send.
      apply (promises_bound_add' _ (LRequest _ _) (set_promises _ s)); [done|].
      simpl. intros r' [= <-]. rewrite length_app. simpl. lia.
    + apply (promises_bound_add' _ (LSetup _ (Some _)) (set_promises _ s));
        [done|].
      simpl. intros r [= <-]. rewrite length_app. simpl. lia.
  - unfold deliver. repeat case_match; try done.
    by apply promises_bound_dispatchEvent'.
  - unfold settle. case_match; [|done]. intros w0 l0 r.
    rewrite listeners_run_job'. rewrite promises_run_job. apply Hb.
  - by apply promises_bound_dispatchEvent'.
Qed.

(** The bound holds along every execution from the initial state. *)
Lemma promises_bound_run' (acts : list Action) (s : State) :
  promises_bound s → promises_bound (run acts s).
Proof.
  intros Hb. unfold run. apply (fold_left_invariant promises_bound); [done|].
  intros x a Hx. by apply promises_bound_step'.
Qed.

Lemma promises_bound_init' : promises_bound init.
Proof. intros w l r Hin. by apply elem_of_nil in Hin. Qed.

(** The parameters of the [request] call on a channel with variables [c]
    that returned promise [r]. *)
Definition request_call (c : Channel) (r : nat) (m : value)
    (t : option Window) : RequestCall :=
  {| call_promise := r; call_message := m;
     call_windowObj := default (chan_window c) t;
     call_responseChannel := responseChannel (chan_name c);
     call_requestChannel := requestChannel (chan_name c) |}.

(** The request envelope of a call, as handed to the transport from
    window [w]. *)
Definition request_post (w : Window) (call : RequestCall) : Post :=
  {| post_target := call_windowObj call; post_sender := w;
     post_msg := {| channel := call_requestChannel call; success := true;
                    isSetup := None; data := call_message call;
                    error := None |};
     post_targetOrigin := AnyOrigin |}.






Lemma inflight_settle_promise' (r : nat) (x : PromiseState) (s : State) :
  inflight (settle_promise r x s) = inflight s.
Proof. unfold settle_promise. by destruct (promises s !! r) as [[]|]. Qed.

Lemma inflight_set_isSetup' (h : nat) (s : State) :
  inflight (set_isSetup h s) = inflight s.
Proof. unfold set_isSetup. by destruct (channels s !! h). Qed.

(** *** The round trip *)

Lemma request_ready' (h : nat) (c : Channel) (m : value) (t : option Window)
    (s : State) :
  channels s !! h = Some c → chan_isSetup c = true →
  request h m t s =
    request_send (chan_window c) (request_call c (length (promises s)) m t)
      (set_promises (promises s ++ [Pending]) s).
Proof.
  intros Hc Hf. unfold request, waitChildWindowSetup, isSetup_of. simpl.
  by rewrite Hc, Hf.
Qed.

(** Delivering the post at the end of the queue. *)
Lemma deliver_last' (s : State) (ps : list Post) (p : Post) :
  inflight s = ps ++ [p] →
  origin_allows (post_targetOrigin p) (post_sender p) (post_target p) = true →
  deliver (length ps) s =
    dispatchEvent (post_target p) (event_of p) (set_inflight ps s).
Proof.
  intros Hi Ho. unfold deliver. rewrite Hi.
  rewrite list_lookup_middle by done. rewrite Ho.
  by rewrite delete_middle, app_nil_r.
Qed.

Lemma same_listener_promise' (l : Listener) (r : nat) (res : string) :
  same_listener l (LRequest r res) = true → listener_promise l = Some r.
Proof.
  destruct l as [h [c|]| |r' res']; simpl; try done.
  by intros ->%bool_decide_eq_true_1.
Qed.

Lemma run_listener_promise_other' (w : Window) (event : MessageEvent)
    (l : Listener) (s : State) (r : nat) :
  listener_promise l ≠ Some r →
  promises (run_listener w event l s) !! r = promises s !! r.
Proof.
  intros Hl. destruct l as [h waiter|k cb req res|r' res];
    unfold run_listener in *; simpl.
  - apply promises_onMessage_ne. intros call ->. simpl in Hl. congruence.
  - by rewrite promises_handle_messageHandler'.
  - unfold request_messageHandler. repeat case_match; try done; simpl;
      apply settle_promise_ne'; intros ->; by apply Hl.
Qed.

(** An envelope on another topic leaves a [request] call listening and its
    promise as it is, when no other listener of the dispatch was created for
    that promise. *)
Lemma fold_request_untouched' (w p : Window) (event : MessageEvent) (r : nat)
    (res : string) (x : PromiseState) (ls : list Listener) (s : State) :
  channel (event_data event) ≠ res →
  (∀ l, l ∈ ls → listener_promise l = Some r → l = LRequest r res) →
  (p, LRequest r res) ∈ listeners s → promises s !! r = Some x →
  (p, LRequest r res) ∈ listeners (fold_left (invoke w event) ls s) ∧
  promises (fold_left (invoke w event) ls s) !! r = Some x.
Proof.
  intros Hc Hls Hin Hp.
  apply (fold_left_invariant_in
           (λ y, (p, LRequest r res) ∈ listeners y ∧ promises y !! r = Some x));
    [done|].
  intros y l Hl [Hy Hpy]. unfold invoke. destruct (registered w l y); [|done].
  destruct (decide (listener_promise l = Some r)) as [E|E].
  - rewrite (Hls l Hl E). unfold run_listener. simpl.
    by rewrite request_messageHandler_skip'.
  - split.
    + apply run_listener_keeps'; [done|]. simpl. intros [_ Hs].
      by apply same_listener_promise' in Hs.
    + by rewrite run_listener_promise_other'.
Qed.

(** An envelope that is no setup announcement and that the log lines cannot
    print changes nothing: [onMessage] passes it by, and every
    [messageHandler] it gets through the guards of throws on its log line. *)
Lemma run_listener_unprintable (w : Window) (event : MessageEvent)
    (l : Listener) (s : State) :
  truthy (isSetup (event_data event)) = false →
  stringifiable_msg (event_data event) = false →
  run_listener w event l s = s.
Proof.
  intros Hns Hj. destruct l as [h waiter|k cb req res|r res];
    unfold run_listener; simpl.
  - by apply onMessage_not_setup.
  - unfold handle_messageHandler. rewrite Hns, Hj. by repeat case_match.
  - unfold request_messageHandler. rewrite Hj. by repeat case_match.
Qed.

Lemma dispatchEvent_unprintable (w : Window) (event : MessageEvent) (s : State) :
  truthy (isSetup (event_data event)) = false →
  stringifiable_msg (event_data event) = false →
  dispatchEvent w event s = s.
Proof.
  intros Hns Hj. unfold dispatchEvent. generalize (listeners_of w s) as ls.
  induction ls as [|l ls IH]; simpl; [done|].
  unfold invoke at 2. rewrite run_listener_unprintable by done.
  by destruct (registered w l s).
Qed.

(** From a ready requester to the callback: the request is posted and
    delivered, the callback runs on the payload and its promise is left
    pending with the response chained on it, while the call listens for the
    response. *)
Lemma request_served (acts : list Action) (h : nat) (c : Channel)
    (responder : Window) (k : nat) (cb : Callback) (q : value) :
  let s := run acts init in
  let res := responseChannel (chan_name c) in
  let r := length (promises s) in
  let event :=
    event_of (request_post (chan_window c) (request_call c r q (Some responder))) in
  channels s !! h = Some c → chan_isSetup c = true →
  (responder, LHandle k cb (requestChannel (chan_name c)) res) ∈ listeners s →
  location_origin (chan_window c) = location_origin responder →
  opaque_origin (chan_window c) = false →
  stringifiable q = true →
  let s1 := request h q (Some responder) s in
  let s2 := deliver (length (inflight s)) s1 in
  promises s1 !! r = Some Pending ∧
  (k, q) ∈ calls s2 ∧
  (∃ j, jobs s2 !! j = Some (job_for responder cb res event)) ∧
  (chan_window c, LRequest r res) ∈ listeners s2 ∧
  promises s2 !! r = Some Pending.
Proof.
  intros s res r event Hc Hf Hh Ho Hop Hq s1 s2.
  set (p := chan_window c) in *.
  set (call := request_call c r q (Some responder)) in *.
  assert (promises_bound s) as Hb
    by apply (promises_bound_run' acts init promises_bound_init').
  assert (s1 = postMessage responder p (post_msg (request_post p call)) AnyOrigin
                 (addEventListener p (LRequest r res)
                    (set_promises (promises s ++ [Pending]) s)))
    as Hs1.
  { unfold s1. rewrite (request_ready' h c q (Some responder) s Hc Hf).
    by rewrite request_send_stringifiable. }
  assert (promises s1 !! r = Some Pending) as Hp1.
  { rewrite Hs1. simpl. by rewrite lookup_app_r, Nat.sub_diag. }
  assert (valid_request responder (requestChannel (chan_name c)) event) as Hv.
  { repeat split; [|done]. simpl. unfold stamped_origin. by rewrite Hop. }
  assert (s2 = dispatchEvent responder event (set_inflight (inflight s) s1))
    as Hs2.
  { unfold s2.
    rewrite (deliver_last' s1 (inflight s) (request_post p call));
      [done|by rewrite Hs1|done]. }
  assert ((p, LRequest r res) ∈ listeners s2 ∧ promises s2 !! r = Some Pending)
    as [Hl2 Hp2].
  { rewrite Hs2. unfold dispatchEvent.
    apply fold_request_untouched'.
    - apply request_response_distinct.
    - intros l Hl%elem_of_listeners_of' Hr. simpl in Hl. rewrite Hs1 in Hl.
      simpl in Hl. apply elem_of_app in Hl as [Hl|Hl].
      + specialize (Hb _ _ _ Hl Hr). unfold r in Hb. lia.
      + apply list_elem_of_singleton in Hl. by simplify_eq.
    - simpl. rewrite Hs1. simpl. apply elem_of_app. right.
      by apply list_elem_of_singleton.
    - done. }
  destruct (handle_serves' responder k cb (requestChannel (chan_name c)) res
              event (set_inflight (inflight s) s1)) as [Hcalls Hjobs].
  { simpl. rewrite Hs1. simpl. apply elem_of_app. by left. }
  { done. }
  { done. }
  rewrite <- Hs2 in Hcalls, Hjobs.
  split; [done|]. split; [done|]. split; [|done].
  by apply list_elem_of_lookup in Hjobs.
Qed.

(** *** Topics *)

(** The topics a listener closes over are the request topic and the response
    topic of one channel name. *)
Definition topic_ok (l : Listener) : Prop :=
  match l with
  | LSetup _ None => True
  | LSetup _ (Some c) =>
      ∃ n, call_requestChannel c = requestChannel n ∧
           call_responseChannel c = responseChannel n
  | LHandle _ _ req res => ∃ n, req = requestChannel n ∧ res = responseChannel n
  | LRequest _ res => ∃ n, res = responseChannel n
  end.

Definition topics_ok (s : State) : Prop :=
  ∀ w l, (w, l) ∈ listeners s → topic_ok l.

Lemma topics_ok_add' (w : Window) (l : Listener) (s : State) :
  topics_ok s → topic_ok l → topics_ok (addEventListener w l s).
Proof.
  intros Hs Hl w0 l0. simpl. intros [Hin|Hin]%elem_of_app.
  - by eapply Hs.
  - apply list_elem_of_singleton in Hin. by simplify_eq.
Qed.

Lemma topics_ok_run_listener' (w : Window) (event : MessageEvent)
    (l : Listener) (s : State) :
  topics_ok s → topic_ok l → topics_ok (run_listener w event l s).
Proof.
  intros Hs Hl w0 l0 Hin.
  apply run_listener_listeners' in Hin as [Hin|(h & c & -> & [= -> ->])].
  - by eapply Hs.
  - destruct Hl as (n & _ & Hn). by exists n.
Qed.

Lemma topics_ok_dispatchEvent' (w : Window) (event : MessageEvent) (s : State) :
  topics_ok s → topics_ok (dispatchEvent w event s).
Proof.
  intros Hs. unfold dispatchEvent.
  apply (fold_left_invariant_in topics_ok); [done|].
  intros x l Hl%elem_of_listeners_of' Hx. unfold invoke.
  destruct (registered w l x); [|done].
  apply topics_ok_run_listener'; [done|]. by eapply Hs.
Qed.

Lemma topics_ok_step' (s : State) (a : Action) :
  topics_ok s → topics_ok (step s a).
Proof.
  intros Hs. destruct a as [w name|h cb|h m t|i|j|w ev]; simpl.
  - by apply (topics_ok_add' w (LSetup _ None) (set_channels _ s)).
  - unfold handle. case_match; [|done].
    apply (topics_ok_add' _ (LHandle _ _ _ _)
             (set_handlers _ (postMessage _ _ _ _ s))); [done|].
    by eexists.
  - unfold request, waitChildWindowSetup. case_match; [|done]. case_match.
    + intros w0 l0. rewrite listeners_request_send.
      apply (topics_ok_add' _ (LRequest _ _) (set_promises _ s)); [done|].
      by eexists.
    + apply (topics_ok_add' _ (LSetup _ (Some _)) (set_promises _ s)); [done|].
      by eexists.
  - unfold deliver. repeat case_match; try done.
    by apply topics_ok_dispatchEvent'.
  - unfold settle. case_match; [|done]. intros w0 l0.
    rewrite listeners_run_job'. apply Hs.
  - by apply topics_ok_dispatchEvent'.
Qed.

Lemma topics_ok_run' (acts : list Action) : topics_ok (run acts init).
Proof.
  unfold run. apply (fold_left_invariant topics_ok).
  - intros w l Hin. by apply elem_of_nil in Hin.
  - intros x a Hx. by apply topics_ok_step'.
Qed.

Lemma not_setup_truthy (b : option bool) : b ≠ Some true → truthy b = false.
Proof. by destruct b as [[]|]. Qed.

(** A request envelope settles no [request] call. *)
Lemma request_topic_promises' (w : Window) (event : MessageEvent) (n : string)
    (s : State) :
  topics_ok s → channel (event_data event) = requestChannel n →
  isSetup (event_data event) ≠ Some true →
  promises (dispatchEvent w event s) = promises s.
Proof.
  intros Hs Hc Hns%not_setup_truthy. unfold dispatchEvent.
  apply (fold_left_invariant_in (λ x, promises x = promises s)); [done|].
  intros x l Hl%elem_of_listeners_of' Hx. unfold invoke.
  destruct (registered w l x); [|done]. rewrite <- Hx.
  destruct l as [h waiter|k cb req res|r res]; unfold run_listener in *; simpl.
  - by rewrite onMessage_not_setup.
  - apply promises_handle_messageHandler'.
  - rewrite request_messageHandler_skip'; [done|].
    destruct (Hs _ _ Hl) as (n' & ->). rewrite Hc.
    apply request_response_distinct.
Qed.

(** An envelope that is not a setup announcement has nothing posted. *)
Lemma non_setup_inflight' (w : Window) (event : MessageEvent) (s : State) :
  isSetup (event_data event) ≠ Some true →
  inflight (dispatchEvent w event s) = inflight s.
Proof.
  intros Hn%not_setup_truthy. unfold dispatchEvent.
  apply (fold_left_invariant (λ x, inflight x = inflight s)); [done|].
  intros x l Hx. unfold invoke. destruct (registered w l x); [|done].
  rewrite <- Hx. destruct l as [h waiter|k cb req res|r res]; unfold run_listener in *; simpl.
  - f_equal. by apply onMessage_not_setup.
  - unfold handle_messageHandler. by repeat case_match.
  - unfold request_messageHandler. repeat case_match; try done; simpl;
      unfold resolve, reject; by rewrite inflight_settle_promise'.
Qed.

(** *** Suspended calls *)















(** ** Further properties of the protocol *)

(** *** The handshake *)

(** The listener [createChannel] subscribes stays until the flag is set. *)
Definition standing (s : State) : Prop :=
  ∀ h c, channels s !! h = Some c → chan_isSetup c = false →
    (chan_window c, LSetup h None) ∈ listeners s.

Lemma length_channels_run_listener' (w : Window) (event : MessageEvent)
    (l : Listener) (s : State) :
  length (channels (run_listener w event l s)) = length (channels s).
Proof.
  destruct l as [h waiter|k cb req res|r res]; unfold run_listener in *; simpl.
  - unfold onMessage. repeat case_match; try done.
    rewrite channels_resume'. simpl. unfold set_isSetup.
    case_match; [|done]. simpl. by rewrite length_insert.
  - by rewrite channels_handle_messageHandler'.
  - by rewrite channels_request_messageHandler'.
Qed.

Lemma channels_back' (w : Window) (event : MessageEvent) (l : Listener)
    (s : State) (h : nat) (c : Channel) :
  channels (run_listener w event l s) !! h = Some c →
  ∃ c0, channels s !! h = Some c0 ∧ chan_le c0 c.
Proof.
  intros Hc.
  destruct (channels s !! h) as [c0|] eqn:Hc0.
  - destruct (channels_grow_run_listener' w event l s h c0 Hc0)
      as (c' & Hc' & Hle).
    exists c0. split; [done|]. congruence.
  - apply lookup_lt_Some in Hc. apply lookup_ge_None in Hc0.
    rewrite length_channels_run_listener' in Hc. lia.
Qed.

Lemma same_listener_standing' (l : Listener) (h : nat) :
  same_listener l (LSetup h None) = true → l = LSetup h None.
Proof.
  destruct l as [h' [c'|]| |]; simpl; try done.
  by intros ->%bool_decide_eq_true_1.
Qed.

Lemma isSetup_of_set_isSetup' (h : nat) (s : State) (c : Channel) :
  channels s !! h = Some c → isSetup_of h (set_isSetup h s) = true.
Proof.
  intros Hc. unfold set_isSetup, isSetup_of. rewrite Hc. simpl.
  by rewrite list_lookup_insert_eq by (by eapply lookup_lt_Some).
Qed.

Lemma standing_run_listener' (w : Window) (event : MessageEvent) (l : Listener)
    (s : State) :
  standing s → standing (run_listener w event l s).
Proof.
  intros Hs h c Hc Hf.
  destruct (channels_back' w event l s h c Hc) as (c0 & Hc0 & Hw & _ & Hflag).
  assert (chan_isSetup c0 = false) as Hf0.
  { destruct (chan_isSetup c0); [|done]. rewrite Hflag in Hf; done. }
  pose proof (Hs h c0 Hc0 Hf0) as Hin. rewrite <- Hw in Hin.
  destruct (same_listener l (LSetup h None)) eqn:Hsame.
  2:{ apply run_listener_keeps'; [done|]. simpl. intros [_ E]. congruence. }
  apply same_listener_standing' in Hsame as ->. unfold run_listener in *.
  simpl in *.
  unfold onMessage in Hc |- *. rewrite Hc0 in Hc |- *.
  destruct (negb (bool_decide (event_origin event = location_origin w)));
    [done|].
  destruct (negb (bool_decide (channel (event_data event) = _))); [done|].
  destruct (truthy _); [|done]. exfalso. simpl in Hc.
  pose proof (isSetup_of_set_isSetup' h s c0 Hc0) as Ht.
  unfold isSetup_of in Ht. rewrite Hc in Ht. congruence.
Qed.

Lemma standing_dispatchEvent' (w : Window) (event : MessageEvent) (s : State) :
  standing s → standing (dispatchEvent w event s).
Proof.
  intros Hs. unfold dispatchEvent.
  apply (fold_left_invariant standing); [done|].
  intros x l Hx. unfold invoke. destruct (registered w l x); [|done].
  by apply standing_run_listener'.
Qed.

Lemma standing_frame' (s s' : State) :
  standing s → channels s' = channels s →
  (∀ e, e ∈ listeners s → e ∈ listeners s') → standing s'.
Proof.
  intros Hs Hc Hl h c Hh Hf. rewrite Hc in Hh. by apply Hl, Hs.
Qed.

Lemma standing_step' (s : State) (a : Action) : standing s → standing (step s a).
Proof.
  intros Hs. destruct a as [w name|h cb|h m t|i|j|w ev]; simpl.
  - intros h c. simpl. intros Hc Hf.
    apply lookup_app_Some in Hc as [Hc|[Hlen Hc]].
    + apply elem_of_app. left. by apply Hs.
    + apply elem_of_app. right. apply list_elem_of_singleton.
      destruct (h - length (channels s)) as [|d] eqn:Hd; [|by destruct d].
      simpl in Hc. simplify_eq. simpl. f_equal. f_equal. lia.
  - apply (standing_frame' s); [done|apply channels_handle'|].
    intros e He. unfold handle. case_match; [|done].
    simpl. apply elem_of_app. by left.
  - apply (standing_frame' s); [done|apply channels_request'|].
    intros e He. unfold request, waitChildWindowSetup.
    repeat case_match; try done.
    + by apply (elem_of_resume' _ _ (Some _)).
    + simpl. apply elem_of_app; by left.
  - unfold deliver. repeat case_match; try done.
    apply standing_dispatchEvent'. by apply (standing_frame' s).
  - unfold settle. case_match; [|done].
    apply (standing_frame' s); [done|by rewrite channels_run_job'|].
    intros e He. by rewrite listeners_run_job'.
  - by apply standing_dispatchEvent'.
Qed.

Lemma standing_run' (acts : list Action) : standing (run acts init).
Proof.
  unfold run. apply (fold_left_invariant standing).
  - intros h c Hc. simpl in Hc. by rewrite lookup_nil in Hc.
  - intros x a Hx. by apply standing_step'.
Qed.

Lemma standing_sets_flag' (w : Window) (h : nat) (c : Channel)
    (event : MessageEvent) (s : State) :
  standing s → channels s !! h = Some c → chan_window c = w →
  setup_announcement w (chan_name c) event →
  isSetup_of h (dispatchEvent w event s) = true.
Proof.
  intros Hs Hc Hw Ha.
  assert (∀ ls x,
            (∃ c', channels x !! h = Some c' ∧ chan_name c' = chan_name c) →
            isSetup_of h x = true ∨
              ((w, LSetup h None) ∈ listeners x ∧ LSetup h None ∈ ls) →
            isSetup_of h (fold_left (invoke w event) ls x) = true) as Hfold.
  { induction ls as [|l ls IH]; intros x Hcx Hx; simpl.
    { destruct Hx as [Hx|[_ Hx]]; [done|]. by apply elem_of_nil in Hx. }
    destruct Hcx as (c' & Hc' & Hn).
    apply IH.
    { destruct (channels_grow_invoke' w event x l h c' Hc')
        as (c2 & Hc2 & _ & Hn2 & _).
      exists c2. split; [done|congruence]. }
    destruct Hx as [Hx|[Hin Hl]].
    { left. eapply isSetup_of_grow'; [apply channels_grow_invoke'|done]. }
    unfold invoke.
    destruct (same_listener l (LSetup h None)) eqn:Hsame.
    - apply same_listener_standing' in Hsame as ->. left.
      rewrite registered_elem_of' by done. unfold run_listener. simpl.
      rewrite (onMessage_announced' w h None event x c' Hc')
        by (by rewrite Hn).
      simpl. unfold isSetup_of. simpl.
      by apply (isSetup_of_set_isSetup' h x c').
    - right. split.
      + destruct (registered w l x); [|done].
        apply run_listener_keeps'; [done|]. simpl. intros [_ E]. congruence.
      + apply elem_of_cons in Hl as [<-|Hl]; [|done].
        by rewrite same_listener_refl' in Hsame. }
  apply Hfold; [by exists c|].
  destruct (chan_isSetup c) eqn:Hf.
  - left. by rewrite (isSetup_of_lookup' h s c).
  - right. pose proof (Hs h c Hc Hf) as Hin. rewrite Hw in Hin.
    split; [done|]. by apply elem_of_listeners_of'.
Qed.

(** *** Subscriptions of request calls *)

(** The promises that have a listener subscribed on their behalf, one entry
    per listener: a [request] call is subscribed while it waits for setup
    and from the moment it subscribes for its response. *)
Definition subscriptions (s : State) : list nat :=
  omap (λ e : Window * Listener, listener_promise e.2) (listeners s).

Lemma same_listener_promise_eq' (a b : Listener) :
  same_listener a b = true → listener_promise a = listener_promise b.
Proof.
  destruct a as [? [?|]| |], b as [? [?|]| |]; simpl; try done;
    intros ?%bool_decide_eq_true_1; congruence.
Qed.

Lemma subscriptions_remove' (w : Window) (l : Listener) (s : State) :
  NoDup (subscriptions s) → registered w l s = true →
  NoDup (subscriptions (removeEventListener w l s)) ∧
  ∀ r, r ∈ subscriptions (removeEventListener w l s) ↔
       r ∈ subscriptions s ∧ listener_promise l ≠ Some r.
Proof.
  intros Hnd (l' & Hl' & Hsame)%registered_true'.
  unfold subscriptions, removeEventListener. cbn [listeners set_listeners].
  split; [by apply NoDup_omap_filter|].
  intros r. rewrite !list_elem_of_omap. split.
  - intros (e & [Hkeep He]%list_elem_of_filter & Hr). split; [by exists e|].
    intros Hl. apply Hkeep.
    assert (e = (w, l')) as ->; [|done].
    apply (omap_unique _ _ _ _ r Hnd He Hl' Hr). simpl.
    by rewrite <- (same_listener_promise_eq' _ _ Hsame).
  - intros [(e & He & Hr) Hl]. exists e. split; [|done].
    apply list_elem_of_filter. split; [|done]. intros [_ Hs].
    apply same_listener_promise_eq' in Hs. congruence.
Qed.

Lemma onMessage_cases' (w : Window) (h : nat) (waiter : option RequestCall)
    (event : MessageEvent) (s : State) :
  onMessage w h waiter event s = s ∨
  onMessage w h waiter event s =
    resume w waiter (removeEventListener w (LSetup h waiter) (set_isSetup h s)).
Proof. unfold onMessage. repeat case_match; by (left + right). Qed.

Lemma request_messageHandler_cases' (w : Window) (r : nat) (res : string)
    (event : MessageEvent) (s : State) :
  state_of (request_messageHandler w r res event s) = s ∨
  state_of (request_messageHandler w r res event s) =
    removeEventListener w (LRequest r res)
      (settle_promise r (completion (event_data event)) s).
Proof.
  unfold request_messageHandler, completion, resolve, reject.
  repeat case_match; by (left + right).
Qed.

(** No [request] call ever holds two subscriptions. *)
Lemma subscriptions_run_listener (w : Window) (event : MessageEvent)
    (l : Listener) (s : State) :
  NoDup (subscriptions s) → registered w l s = true →
  NoDup (subscriptions (run_listener w event l s)).
Proof.
  intros Hnd Hreg. destruct l as [h waiter|k cb req res|r' res];
    unfold run_listener; simpl.
  - destruct (onMessage_cases' w h waiter event s) as [->| ->]; [done|].
    assert (registered w (LSetup h waiter) (set_isSetup h s) = true) as Hreg'.
    { unfold registered. by rewrite listeners_set_isSetup'. }
    assert (NoDup (subscriptions (set_isSetup h s))) as Hnd'.
    { unfold subscriptions. by rewrite listeners_set_isSetup'. }
    destruct (subscriptions_remove' w _ _ Hnd' Hreg') as [Hnd2 Hin2].
    destruct waiter as [c|]; simpl; [|done].
    unfold subscriptions. rewrite listeners_request_send, omap_app. simpl.
    apply NoDup_app. split; [done|]. split; [|apply NoDup_singleton].
    intros r Hr ->%list_elem_of_singleton.
    apply Hin2 in Hr as [_ Hr]. by apply Hr.
  - unfold subscriptions, handle_messageHandler. by repeat case_match.
  - destruct (request_messageHandler_cases' w r' res event s) as [->| ->];
      [done|].
    apply subscriptions_remove'.
    + unfold subscriptions. by rewrite listeners_settle_promise'.
    + unfold registered. by rewrite listeners_settle_promise'.
Qed.

Lemma subscriptions_dispatchEvent (w : Window) (event : MessageEvent)
    (s : State) :
  NoDup (subscriptions s) → NoDup (subscriptions (dispatchEvent w event s)).
Proof.
  intros Hs. unfold dispatchEvent.
  apply (fold_left_invariant (λ x, NoDup (subscriptions x))); [done|].
  intros x l Hx. unfold invoke. destruct (registered w l x) eqn:Hreg; [|done].
  by apply subscriptions_run_listener.
Qed.

Lemma subscriptions_bound (s : State) (r : nat) :
  promises_bound s → r ∈ subscriptions s → r < length (promises s).
Proof.
  intros Hb ([w l] & Hin & Hr)%list_elem_of_omap. by eapply Hb.
Qed.

Lemma subscriptions_add_new (s : State) :
  NoDup (subscriptions s) → promises_bound s →
  NoDup (subscriptions s ++ [length (promises s)]).
Proof.
  intros Hnd Hb. apply NoDup_app. split; [done|].
  split; [|apply NoDup_singleton].
  intros r Hr%(subscriptions_bound _ _ Hb) ->%list_elem_of_singleton. lia.
Qed.

Lemma subscriptions_step (s : State) (a : Action) :
  NoDup (subscriptions s) → promises_bound s →
  NoDup (subscriptions (step s a)).
Proof.
  intros Hs Hb. destruct a as [w name|h cb|h m t|i|j|w ev]; simpl.
  - unfold subscriptions. simpl. rewrite omap_app. simpl. by rewrite app_nil_r.
  - unfold handle. case_match; [|done].
    unfold subscriptions. simpl. rewrite omap_app. simpl. by rewrite app_nil_r.
  - unfold request, waitChildWindowSetup. case_match; [|done]. case_match.
    + unfold subscriptions. rewrite listeners_request_send, omap_app. simpl.
      by apply subscriptions_add_new.
    + unfold subscriptions. simpl. rewrite omap_app. simpl.
      by apply subscriptions_add_new.
  - unfold deliver. repeat case_match; try done.
    by apply subscriptions_dispatchEvent.
  - unfold settle. case_match; [|done].
    unfold subscriptions. by rewrite listeners_run_job'.
  - by apply subscriptions_dispatchEvent.
Qed.


(** *** Which callbacks an event invokes *)

(** The event passes the guards and the log line of a [handle] listener on
    topic [req] in window [w]. *)
Definition serves (w : Window) (event : MessageEvent) (req : string) : bool :=
  bool_decide (event_origin event = location_origin w)
  && bool_decide (channel (event_data event) = req)
  && negb (truthy (isSetup (event_data event)))
  && stringifiable_msg (event_data event).

Lemma handle_messageHandler_serves (w : Window) (k : nat) (cb : Callback)
    (req res : string) (event : MessageEvent) (s : State) :
  state_of (handle_messageHandler w k cb req res event s) =
    if serves w event req
    then set_jobs (jobs s ++ [job_for w cb res event])
           (set_calls (calls s ++ [(k, data (event_data event))]) s)
    else s.
Proof.
  unfold handle_messageHandler, serves.
  destruct (bool_decide (event_origin event = _)); simpl; [|done].
  destruct (bool_decide (channel (event_data event) = _)); simpl; [|done].
  destruct (truthy _); simpl; [done|].
  by destruct (stringifiable_msg _).
Qed.

Lemma serves_valid (w : Window) (event : MessageEvent) (req : string) :
  valid_request w req event → stringifiable_msg (event_data event) = true →
  serves w event req = true.
Proof.
  intros (Ho & Hc & Hs) Hj. unfold serves.
  rewrite !bool_decide_eq_true_2, Hj by done.
  by rewrite not_setup_truthy.
Qed.

(** The invocations an event causes among the listeners [ls], and the
    callback promises they leave pending: one for each [handle] listener the
    event passes, in order. *)
Definition invoked (w : Window) (event : MessageEvent) (ls : list Listener)
    : list (nat * value) :=
  omap (λ l, match l with
             | LHandle k _ req _ =>
                 if serves w event req then Some (k, data (event_data event))
                 else None
             | _ => None
             end) ls.

Definition spawned (w : Window) (event : MessageEvent) (ls : list Listener)
    : list Job :=
  omap (λ l, match l with
             | LHandle _ cb req res =>
                 if serves w event req then Some (job_for w cb res event)
                 else None
             | _ => None
             end) ls.

Lemma run_listener_invoked' (w : Window) (event : MessageEvent) (l : Listener)
    (s : State) :
  calls (run_listener w event l s) = calls s ++ invoked w event [l] ∧
  jobs (run_listener w event l s) = jobs s ++ spawned w event [l].
Proof.
  unfold invoked, spawned.
  destruct l as [h waiter|k cb req res|r res]; unfold run_listener; simpl.
  - by rewrite calls_onMessage, jobs_onMessage, !app_nil_r.
  - rewrite handle_messageHandler_serves.
    destruct (serves w event req); simpl; by rewrite ?app_nil_r.
  - rewrite !app_nil_r. unfold request_messageHandler.
    repeat case_match; try done; simpl;
      unfold resolve, reject;
      by rewrite calls_settle_promise', jobs_settle_promise'.
Qed.

Lemma fold_invoked' (w : Window) (event : MessageEvent) (ls : list Listener)
    (s : State) :
  (∀ k cb req res, LHandle k cb req res ∈ ls →
     (w, LHandle k cb req res) ∈ listeners s) →
  calls (fold_left (invoke w event) ls s) = calls s ++ invoked w event ls ∧
  jobs (fold_left (invoke w event) ls s) = jobs s ++ spawned w event ls.
Proof.
  revert s. induction ls as [|l ls IH]; intros s Hs; simpl.
  { by rewrite !app_nil_r. }
  assert (calls (invoke w event s l) = calls s ++ invoked w event [l] ∧
          jobs (invoke w event s l) = jobs s ++ spawned w event [l])
    as [Hc Hj].
  { unfold invoke. destruct (registered w l s) eqn:Hreg.
    - apply run_listener_invoked'.
    - destruct l as [|k cb req res|]; simpl; rewrite ?app_nil_r; try done.
      rewrite registered_elem_of' in Hreg; [done|].
      apply Hs, elem_of_cons. by left. }
  destruct (IH (invoke w event s l)) as [Hc' Hj'].
  { intros k cb req res Hin. unfold invoke.
    assert ((w, LHandle k cb req res) ∈ listeners s) as Hin'
      by (apply Hs, elem_of_cons; by right).
    destruct (registered w l s); [|done]. by apply run_listener_keeps_handle'. }
  rewrite Hc', Hj', Hc, Hj, <- !app_assoc.
  unfold invoked, spawned. simpl.
  by destruct l as [|k cb req res|]; simpl; try destruct (serves w event req).
Qed.

(** An event invokes exactly the callbacks of the [handle] listeners it
    passes in the window it reaches, each once and in the order of
    registration, and leaves one callback promise for each. *)
Lemma dispatchEvent_invoked (w : Window) (event : MessageEvent) (s : State) :
  calls (dispatchEvent w event s) =
    calls s ++ invoked w event (listeners_of w s) ∧
  jobs (dispatchEvent w event s) =
    jobs s ++ spawned w event (listeners_of w s).
Proof.
  unfold dispatchEvent. apply fold_invoked'.
  intros k cb req res Hin. by apply elem_of_listeners_of'.
Qed.

Lemma served_invoked (w : Window) (k : nat) (cb : Callback) (req res : string)
    (event : MessageEvent) (s : State) :
  (w, LHandle k cb req res) ∈ listeners s →
  valid_request w req event → stringifiable_msg (event_data event) = true →
  (k, data (event_data event)) ∈ invoked w event (listeners_of w s) ∧
  job_for w cb res event ∈ spawned w event (listeners_of w s).
Proof.
  intros Hin%elem_of_listeners_of' Hv Hj.
  split; apply list_elem_of_omap; exists (LHandle k cb req res);
    (split; [done|]); simpl; by rewrite serves_valid.
Qed.

(** *** Which request envelopes a step posts *)

(** The event is a setup announcement for channel [h], as [onMessage] in
    window [w] checks it. *)
Definition announces (w : Window) (event : MessageEvent) (s : State)
    (h : nat) : bool :=
  match channels s !! h with
  | Some c =>
      bool_decide (event_origin event = location_origin w)
      && bool_decide (channel (event_data event) = requestChannel (chan_name c))
      && truthy (isSetup (event_data event))
  | None => false
  end.

Lemma onMessage_announces (w : Window) (h : nat) (waiter : option RequestCall)
    (event : MessageEvent) (s : State) :
  onMessage w h waiter event s =
    if announces w event s h
    then resume w waiter
           (removeEventListener w (LSetup h waiter) (set_isSetup h s))
    else s.
Proof.
  unfold onMessage, announces. destruct (channels s !! h); [|done].
  destruct (bool_decide (event_origin event = _)); simpl; [|done].
  destruct (bool_decide (channel (event_data event) = _)); simpl; [|done].
  by destruct (truthy _).
Qed.


(** The [request] calls an event resumes among the listeners [ls] of
    window [w], in order. *)
Definition resumed (w : Window) (event : MessageEvent) (s : State)
    (ls : list Listener) : list RequestCall :=
  omap (λ l, match l with
             | LSetup h (Some c) =>
                 if announces w event s h then Some c else None
             | _ => None
             end) ls.

(** The request envelopes the executors of the calls [cs] hand to the
    transport from window [w]: one for each call whose payload can be
    printed. *)
Definition sent_posts (w : Window) (cs : list RequestCall) : list Post :=
  omap (λ c, if stringifiable (call_message c)
             then Some (request_post w c) else None) cs.

Lemma inflight_resume (w : Window) (waiter : option RequestCall) (s : State) :
  inflight (resume w waiter s) =
    inflight s ++ sent_posts w (option_list waiter).
Proof.
  destruct waiter as [c|]; simpl; [|by rewrite app_nil_r].
  rewrite inflight_request_send. unfold sent_posts. simpl.
  by destruct (stringifiable (call_message c)).
Qed.

Lemma run_listener_sent (w : Window) (event : MessageEvent) (l : Listener)
    (s : State) :
  inflight (run_listener w event l s) =
    inflight s ++ sent_posts w (resumed w event s [l]).
Proof.
  unfold resumed.
  destruct l as [h waiter|k cb req res|r res]; unfold run_listener; simpl.
  - rewrite onMessage_announces.
    destruct (announces w event s h) eqn:Ha.
    + rewrite inflight_resume. simpl. rewrite inflight_set_isSetup'.
      by destruct waiter.
    + destruct waiter; simpl; by rewrite app_nil_r.
  - rewrite app_nil_r. unfold handle_messageHandler. by repeat case_match.
  - rewrite app_nil_r. unfold request_messageHandler.
    repeat case_match; try done; simpl; unfold resolve, reject;
      by rewrite inflight_settle_promise'.
Qed.













(** *** Where setup listeners live *)

(** A setup listener of a channel is subscribed in the window the channel
    was created in. *)
Definition homes (s : State) : Prop :=
  ∀ w h waiter, (w, LSetup h waiter) ∈ listeners s →
    ∃ c, channels s !! h = Some c ∧ chan_window c = w.

Lemma homes_grow (s s' : State) :
  homes s → channels_grow s s' →
  (∀ w h waiter, (w, LSetup h waiter) ∈ listeners s' →
                 (w, LSetup h waiter) ∈ listeners s) →
  homes s'.
Proof.
  intros Hs Hg Hl w h waiter Hin.
  destruct (Hs w h waiter (Hl _ _ _ Hin)) as (c & Hc & Hw).
  destruct (Hg h c Hc) as (c' & Hc' & Hw' & _).
  exists c'. split; [done|congruence].
Qed.

Lemma homes_dispatchEvent (w : Window) (event : MessageEvent) (s : State) :
  homes s → homes (dispatchEvent w event s).
Proof.
  intros Hs. unfold dispatchEvent.
  apply (fold_left_invariant homes); [done|].
  intros x l Hx. unfold invoke. destruct (registered w l x); [|done].
  apply (homes_grow x); [done|apply channels_grow_run_listener'|].
  intros w0 h0 waiter Hin.
  by apply run_listener_listeners' in Hin as [Hin|(h1 & c1 & _ & [=])].
Qed.

Lemma homes_step (s : State) (a : Action) : homes s → homes (step s a).
Proof.
  intros Hs. destruct a as [w name|h cb|h m t|i|j|w ev]; simpl.
  - intros w0 h0 waiter. simpl. intros [Hin|Hin]%elem_of_app.
    + destruct (Hs _ _ _ Hin) as (c & Hc & Hw). exists c.
      split; [|done]. by apply lookup_app_l_Some.
    + apply list_elem_of_singleton in Hin. simplify_eq.
      eexists. split; [by rewrite lookup_app_r, Nat.sub_diag|done].
  - apply (homes_grow s); [done|apply channels_grow_same', channels_handle'|].
    intros w0 h0 waiter. unfold handle. case_match; [|done]. simpl.
    intros [Hin|Hin]%elem_of_app; [done|].
    by apply list_elem_of_singleton in Hin.
  - unfold request, waitChildWindowSetup. case_match; [|done]. case_match.
    + intros w0 h0 waiter. rewrite listeners_request_send, channels_request_send'.
      simpl. intros [Hin|Hin]%elem_of_app; [by eapply Hs|].
      by apply list_elem_of_singleton in Hin.
    + intros w0 h0 waiter. simpl. intros [Hin|Hin]%elem_of_app; [by eapply Hs|].
      apply list_elem_of_singleton in Hin. simplify_eq. by eexists.
  - unfold deliver. repeat case_match; try done.
    by apply homes_dispatchEvent.
  - unfold settle. case_match; [|done]. intros w0 h0 waiter.
    rewrite listeners_run_job', channels_run_job'. apply Hs.
  - by apply homes_dispatchEvent.
Qed.

Lemma homes_run (acts : list Action) : homes (run acts init).
Proof.
  unfold run. apply (fold_left_invariant homes).
  - intros w h waiter Hin. by apply elem_of_nil in Hin.
  - intros x a Hx. by apply homes_step.
Qed.

Lemma request_call_grow (c c' : Channel) (r : nat) (m : value)
    (t : option Window) :
  chan_le c c' → request_call c' r m t = request_call c r m t.
Proof. intros (Hw & Hn & _). unfold request_call. by rewrite Hw, Hn. Qed.

(** A [request] call on a channel that is set up runs its executor at once:
    it subscribes for the response, and posts its request envelope, or
    rejects its promise when the payload cannot be printed.  It does not
    subscribe for an announcement. *)
Lemma request_proceeds (h : nat) (c : Channel) (m : value) (t : option Window)
    (s : State) :
  channels s !! h = Some c → chan_isSetup c = true →
  let call := request_call c (length (promises s)) m t in
  listeners (request h m t s) =
    listeners s ++
      [(chan_window c,
        LRequest (length (promises s)) (responseChannel (chan_name c)))] ∧
  inflight (request h m t s) =
    inflight s ++
      (if stringifiable m then [request_post (chan_window c) call] else []) ∧
  promises (request h m t s) =
    promises s ++
      [if stringifiable m then Pending else RejectedBy (NotStringifiable m)].
Proof.
  intros Hc Hf call. rewrite (request_ready' h c m t s Hc Hf). fold call.
  split; [by rewrite listeners_request_send|].
  split; [by rewrite inflight_request_send|].
  destruct (stringifiable m) eqn:Hj.
  - by rewrite request_send_stringifiable.
  - rewrite request_send_throws by done. unfold settle_promise. simpl.
    rewrite lookup_app_r, Nat.sub_diag by done. simpl.
    rewrite insert_app_r_alt, Nat.sub_diag by done. done.
Qed.

(** C4: along every execution and for every channel: the flag of a new
    channel is false; a step turns the false flag true only when it brings a
    same-origin setup announcement on the channel's request topic to the
    window the channel was created in; every such announcement reaching that
    window does turn it true; a flag that is true stays true whatever
    happens next; so after an announcement has been observed, and whatever
    happened since, a [request] call does not wait: it subscribes for its
    response at once, posting its request envelope (or, when its payload
    cannot be printed, rejecting its promise) without subscribing for a new
    announcement. *)
Theorem setup_flag_lifecycle (acts : list Action) (h : nat) (c : Channel) :
  let s := run acts init in
  let w := chan_window c in
  channels s !! h = Some c →
  (∀ w' name x,
     channels (createChannel w' name x) !! length (channels x) =
       Some (Build_Channel w' name false)) ∧
  (∀ a,
     chan_isSetup c = false → isSetup_of h (step s a) = true →
     ∃ event, arrival a s = Some (w, event) ∧
              setup_announcement w (chan_name c) event) ∧
  (∀ event,
     setup_announcement w (chan_name c) event →
     isSetup_of h (dispatchEvent w event s) = true) ∧
  (∀ acts', isSetup_of h s = true → isSetup_of h (run acts' s) = true) ∧
  (∀ event acts' m t,
     setup_announcement w (chan_name c) event →
     let s' := run acts' (dispatchEvent w event s) in
     let call := request_call c (length (promises s')) m t in
     listeners (request h m t s') =
       listeners s' ++
         [(w, LRequest (length (promises s')) (responseChannel (chan_name c)))] ∧
     inflight (request h m t s') =
       inflight s' ++ (if stringifiable m then [request_post w call] else []) ∧
     promises (request h m t s') =
       promises s' ++
         [if stringifiable m then Pending else RejectedBy (NotStringifiable m)]).
Proof.
  intros s w Hc.
  assert (∀ event, setup_announcement w (chan_name c) event →
                   isSetup_of h (dispatchEvent w event s) = true) as Hset.
  { intros event Ha.
    by apply (standing_sets_flag' _ h c event s (standing_run' acts)). }
  split; [|split; [|split; [|split]]].
  - intros w' name x. simpl. by rewrite lookup_app_r, Nat.sub_diag.
  - intros a Hf Hstep.
    destruct (step_sets_flag' s a h c Hc Hf Hstep)
      as (w' & event & Harr & Ha & waiter & Hin).
    destruct (homes_run acts w' h waiter Hin) as (c' & Hc' & Hw').
    assert (c' = c) as -> by (unfold s in Hc; congruence).
    subst w'. by exists event.
  - done.
  - intros acts'. apply run_keeps_flag'.
  - intros event acts' m t Ha s' call.
    assert (channels_grow s s') as Hg.
    { eapply channels_grow_trans'; [apply channels_grow_dispatchEvent'|].
      unfold s', run. apply (fold_left_invariant (channels_grow _));
        [apply channels_grow_refl'|].
      intros x a Hx. eapply channels_grow_trans'; [done|].
      apply channels_grow_step'. }
    destruct (Hg h c Hc) as (c' & Hc' & Hle).
    assert (chan_isSetup c' = true) as Hf'.
    { rewrite <- (isSetup_of_lookup' h s' c' Hc').
      by apply run_keeps_flag', Hset. }
    destruct (request_proceeds h c' m t s' Hc' Hf') as (Hl & Hi & Hp).
    rewrite (request_call_grow c c') in Hi by done.
    destruct Hle as (Hw & Hn & _). rewrite Hw, Hn in Hl. rewrite Hw in Hi.
    done.
Qed.

(** *** Calls waiting for the announcement *)









(** *** The responder, request after request *)



(** C10: along every execution, a valid same-origin request envelope that
    arrives without a sender handle, with a payload the log line can print,
    still has the callback invoked on its payload, with its promise left
    pending; nothing is posted and no [request] call is resolved or
    rejected, neither while the listeners run nor when the callback's
    promise settles, which only retires that promise.  The reactions chained
    on it end without an exception when it is fulfilled, whether or not the
    result can be printed, and when it is rejected with an object; they end
    in an exception, thrown by the [.catch] branch, when it is rejected with
    [null] or [undefined]. *)
Theorem absent_source_unanswered (acts : list Action) (w : Window) (k : nat)
    (cb : Callback) (n : string) (event : MessageEvent) :
  let s := run acts init in
  let res := responseChannel n in
  (w, LHandle k cb (requestChannel n) res) ∈ listeners s →
  valid_request w (requestChannel n) event →
  stringifiable_msg (event_data event) = true →
  event_source event = None →
  let s1 := dispatchEvent w event s in
  calls s1 = calls s ++ invoked w event (listeners_of w s) ∧
  (k, data (event_data event)) ∈ invoked w event (listeners_of w s) ∧
  jobs s1 = jobs s ++ spawned w event (listeners_of w s) ∧
  job_for w cb res event ∈ spawned w event (listeners_of w s) ∧
  inflight s1 = inflight s ∧
  promises s1 = promises s ∧
  ∀ j s',
    jobs s' !! j = Some (job_for w cb res event) →
    settle j s' = set_jobs (delete j (jobs s')) s' ∧
    ∀ x, run_job (job_for w cb res event) x =
           match cb (data (event_data event)) with
           | RejectedNullish => Throws NoProperties x
           | _ => Returns x
           end.
Proof.
  intros s res Hin Hv Hp Hs s1. subst s1.
  destruct (dispatchEvent_invoked w event s) as [Hc Hjobs].
  destruct (served_invoked w k cb _ res event s Hin Hv Hp) as [Hi Hsp].
  split; [done|]. split; [done|]. split; [done|]. split; [done|].
  split; [|split].
  - apply non_setup_inflight'. by destruct Hv as (_ & _ & ?).
  - apply (request_topic_promises' w event n); [apply topics_ok_run'|..];
      by destruct Hv as (_ & ? & ?).
  - intros j s' Hj. split.
    + rewrite (settle_lookup' j _ s' Hj). by rewrite run_job_without_source'.
    + intros x. by rewrite run_job_completion.
Qed.

(** *** A result the log line cannot print *)

Lemma step_settled' (s : State) (a : Action) (r : nat) (y : PromiseState) :
  promises s !! r = Some y → y ≠ Pending → promises (step s a) !! r = Some y.
Proof.
  intros Hp Hy. destruct a as [w name|h cb|h m t|i|j|w ev]; simpl.
  - done.
  - unfold handle. by case_match.
  - unfold request, waitChildWindowSetup. case_match; [|done]. case_match.
    + apply request_send_settled; [|done]. simpl. by apply lookup_app_l_Some.
    + simpl. by apply lookup_app_l_Some.
  - unfold deliver. repeat case_match; try done.
    unfold dispatchEvent.
    apply (fold_left_invariant (λ x, promises x !! r = Some y)); [done|].
    intros x l Hx. unfold invoke. destruct (registered _ l x); [|done].
    by apply run_listener_settled'.
  - unfold settle. case_match; [|done]. by rewrite promises_run_job.
  - unfold dispatchEvent.
    apply (fold_left_invariant (λ x, promises x !! r = Some y)); [done|].
    intros x l Hx. unfold invoke. destruct (registered _ l x); [|done].
    by apply run_listener_settled'.
Qed.

Lemma run_settled (acts : list Action) (s : State) (r : nat)
    (y : PromiseState) :
  promises s !! r = Some y → y ≠ Pending → promises (run acts s) !! r = Some y.
Proof.
  intros Hp Hy. unfold run.
  apply (fold_left_invariant (λ x, promises x !! r = Some y)); [done|].
  intros x a Hx. by apply step_settled'.
Qed.

(** Along every execution, once a requester is set up and a responder of the
    same origin listens on the channel (two windows that have the origin of
    their URL, which is not ["null"]), a call [request(q)] addressed to the
    responder's window has the callback invoked on [q], and when the
    callback fulfills with a result [R] that can be printed, the response
    that comes back resolves the call's promise with exactly [R]. *)
Lemma printable_result_resolves (acts : list Action) (h : nat) (c : Channel)
    (responder : Window) (k : nat) (cb : Callback) (q R : value) :
  let s := run acts init in
  let res := responseChannel (chan_name c) in
  let r := length (promises s) in
  let p := chan_window c in
  let event := event_of (request_post p (request_call c r q (Some responder))) in
  channels s !! h = Some c → chan_isSetup c = true →
  (responder, LHandle k cb (requestChannel (chan_name c)) res) ∈ listeners s →
  location_origin p = location_origin responder →
  location_origin p ≠ "null" →
  opaque_origin p = false → opaque_origin responder = false →
  stringifiable q = true →
  cb q = Fulfilled R → stringifiable R = true →
  let s1 := request h q (Some responder) s in
  let s2 := deliver (length (inflight s)) s1 in
  promises s1 !! r = Some Pending ∧
  (k, q) ∈ calls s2 ∧
  (∃ j, jobs s2 !! j = Some (job_for responder cb res event)) ∧
  ∀ j, jobs s2 !! j = Some (job_for responder cb res event) →
    promises (deliver (length (inflight s2)) (settle j s2)) !! r =
      Some (Resolved R).
Proof.
  intros s res r p event Hc Hf Hh Ho Hn Hop Hor Hq HR HjR s1 s2.
  destruct (request_served acts h c responder k cb q Hc Hf Hh Ho Hop Hq)
    as (Hp & Hcalls & Hjobs & Hl2 & Hp2).
  split; [done|]. split; [done|]. split; [done|].
  intros j Hj. fold s s1 s2 p in Hl2, Hp2.
  assert (stamped_origin p = location_origin p) as Hsp
    by (unfold stamped_origin; by rewrite Hop).
  assert (stamped_origin responder = location_origin p) as Hsr
    by (unfold stamped_origin; by rewrite Hor).
  set (post := {| post_target := p; post_sender := responder;
                  post_msg := success_envelope res R;
                  post_targetOrigin := ExactOrigin (location_origin p) |}).
  assert (settle j s2 =
            set_inflight (inflight s2 ++ [post])
              (set_jobs (delete j (jobs s2)) s2)) as Hs3.
  { rewrite (settle_lookup' j _ s2 Hj).
    rewrite (run_job_with_source' _ p) by done.
    unfold response_posts, response_envelopes. simpl.
    rewrite HR, HjR, Hsp. by rewrite bool_decide_eq_false_2. }
  rewrite (deliver_last' _ (inflight s2) post); [|by rewrite Hs3|].
  2:{ simpl. rewrite Hop. by apply bool_decide_eq_true_2. }
  rewrite (response_settles' p _ r res);
    [done|by rewrite Hs3..|done|done|done|done].
Qed.

(** C1, where the code departs from it: in the same setting, when the
    callback fulfills with a result [R] that [JSON.stringify] cannot print
    (a [BigInt], an object that contains itself), the responder posts the
    success envelope, throws on its log line and posts an error envelope
    from its [.catch]; the requester throws on its own log line when the
    success envelope arrives, so its promise stays pending and its listener
    subscribed; the error envelope then rejects the promise with the
    message of the exception.  The call is rejected, and is never resolved
    with [R]. *)
Theorem unprintable_result_rejects (acts : list Action) (h : nat) (c : Channel)
    (responder : Window) (k : nat) (cb : Callback) (q R : value) :
  let s := run acts init in
  let res := responseChannel (chan_name c) in
  let r := length (promises s) in
  let p := chan_window c in
  let event := event_of (request_post p (request_call c r q (Some responder))) in
  let failure := error_envelope res (type_error (NotStringifiable R)) in
  let response m :=
    {| post_target := p; post_sender := responder; post_msg := m;
       post_targetOrigin := ExactOrigin (location_origin p) |} in
  channels s !! h = Some c → chan_isSetup c = true →
  (responder, LHandle k cb (requestChannel (chan_name c)) res) ∈ listeners s →
  location_origin p = location_origin responder →
  location_origin p ≠ "null" →
  opaque_origin p = false → opaque_origin responder = false →
  stringifiable q = true →
  cb q = Fulfilled R → stringifiable R = false →
  let s1 := request h q (Some responder) s in
  let s2 := deliver (length (inflight s)) s1 in
  promises s1 !! r = Some Pending ∧
  (k, q) ∈ calls s2 ∧
  (∃ j, jobs s2 !! j = Some (job_for responder cb res event)) ∧
  ∀ j, jobs s2 !! j = Some (job_for responder cb res event) →
    let s3 := settle j s2 in
    let s4 := deliver (length (inflight s2)) s3 in
    let s5 := deliver (length (inflight s2)) s4 in
    inflight s3 =
      inflight s2 ++ [response (success_envelope res R); response failure] ∧
    promises s4 !! r = Some Pending ∧
    inflight s4 = inflight s2 ++ [response failure] ∧
    promises s5 !! r = Some (RejectedWith (reject_reason failure)) ∧
    ∀ acts', promises (run acts' s5) !! r ≠ Some (Resolved R).
Proof.
  intros s res r p event failure response Hc Hf Hh Ho Hn Hop Hor Hq HR HjR s1 s2.
  destruct (request_served acts h c responder k cb q Hc Hf Hh Ho Hop Hq)
    as (Hp & Hcalls & Hjobs & Hl2 & Hp2).
  split; [done|]. split; [done|]. split; [done|].
  intros j Hj s3 s4 s5. fold s s1 s2 p in Hl2, Hp2.
  assert (stamped_origin p = location_origin p) as Hsp
    by (unfold stamped_origin; by rewrite Hop).
  assert (stamped_origin responder = location_origin p) as Hsr
    by (unfold stamped_origin; by rewrite Hor).
  assert (s3 =
            set_inflight
              (inflight s2 ++
                 [response (success_envelope res R); response failure])
              (set_jobs (delete j (jobs s2)) s2)) as Hs3.
  { unfold s3. rewrite (settle_lookup' j _ s2 Hj).
    rewrite (run_job_with_source' _ p) by done.
    unfold response_posts, response_envelopes. simpl.
    rewrite HR, HjR, Hsp. by rewrite bool_decide_eq_false_2. }
  assert (s4 =
            set_inflight (inflight s2 ++ [response failure])
              (set_jobs (delete j (jobs s2)) s2)) as Hs4.
  { unfold s4, deliver. rewrite Hs3. simpl.
    rewrite (list_lookup_middle _ _ _ (length (inflight s2))) by done.
    simpl. rewrite Hop, bool_decide_eq_true_2 by done. simpl.
    rewrite dispatchEvent_unprintable; [|done|done].
    by rewrite delete_middle. }
  assert (promises s5 !! r = Some (RejectedWith (reject_reason failure)))
    as Hp5.
  { unfold s5.
    rewrite (deliver_last' _ (inflight s2) (response failure));
      [|by rewrite Hs4|].
    2:{ simpl. rewrite Hop. by apply bool_decide_eq_true_2. }
    rewrite (response_settles' p _ r res);
      [done|by rewrite Hs4..|done|done|done|done]. }
  split; [by rewrite Hs3|]. split; [by rewrite Hs4|]. split; [by rewrite Hs4|].
  split; [done|].
  intros acts'. by rewrite (run_settled acts' s5 r _ Hp5).
Qed.

(** ** Further properties *)

(** *** What settles a request *)







(** *** Listeners that unsubscribe *)

Lemma not_elem_of_removeEventListener' (w : Window) (l : Listener) (s : State) :
  (w, l) ∉ listeners (removeEventListener w l s).
Proof.
  unfold removeEventListener. cbn [listeners set_listeners].
  intros [Hn _]%list_elem_of_filter. apply Hn. split; [done|].
  exact (same_listener_refl' l).
Qed.

Lemma onMessage_response_topic' (w : Window) (h : nat)
    (waiter : option RequestCall) (event : MessageEvent) (s : State)
    (n : string) :
  channel (event_data event) = responseChannel n →
  onMessage w h waiter event s = s.
Proof.
  intros Hc. unfold onMessage. destruct (channels s !! h) as [c|]; [|done].
  rewrite (bool_decide_eq_false_2 (channel _ = _)).
  - by destruct (bool_decide _).
  - rewrite Hc. intros E. by apply eq_sym, request_response_distinct in E.
Qed.

(** An envelope on a response topic that the log lines cannot print changes
    nothing, whichever listeners it reaches. *)
Lemma unprintable_response_ignored (w : Window) (event : MessageEvent)
    (n : string) (s : State) :
  channel (event_data event) = responseChannel n →
  stringifiable_msg (event_data event) = false →
  dispatchEvent w event s = s.
Proof.
  intros Hc Hj. unfold dispatchEvent. generalize (listeners_of w s) as ls.
  induction ls as [|l ls IH]; simpl; [done|].
  assert (run_listener w event l s = s) as Hl.
  { destruct l as [h waiter|k cb req res|r res]; unfold run_listener; simpl.
    - by apply (onMessage_response_topic' w h waiter event s n).
    - unfold handle_messageHandler. rewrite Hj. by repeat case_match.
    - unfold request_messageHandler. rewrite Hj. by repeat case_match. }
  unfold invoke at 2. rewrite Hl. by destruct (registered w l s).
Qed.

(** X8: a response that can be printed unsubscribes the [request] listeners
    it reaches: once a same-origin envelope on a response topic has reached
    window [w], no [request] listener for that topic is left there.  One
    that cannot be printed unsubscribes none: every listener throws on its
    log line before it removes itself, and the state is as before. *)
Theorem response_unsubscribes_when_printed (w : Window) (n : string)
    (event : MessageEvent) (s : State) :
  event_origin event = location_origin w →
  channel (event_data event) = responseChannel n →
  (stringifiable_msg (event_data event) = true →
   ∀ r, (w, LRequest r (responseChannel n))
          ∉ listeners (dispatchEvent w event s)) ∧
  (stringifiable_msg (event_data event) = false →
   dispatchEvent w event s = s).
Proof.
  intros Ho Hc. split; [|by apply (unprintable_response_ignored w event n)].
  intros Hj r Hin.
  set (e := (w, LRequest r (responseChannel n))) in Hin |- *.
  assert (∀ l x, e ∈ listeners (run_listener w event l x) → e ∈ listeners x)
    as Hold.
  { intros l x Hx. pose proof Hx as Hx0.
    apply run_listener_listeners' in Hx0 as [Hx0|(h0 & c0 & -> & _)]; [done|].
    unfold run_listener in Hx. simpl in Hx.
    by rewrite (onMessage_response_topic' w h0 _ event x n) in Hx. }
  assert (∀ ls x,
            (e ∈ listeners x → LRequest r (responseChannel n) ∈ ls) →
            e ∈ listeners (fold_left (invoke w event) ls x) → False) as Hfold.
  { induction ls as [|l ls IH]; intros x Hx Hfin; simpl in Hfin.
    { by apply Hx, elem_of_nil in Hfin. }
    apply (IH (invoke w event x l)); [|done].
    intros Hin'. unfold invoke in Hin'.
    destruct (registered w l x) eqn:Hreg.
    - pose proof (Hold l x Hin') as Hx'.
      apply Hx, elem_of_cons in Hx' as [<-|Hx']; [|done].
      exfalso. unfold run_listener in Hin'. simpl in Hin'.
      rewrite request_messageHandler_match' in Hin' by done.
      by apply not_elem_of_removeEventListener' in Hin'.
    - pose proof (registered_elem_of' _ _ _ Hin') as Hreg'.
      apply Hx, elem_of_cons in Hin' as [<-|Hin']; [|done].
      congruence. }
  apply (Hfold (listeners_of w s) s); [|done].
  intros Hs. by apply elem_of_listeners_of'.
Qed.

(** *** Subscriptions of request calls, while pending *)

(** Every pending promise has a listener subscribed for it. *)
Definition pending_subscribed (s : State) : Prop :=
  ∀ r, promises s !! r = Some Pending → r ∈ subscriptions s.

Lemma pending_subscribed_run_listener (w : Window) (event : MessageEvent)
    (l : Listener) (s : State) :
  NoDup (subscriptions s) → registered w l s = true →
  pending_subscribed s → pending_subscribed (run_listener w event l s).
Proof.
  intros Hnd Hreg Hp. destruct l as [h waiter|k cb req res|r' res];
    unfold run_listener; simpl.
  - destruct (onMessage_cases' w h waiter event s) as [->| ->]; [done|].
    assert (registered w (LSetup h waiter) (set_isSetup h s) = true) as Hreg'.
    { unfold registered. by rewrite listeners_set_isSetup'. }
    assert (NoDup (subscriptions (set_isSetup h s))) as Hnd'.
    { unfold subscriptions. by rewrite listeners_set_isSetup'. }
    destruct (subscriptions_remove' w _ _ Hnd' Hreg') as [_ Hin2].
    assert (∀ r, r ∈ subscriptions (set_isSetup h s) ↔ r ∈ subscriptions s)
      as Hsame.
    { intros r. unfold subscriptions. by rewrite listeners_set_isSetup'. }
    set (s1 := removeEventListener w (LSetup h waiter) (set_isSetup h s)) in *.
    assert (promises s1 = promises s) as Hp1 by apply promises_set_isSetup'.
    destruct waiter as [c|]; simpl.
    + intros r Hr. unfold subscriptions.
      rewrite listeners_request_send, omap_app, elem_of_app. simpl.
      destruct (decide (r = call_promise c)) as [->|Hne].
      { right. by apply list_elem_of_singleton. }
      left. apply Hin2. split; [|simpl; congruence]. apply Hsame, Hp.
      rewrite promises_request_send_ne in Hr by done. by rewrite Hp1 in Hr.
    + intros r Hr. apply Hin2. split; [|done]. apply Hsame, Hp.
      by rewrite Hp1 in Hr.
  - intros r. unfold subscriptions.
    rewrite promises_handle_messageHandler'.
    assert (listeners (handle_messageHandler w k cb req res event s) =
              listeners s) as ->
      by (unfold handle_messageHandler; by repeat case_match).
    apply Hp.
  - destruct (request_messageHandler_cases' w r' res event s) as [->| ->];
      [done|].
    set (x := completion (event_data event)).
    assert (registered w (LRequest r' res) (settle_promise r' x s) = true)
      as Hreg'.
    { unfold registered. by rewrite listeners_settle_promise'. }
    assert (NoDup (subscriptions (settle_promise r' x s))) as Hnd'.
    { unfold subscriptions. by rewrite listeners_settle_promise'. }
    destruct (subscriptions_remove' w _ _ Hnd' Hreg') as [_ Hin2].
    intros r Hr. apply Hin2. simpl in Hr.
    destruct (decide (r = r')) as [->|Hne].
    + exfalso. destruct (promises s !! r') as [y|] eqn:Hy.
      * assert (y = Pending ∨ y ≠ Pending) as [->|Hy']
          by (destruct y; [by left|by right..]).
        -- rewrite settle_promise_pending' in Hr by done.
           simplify_eq. by apply (completion_settled' (event_data event)).
        -- rewrite (settle_promise_settled' r' r' x y s Hy Hy') in Hr.
           by simplify_eq.
      * unfold settle_promise in Hr. rewrite Hy in Hr. congruence.
    + rewrite settle_promise_ne' in Hr by done. split; [|simpl; congruence].
      unfold subscriptions. rewrite listeners_settle_promise'. by apply Hp.
Qed.

Lemma pending_subscribed_dispatchEvent (w : Window) (event : MessageEvent)
    (s : State) :
  NoDup (subscriptions s) → pending_subscribed s →
  pending_subscribed (dispatchEvent w event s).
Proof.
  intros Hnd Hp. unfold dispatchEvent.
  apply (fold_left_invariant
           (λ x, NoDup (subscriptions x) ∧ pending_subscribed x)); [done|].
  intros x l [Hx Hpx]. unfold invoke.
  destruct (registered w l x) eqn:Hreg; [|done].
  split; [by apply subscriptions_run_listener|].
  by apply pending_subscribed_run_listener.
Qed.

Lemma pending_subscribed_step (s : State) (a : Action) :
  NoDup (subscriptions s) → pending_subscribed s →
  pending_subscribed (step s a).
Proof.
  intros Hnd Hp. destruct a as [w name|h cb|h m t|i|j|w ev]; simpl.
  - intros r Hr. unfold subscriptions. simpl. rewrite omap_app. simpl.
    rewrite app_nil_r. by apply Hp.
  - unfold handle. case_match; [|done]. intros r Hr.
    unfold subscriptions. simpl. rewrite omap_app. simpl.
    rewrite app_nil_r. by apply Hp.
  - unfold request, waitChildWindowSetup. case_match; [|done].
    assert (∀ r, (promises s ++ [Pending]) !! r = Some Pending →
                 r ∈ subscriptions s ++ [length (promises s)]) as Hnew.
    { intros r [Hr|[Hlen Hr]]%lookup_app_Some; apply elem_of_app.
      - left. by apply Hp.
      - right. apply list_elem_of_singleton.
        apply lookup_lt_Some in Hr. simpl in Hr. lia. }
    case_match.
    + intros r Hr. unfold subscriptions.
      rewrite listeners_request_send, omap_app. simpl. apply Hnew.
      destruct (decide (r = length (promises s))) as [->|Hne].
      * by rewrite lookup_app_r, Nat.sub_diag.
      * by rewrite promises_request_send_ne in Hr.
    + intros r Hr. unfold subscriptions. simpl. rewrite omap_app. simpl.
      by apply Hnew.
  - unfold deliver. repeat case_match; try done.
    by apply pending_subscribed_dispatchEvent.
  - unfold settle. case_match; [|done]. intros r.
    unfold subscriptions. rewrite promises_run_job, listeners_run_job'.
    apply Hp.
  - by apply pending_subscribed_dispatchEvent.
Qed.

(** X11: along every execution, no [request] call ever holds two
    subscriptions, every subscription is for a promise that exists, and a
    call whose promise is pending holds one: first its setup listener, then
    its response listener. *)
Theorem one_subscription_per_call (acts : list Action) :
  let s := run acts init in
  NoDup (subscriptions s) ∧
  (∀ r, r ∈ subscriptions s → r < length (promises s)) ∧
  (∀ r, promises s !! r = Some Pending → r ∈ subscriptions s).
Proof.
  intros s.
  assert (NoDup (subscriptions s) ∧ promises_bound s ∧ pending_subscribed s)
    as (Hnd & Hb & Hp).
  { unfold s, run.
    apply (fold_left_invariant
             (λ x, NoDup (subscriptions x) ∧ promises_bound x ∧
                   pending_subscribed x)).
    - split; [apply NoDup_nil_2|]. split; [apply promises_bound_init'|].
      intros r Hr. simpl in Hr. by rewrite lookup_nil in Hr.
    - intros x a (Hx & Hbx & Hpx).
      split; [by apply subscriptions_step|].
      split; [by apply promises_bound_step'|].
      by apply pending_subscribed_step. }
  split; [done|]. split; [|done].
  intros r Hr. by apply subscriptions_bound.
Qed.

(** *** Where responses go *)

(** How the library addresses what it posts: a request to any origin and a
    setup announcement to the sender's origin, both on a request topic;
    everything else, that is the responses, to the [window.location.origin]
    of the window that posts them, which is not ["null"]. *)
Definition addressed (p : Post) : Prop :=
  match post_targetOrigin p with
  | AnyOrigin | SenderOrigin => ∃ n, channel (post_msg p) = requestChannel n
  | ExactOrigin o => o = location_origin (post_sender p) ∧ o ≠ "null"
  end.

(** A pending callback promise was left by an event that passed the origin
    guard. *)
Definition job_ok (j : Job) : Prop :=
  event_origin (job_event j) = location_origin (job_window j).

Definition transport_ok (s : State) : Prop :=
  Forall addressed (inflight s) ∧ Forall job_ok (jobs s).

Lemma addressed_run_listener (w : Window) (event : MessageEvent)
    (l : Listener) (s : State) :
  topic_ok l → transport_ok s → transport_ok (run_listener w event l s).
Proof.
  intros Hl [Hp Hj]. split.
  - rewrite run_listener_sent. apply Forall_app. split; [done|].
    destruct l as [h [c|]| |]; try apply Forall_nil_2.
    unfold resumed, sent_posts. simpl.
    destruct (announces w event s h); [|apply Forall_nil_2]. simpl.
    destruct (stringifiable (call_message c)); [|apply Forall_nil_2].
    apply Forall_singleton. destruct Hl as (n & Hreq & _). by exists n.
  - destruct (run_listener_invoked' w event l s) as [_ ->].
    apply Forall_app. split; [done|].
    destruct l as [|k cb req res|]; try apply Forall_nil_2.
    unfold spawned. simpl. destruct (serves w event req) eqn:Hs;
      [|apply Forall_nil_2].
    apply Forall_singleton. unfold serves in Hs.
    apply andb_true_iff in Hs as [Hs _]. apply andb_true_iff in Hs as [Hs _].
    apply andb_true_iff in Hs as [Ho _]. by apply bool_decide_eq_true_1 in Ho.
Qed.

Lemma addressed_dispatchEvent (w : Window) (event : MessageEvent) (s : State) :
  topics_ok s → transport_ok s → transport_ok (dispatchEvent w event s).
Proof.
  intros Ht Hs. unfold dispatchEvent.
  apply (fold_left_invariant_in transport_ok); [done|].
  intros x l Hl%elem_of_listeners_of' Hx. unfold invoke.
  destruct (registered w l x); [|done].
  apply addressed_run_listener; [|done]. by eapply Ht.
Qed.

Lemma response_posts_addressed (jb : Job) (src : Window) :
  job_ok jb →
  Forall addressed
    (response_posts (job_window jb) (job_responseChannel jb) (job_event jb)
       src (job_result jb)).
Proof.
  intros Ho. unfold response_posts.
  destruct (bool_decide (event_origin (job_event jb) = "null")) eqn:Hn;
    [apply Forall_nil_2|].
  apply bool_decide_eq_false_1 in Hn.
  apply Forall_fmap, Forall_forall. intros m _. by split.
Qed.

Lemma addressed_step (s : State) (a : Action) :
  topics_ok s → transport_ok s → transport_ok (step s a).
Proof.
  intros Ht [Hp Hj]. destruct a as [w name|h cb|h m t|i|j|w ev]; simpl.
  - done.
  - unfold handle. case_match; [|done]. split; simpl; [|done].
    apply Forall_app. split; [done|]. apply Forall_singleton. by eexists.
  - unfold request, waitChildWindowSetup. case_match; [|done].
    case_match; [|done]. split.
    + rewrite inflight_request_send. apply Forall_app. split; [done|].
      destruct (stringifiable _); [|apply Forall_nil_2].
      apply Forall_singleton. by eexists.
    + by rewrite jobs_request_send.
  - unfold deliver. destruct (inflight s !! i) as [p|]; [|done].
    assert (transport_ok (set_inflight (delete i (inflight s)) s)) as Hs'.
    { split; simpl; [|done]. by apply Forall_delete. }
    destruct (origin_allows _ _ _); [|done].
    by apply addressed_dispatchEvent.
  - unfold settle. destruct (jobs s !! j) as [jb|] eqn:Hjb; [|done].
    pose proof (Forall_lookup_1 _ _ _ _ Hj Hjb) as Ho.
    assert (Forall job_ok (delete j (jobs s))) as Hj' by (by apply Forall_delete).
    destruct (event_source (job_event jb)) as [src|] eqn:Hsrc.
    + rewrite (run_job_with_source' jb src) by done. split; simpl; [|done].
      apply Forall_app. split; [done|]. by apply response_posts_addressed.
    + by rewrite run_job_without_source'.
  - by apply addressed_dispatchEvent.
Qed.

Lemma addressed_run (acts : list Action) : transport_ok (run acts init).
Proof.
  assert (topics_ok (run acts init) ∧ transport_ok (run acts init)) as [_ H];
    [|done].
  unfold run. apply (fold_left_invariant (λ x, topics_ok x ∧ transport_ok x)).
  - split; [|by split]. intros w l Hin. by apply elem_of_nil in Hin.
  - intros x a [Ht Hx]. split; [by apply topics_ok_step'|].
    by apply addressed_step.
Qed.

(** X10: along every execution, when the transport delivers an envelope on a
    response topic, it is to the window it was posted to, whose origin is
    not opaque and is the [window.location.origin] of the responder; the
    event is stamped with the responder's own origin, so it passes the
    origin guard there exactly when the responder's origin is not opaque:
    the response of a sandboxed responder is delivered and discarded. *)
Theorem responses_reach_responder_origin (acts : list Action) (i : nat)
    (p : Post) (n : string) (w : Window) (event : MessageEvent) :
  let s := run acts init in
  inflight s !! i = Some p →
  channel (post_msg p) = responseChannel n →
  arrival (ADeliver i) s = Some (w, event) →
  w = post_target p ∧
  opaque_origin w = false ∧
  location_origin w = location_origin (post_sender p) ∧
  event_origin event = stamped_origin (post_sender p) ∧
  (event_origin event = location_origin w ↔
   opaque_origin (post_sender p) = false).
Proof.
  intros s Hi Hc Ha. simpl in Ha. rewrite Hi in Ha.
  destruct (addressed_run acts) as [Hp _].
  pose proof (Forall_lookup_1 _ _ _ _ Hp Hi) as Hok. unfold addressed in Hok.
  destruct (post_targetOrigin p) as [| |o]; simpl in Ha.
  - destruct Hok as (n' & Hreq). rewrite Hc in Hreq.
    by apply eq_sym, request_response_distinct in Hreq.
  - destruct Hok as (n' & Hreq). rewrite Hc in Hreq.
    by apply eq_sym, request_response_distinct in Hreq.
  - destruct Hok as [-> Hn].
    destruct (opaque_origin (post_target p)) eqn:Hop; [done|]. simpl in Ha.
    destruct (bool_decide _) eqn:Ho; [|done].
    apply bool_decide_eq_true_1 in Ho. simplify_eq. simpl.
    split; [done|]. split; [done|]. split; [done|]. split; [done|].
    unfold stamped_origin.
    destruct (opaque_origin (post_sender p)); [|by rewrite Ho].
    split; [|done]. intros E. rewrite <- Ho in E. by destruct Hn.
Qed.


End Protocol.
End Full.

(** * Concrete executions *)

(** Every window on one origin. *)
Definition one_origin (w : Window) : string := "https://app.example".

(** Window 0 on one origin, every other window on another. *)
Definition two_origins (w : Window) : string :=
  match w with
  | 0 => "https://app.example"
  | _ => "https://other.example"
  end.

(** Window 0 is top-level (its own parent) and every other window is nested
    directly in it. *)
Definition child_of_top (w : Window) : Window := 0.

Definition echo : Callback := λ v, Fulfilled (VArr [v]).
Definition greet : Callback := λ _, Fulfilled VUndefined.
Definition reject_with (M : string) : Callback :=
  λ _, Rejected {| message := Some M; err_stack := None |}.

Definition john : value := VObj [("name", VStr "John")].

(** A requester in window 0 and a responder in window 1, set up: both create
    the channel, the responder registers [cb] and its announcement reaches
    the requester. *)
Definition ready (name : string) (cb : Callback) : list Action :=
  [ACreateChannel 0 name; ACreateChannel 1 name; AHandle 1 cb; ADeliver 0].

(** One request sent to window 1 and served to the end. *)
Definition served (q : value) : list Action :=
  [ARequest 0 q (Some 1); ADeliver 0; ASettle 0; ADeliver 0].

Definition setup_event (o : string) (name : string) : MessageEvent :=
  {| event_origin := o; event_source := Some 1;
     event_data := {| channel := requestChannel name; success := true;
                      isSetup := Some true; data := VUndefined;
                      error := None |} |}.

Definition error_event (o : string) (name : string)
    (e : option ErrorDetail) : MessageEvent :=
  {| event_origin := o; event_source := Some 1;
     event_data := {| channel := responseChannel name; success := false;
                      isSetup := None; data := VUndefined; error := e |} |}.

(** The scenario of the specification: channel "/greeting", the requester
    sends [{name: "John"}], the callback returns nothing. *)
Example greeting_scenario :
  let s := run one_origin child_of_top
             (ready "/greeting" greet ++ served john) init in
  promises s = [Resolved VUndefined] ∧ calls s = [(0, john)] ∧
  inflight s = [] ∧ jobs s = [].
Proof. vm_compute. done. Qed.

(** The scenario of the specification: the callback fails with
    "bad input". *)
Example bad_input_scenario :
  let s := run one_origin child_of_top
             (ready "/greeting" (reject_with "bad input") ++ served john) init in
  promises s = [RejectedWith "bad input"] ∧ calls s = [(0, john)].
Proof. vm_compute. done. Qed.

(** Membership in a list that computes. *)
Ltac elem_at :=
  apply list_elem_of_lookup;
  first [ exists 0; vm_compute; reflexivity
        | exists 1; vm_compute; reflexivity
        | exists 2; vm_compute; reflexivity
        | exists 3; vm_compute; reflexivity
        | exists 4; vm_compute; reflexivity ].

(** A foreign setup announcement leaves a waiting requester untouched. *)
Lemma foreign_origin_discarded_witness :
  let s := run two_origins child_of_top
             [ACreateChannel 0 "/c"; ARequest 0 john (Some 1)] init in
  let event := setup_event "https://other.example" "/c" in
  dispatchEvent two_origins 0 event s = s.
Proof.
  intros s event.
  apply (foreign_origin_discarded two_origins 0 event s).
  vm_compute. discriminate.
Defined.







(** Two requests on one channel, both pending, and the response to the
    first one in flight. *)
Definition racing_requests : list Action :=
  ready "/c" echo ++
  [ARequest 0 (VStr "A") (Some 1); ARequest 0 (VStr "B") (Some 1);
   ADeliver 0; ASettle 0].

(** C9: there is an execution in which two [request] calls on one channel
    are pending together and the only response envelope in flight, the
    answer to the first call's payload, completes the second call as well
    when it is delivered: the listeners are told apart by topic only. *)
Theorem response_consumed_by_other_request :
  ∃ (acts : list Action) (p : Post),
    let s := run one_origin child_of_top acts init in
    promises s = [Pending; Pending] ∧
    listeners_of 0 s = [LRequest 0 (responseChannel "/c");
                        LRequest 1 (responseChannel "/c")] ∧
    calls s = [(0, VStr "A")] ∧
    inflight s = [request_post 0
                    (request_call (Build_Channel 0 "/c" true) 1 (VStr "B") (Some 1));
                  p] ∧
    post_msg p = response_envelope (responseChannel "/c") (echo (VStr "A")) ∧
    promises (deliver one_origin 1 s) !! 1 = Some (Resolved (VArr [VStr "A"])) ∧
    echo (VStr "B") ≠ echo (VStr "A").
Proof.
  exists racing_requests. eexists. vm_compute.
  repeat (split; [reflexivity|]). discriminate.
Qed.

(** ** Concrete executions for the further properties *)

Definition response_event (o : string) (name : string) (v : value) : MessageEvent :=
  {| event_origin := o; event_source := Some 1;
     event_data := {| channel := responseChannel name; success := true;
                      isSetup := None; data := v; error := None |} |}.

(** A requester with one request pending on "/c". *)
Definition pending_request : list Action :=
  ready "/c" echo ++ [ARequest 0 john (Some 1)].

(** The same with the response to it in flight. *)
Definition answered_request : list Action :=
  pending_request ++ [ADeliver 0; ASettle 0].

(** A response on another channel leaves the pending requester as it is. *)
Lemma other_topic_discarded_witness :
  let s := run one_origin child_of_top pending_request init in
  dispatchEvent one_origin 0
    (response_event "https://app.example" "/other" VNull) s = s.
Proof.
  intros s.
  refine (other_topic_discarded one_origin 0 _ s _).
  intros l Hl. apply list_elem_of_In in Hl. vm_compute in Hl.
  repeat (destruct Hl as [Hl|Hl];
          [inversion Hl; subst; vm_compute; discriminate|]).
  destruct Hl.
Defined.

(** A late error envelope does not change a resolved greeting. *)
Lemma settled_stays_settled_witness :
  let s := run one_origin child_of_top
             (ready "/greeting" greet ++ served john) init in
  promises
    (run one_origin child_of_top
       [ADispatch 0 (error_event "https://app.example" "/greeting" None)] s)
    !! 0 = Some (Resolved VUndefined).
Proof.
  intros s.
  refine (settled_stays_settled one_origin child_of_top _ s 0
            (Resolved VUndefined) eq_refl _).
  discriminate.
Defined.

(** A requester created first detects the announcement. *)
Lemma announcement_sets_flag_witness :
  isSetup_of 0
    (dispatchEvent one_origin 0 (setup_event "https://app.example" "/c")
       (run one_origin child_of_top [ACreateChannel 0 "/c"] init)) = true.
Proof.
  refine (announcement_sets_flag one_origin child_of_top
            [ACreateChannel 0 "/c"] 0 (Build_Channel 0 "/c" false)
            (setup_event "https://app.example" "/c") eq_refl _).
  split; [reflexivity|]. split; reflexivity.
Defined.


(** After the announcement the listener of [createChannel] is gone. *)
Lemma announcement_removes_setup_listeners_witness :
  let s := run one_origin child_of_top
             [ACreateChannel 0 "/c"; ARequest 0 john (Some 1)] init in
  (0, LSetup 0 None) ∉
    listeners (dispatchEvent one_origin 0
                 (setup_event "https://app.example" "/c") s).
Proof.
  intros s.
  refine (announcement_removes_setup_listeners one_origin 0 0
            (Build_Channel 0 "/c" false)
            (setup_event "https://app.example" "/c") s None eq_refl _).
  split; [reflexivity|]. split; reflexivity.
Defined.

(** The response in flight is addressed to the responder's origin. *)
Lemma posts_keep_shape_witness :
  post_ok one_origin child_of_top
    {| post_target := 0; post_sender := 1;
       post_msg := response_envelope (responseChannel "/c") (echo john);
       post_targetOrigin := ExactOrigin "https://app.example" |}.
Proof.
  refine (posts_keep_shape one_origin child_of_top answered_request _ _).
  elem_at.
Defined.


(** * Concrete executions with exceptions *)

(** The text an engine gives the two exceptions (here the one of V8). *)
Definition engine_error (e : Full.Exn) : JsError :=
  match e with
  | Full.NotStringifiable (Full.VBigInt _) =>
      {| message := Some "Do not know how to serialize a BigInt";
         err_stack := Some "TypeError: Do not know how to serialize a BigInt" |}
  | Full.NotStringifiable _ =>
      {| message := Some "Converting circular structure to JSON";
         err_stack := Some "TypeError: Converting circular structure to JSON" |}
  | Full.NoProperties =>
      {| message := Some "Cannot read properties of undefined (reading 'message')";
         err_stack := None |}
  | Full.BadTargetOrigin o =>
      {| message := Some ("Failed to execute 'postMessage' on 'Window': " +:+
                          "Invalid target origin '" +:+ o +:+
                          "' in a call to 'postMessage'.");
         err_stack := None |}
  end.

(** No window is sandboxed. *)
Definition no_sandbox (w : Window) : bool := false.

(** Window 1 is a sandboxed frame. *)
Definition sandboxed_child (w : Window) : bool :=
  match w with
  | 1 => true
  | _ => false
  end.

Definition full_run : list Full.Action → Full.State → Full.State :=
  Full.run one_origin no_sandbox child_of_top engine_error.

Definition full_john : Full.value :=
  Full.VObj [("name", Full.VStr "John")].

Definition full_echo : Full.Callback := λ v, Full.Fulfilled (Full.VArr [v]).

(** A callback that answers with a [BigInt], as in
    [handle(async () => 10n)]. *)
Definition bigint_answer : Full.Callback := λ _, Full.Fulfilled (Full.VBigInt 10).

(** A callback whose promise is rejected with [undefined], as in
    [handle(() => Promise.reject())]. *)
Definition rejects_with_nothing : Full.Callback := λ _, Full.RejectedNullish.

Definition full_ready (name : string) (cb : Full.Callback) : list Full.Action :=
  [Full.ACreateChannel 0 name; Full.ACreateChannel 1 name; Full.AHandle 1 cb;
   Full.ADeliver 0].

Definition full_setup_event (o : string) (name : string) : Full.MessageEvent :=
  {| Full.event_origin := o; Full.event_source := Some 1;
     Full.event_data :=
       {| Full.channel := requestChannel name; Full.success := true;
          Full.isSetup := Some true; Full.data := Full.VUndefined;
          Full.error := None |} |}.

Definition full_request_event (o : string) (src : option Window)
    (name : string) (q : Full.value) : Full.MessageEvent :=
  {| Full.event_origin := o; Full.event_source := src;
     Full.event_data :=
       {| Full.channel := requestChannel name; Full.success := true;
          Full.isSetup := None; Full.data := q; Full.error := None |} |}.

(** The scenario of the specification runs as in the development on plain
    data. *)
Example full_greeting_scenario :
  let s := full_run
             (full_ready "/greeting" (λ _, Full.Fulfilled Full.VUndefined) ++
              [Full.ARequest 0 full_john (Some 1); Full.ADeliver 0;
               Full.ASettle 0; Full.ADeliver 0]) Full.init in
  Full.promises s = [Full.Resolved Full.VUndefined] ∧
  Full.calls s = [(0, full_john)] ∧ Full.inflight s = [] ∧ Full.jobs s = [].
Proof. vm_compute. done. Qed.

(** [handle(async () => 10n)] and [request({name: "John"})]: the request is
    served, two responses come back, the first makes the requester's
    listener throw, the second rejects the call. *)
Example bigint_answer_scenario :
  let s3 := full_run
              (full_ready "/c" bigint_answer ++
               [Full.ARequest 0 full_john (Some 1); Full.ADeliver 0;
                Full.ASettle 0]) Full.init in
  let s4 := full_run [Full.ADeliver 0] s3 in
  let s5 := full_run [Full.ADeliver 0] s4 in
  length (Full.inflight s3) = 2 ∧
  Full.promises s4 = [Full.Pending] ∧ Full.listeners s4 = Full.listeners s3 ∧
  Full.promises s5 =
    [Full.RejectedWith "Do not know how to serialize a BigInt"] ∧
  Full.inflight s5 = [].
Proof. vm_compute. done. Qed.

(** [request(10n)]: the executor subscribes, throws on its log line, and
    the call is rejected with nothing posted and its listener left
    subscribed. *)
Example bigint_request_scenario :
  let s := full_run (full_ready "/c" full_echo) Full.init in
  let s1 := full_run [Full.ARequest 0 (Full.VBigInt 10) (Some 1)] s in
  Full.promises s1 =
    [Full.RejectedBy (Full.NotStringifiable (Full.VBigInt 10))] ∧
  Full.inflight s1 = [] ∧
  Full.listeners s1 =
    Full.listeners s ++ [(0, Full.LRequest 0 (responseChannel "/c"))].
Proof. vm_compute. done. Qed.

(** A sandboxed responder: it passes its own guard and answers, but its
    response is stamped with the origin ["null"] and the requester's guard
    discards it, so the call stays pending. *)
Example sandboxed_responder_scenario :
  let s := Full.run one_origin sandboxed_child child_of_top engine_error
             ([Full.ACreateChannel 0 "/c"; Full.ACreateChannel 1 "/c";
               Full.AHandle 1 full_echo;
               Full.ADispatch 0 (full_setup_event "https://app.example" "/c");
               Full.ARequest 0 full_john (Some 1); Full.ADeliver 1;
               Full.ASettle 0; Full.ADeliver 1]) Full.init in
  Full.calls s = [(0, full_john)] ∧ Full.promises s = [Full.Pending] ∧
  Full.jobs s = [].
Proof. vm_compute. done. Qed.

(** The call of the scenario above is rejected with the message of the
    exception, never resolved with the [BigInt]. *)
Lemma unprintable_result_rejects_witness :
  let s := full_run (full_ready "/c" bigint_answer) Full.init in
  let s2 := full_run [Full.ARequest 0 full_john (Some 1); Full.ADeliver 0] s in
  let s5 := full_run [Full.ASettle 0; Full.ADeliver 0; Full.ADeliver 0] s2 in
  Full.promises s5 !! 0 =
    Some (Full.RejectedWith "Do not know how to serialize a BigInt") ∧
  ∀ acts', Full.promises (full_run acts' s5) !! 0
             ≠ Some (Full.Resolved (Full.VBigInt 10)).
Proof.
  intros s s2 s5.
  assert ((1, Full.LHandle 0 bigint_answer (requestChannel "/c")
                (responseChannel "/c")) ∈ Full.listeners s) as Hin
    by elem_at.
  assert (one_origin 0 ≠ "null") as Hn by discriminate.
  pose proof (Full.unprintable_result_rejects one_origin no_sandbox child_of_top
                engine_error (full_ready "/c" bigint_answer) 0
                (Build_Channel 0 "/c" true) 1 0 bigint_answer full_john
                (Full.VBigInt 10) eq_refl eq_refl Hin eq_refl Hn eq_refl eq_refl
                eq_refl eq_refl eq_refl) as H.
  destruct H as (_ & _ & _ & H).
  destruct (H 0 eq_refl) as (_ & _ & _ & H5 & Hnever).
  exact (conj H5 Hnever).
Defined.

(** A channel created in window 0: an announcement sets its flag, and a
    later call posts at once. *)
Lemma setup_flag_lifecycle_witness :
  let s := full_run [Full.ACreateChannel 0 "/c"] Full.init in
  let event := full_setup_event "https://app.example" "/c" in
  let s' := Full.dispatchEvent one_origin 0 event s in
  Full.isSetup_of 0 s = false ∧ Full.isSetup_of 0 s' = true ∧
  Full.inflight (Full.request 0 full_john (Some 1) s') =
    [Full.request_post 0
       (Full.request_call (Build_Channel 0 "/c" false) 0 full_john (Some 1))].
Proof.
  intros s event s'.
  pose proof (Full.setup_flag_lifecycle one_origin no_sandbox child_of_top
                engine_error
                [Full.ACreateChannel 0 "/c"] 0 (Build_Channel 0 "/c" false)
                eq_refl) as H.
  destruct H as (_ & _ & Hset & _ & Hreq).
  assert (Full.setup_announcement one_origin 0 "/c" event) as Ha
    by (by repeat split).
  split; [reflexivity|]. split; [exact (Hset event Ha)|].
  exact (proj1 (proj2 (Hreq event [] full_john (Some 1) Ha))).
Defined.




(** A request event without sender handle whose callback rejects with
    [undefined]: the callback is invoked, nothing is posted, and the
    [.catch] branch throws. *)
Lemma absent_source_unanswered_witness :
  let s := full_run (full_ready "/c" rejects_with_nothing) Full.init in
  let event := full_request_event "https://app.example" None "/c" full_john in
  let s1 := Full.dispatchEvent one_origin 1 event s in
  Full.inflight s1 = Full.inflight s ∧
  ∀ x, Full.run_job engine_error
         (Full.job_for 1 rejects_with_nothing (responseChannel "/c") event) x =
       Full.Throws Full.NoProperties x.
Proof.
  intros s event s1.
  assert ((1, Full.LHandle 0 rejects_with_nothing (requestChannel "/c")
                (responseChannel "/c")) ∈ Full.listeners s) as Hin
    by elem_at.
  assert (Full.valid_request one_origin 1 (requestChannel "/c") event) as Hv.
  { split; [reflexivity|]. split; [reflexivity|]. simpl. discriminate. }
  pose proof (Full.absent_source_unanswered one_origin no_sandbox child_of_top
                engine_error (full_ready "/c" rejects_with_nothing) 1 0
                rejects_with_nothing "/c" event Hin Hv eq_refl eq_refl) as H.
  destruct H as (_ & _ & Hjobs & _ & Hi & _ & Hsettle).
  split; [exact Hi|].
  exact (proj2 (Hsettle 0 s1 eq_refl)).
Defined.

(** ** Concrete executions for the further properties *)

Definition full_response_event (o : string) (name : string) (v : Full.value)
    : Full.MessageEvent :=
  {| Full.event_origin := o; Full.event_source := Some 1;
     Full.event_data :=
       {| Full.channel := responseChannel name; Full.success := true;
          Full.isSetup := None; Full.data := v; Full.error := None |} |}.


(** A pending call of the ready pair: a response that can be printed
    unsubscribes its listener. *)
Lemma response_unsubscribes_when_printed_witness :
  let s := full_run (full_ready "/c" full_echo ++
                     [Full.ARequest 0 full_john (Some 1)]) Full.init in
  let event := full_response_event "https://app.example" "/c" Full.VNull in
  (0, Full.LRequest 0 (responseChannel "/c"))
    ∉ Full.listeners (Full.dispatchEvent one_origin 0 event s).
Proof.
  intros s event.
  exact (proj1 (Full.response_unsubscribes_when_printed one_origin 0 "/c"
                  event s eq_refl eq_refl) eq_refl 0).
Defined.

(** The response of the ready pair, in flight: it is delivered to the
    requester's window and passes the guard there. *)
Lemma responses_reach_responder_origin_witness :
  let acts := full_ready "/c" full_echo ++
              [Full.ARequest 0 full_john (Some 1); Full.ADeliver 0;
               Full.ASettle 0] in
  let p := {| Full.post_target := 0; Full.post_sender := 1;
              Full.post_msg :=
                Full.success_envelope (responseChannel "/c")
                  (Full.VArr [full_john]);
              Full.post_targetOrigin := ExactOrigin "https://app.example" |} in
  let event := Full.event_of one_origin no_sandbox p in
  0 = Full.post_target p ∧
  no_sandbox 0 = false ∧
  one_origin 0 = one_origin (Full.post_sender p) ∧
  Full.event_origin event = Full.stamped_origin one_origin no_sandbox
                              (Full.post_sender p) ∧
  (Full.event_origin event = one_origin 0 ↔
   no_sandbox (Full.post_sender p) = false).
Proof.
  intros acts p event.
  exact (Full.responses_reach_responder_origin one_origin no_sandbox
           child_of_top engine_error acts 0 p "/c" 0 event eq_refl eq_refl
           eq_refl).
Defined.
